(** * Blogroll endpoint: the synchronization engine

    A shallow embedding of the sync engine of indiekit-endpoint-blogroll
    (lib/storage, lib/sync, and the duplicate check of the blogs
    controller), and the properties of its specification.

    The document store is modelled by ordered lists of documents (the
    natural order of a collection: [findOne] and [updateOne] see the first
    match, an insert appends).  Every awaited driver call may reject: a
    rejection is a thrown exception of the state-and-exception monad [M].
    Everything outside the repository (clock, network, parsers, hash) is a
    field of the environment [Env]. *)

From Stdlib Require Import List String Ascii ZArith Bool Arith Lia Permutation
  Sorted.
Import ListNotations.

Set Warnings "-register-all".

Open Scope string_scope.
Open Scope list_scope.

Infix "+++" := String.append (at level 60, right associativity).

(** ** JavaScript values *)

(** A string-valued property that may be [null] or [undefined]. *)
Definition jsstr := option string.

(** Truthiness of a possibly missing string: [undefined], [null] and the
    empty string are falsy. *)
Definition truthy (v : jsstr) : bool :=
  match v with
  | Some s => negb (s =? "")
  | None => false
  end.

(** [a || b] on possibly missing strings. *)
Definition orElse (a b : jsstr) : jsstr := if truthy a then a else b.

(** [a || "literal"]. *)
Definition orStr (a : jsstr) (b : string) : string :=
  match a with
  | Some s => if s =? "" then b else s
  | None => b
  end.

(** A template literal prints a missing value as a word; the model has
    one missing value and prints it as [undefined]. *)
Definition interp (v : jsstr) : string :=
  match v with
  | Some s => s
  | None => "undefined"
  end.

(** Where the two missing values must be told apart: a template literal
    prints [null] and [undefined] as different words. *)
Inductive jsval : Type :=
| JStr (s : string)
| JNull
| JUndefined.

(** [`${v}`] *)
Definition template (v : jsval) : string :=
  match v with
  | JStr s => s
  | JNull => "null"
  | JUndefined => "undefined"
  end.

(** A missing property of an object that spells it [null]. *)
Definition nullable (v : jsstr) : jsval :=
  match v with
  | Some s => JStr s
  | None => JNull
  end.

Definition strOf (v : jsval) : jsstr :=
  match v with
  | JStr s => Some s
  | _ => None
  end.

(** [a || b], keeping which missing value [b] is. *)
Definition orVal (a : jsstr) (b : jsval) : jsval :=
  match a with
  | Some s => if s =? "" then b else JStr s
  | None => b
  end.

(** A number as [Number(x)] yields it: an integer, or another number
    (NaN, an infinity, a fraction), kept as its printed form. *)
Inductive JsNumber : Type :=
| JsInt (z : Z)
| JsOther (text : string).

(** A stored instant keeps the type it was written with: a [Date] object
    or the ISO-8601 string [new Date(ms).toISOString()].  Both carry the
    instant in milliseconds since the epoch. *)
Inductive TimeVal : Type :=
| DateObj (ms : Z)
| IsoStr (ms : Z).

Definition instant (t : TimeVal) : Z :=
  match t with
  | DateObj ms => ms
  | IsoStr ms => ms
  end.

(** ** Documents *)

Definition ObjectId := nat.

Inductive Status : Type := Active | Error | Deleted | Pending | Inactive.

Definition status_eqb (a b : Status) : bool :=
  match a, b with
  | Active, Active | Error, Error | Deleted, Deleted
  | Pending, Pending | Inactive, Inactive => true
  | _, _ => false
  end.

(** A document of [blogrollBlogs]. *)
Record Blog : Type := mkBlog {
  b_id : ObjectId;
  b_sourceId : option ObjectId;
  b_title : string;
  b_description : jsstr;
  b_feedUrl : string;
  b_siteUrl : jsstr;
  b_feedType : string;
  b_category : string;
  b_tags : list string;
  b_photo : jsstr;
  b_author : jsstr;
  b_status : Status;
  b_lastFetchAt : option Z;
  b_lastError : jsstr;
  b_itemCount : nat;
  b_pinned : bool;
  b_hidden : bool;
  b_notes : jsstr;
  b_createdAt : Z;
  b_updatedAt : Z;
  b_source : jsstr;
  b_microsubFeedId : jsstr;
  b_microsubChannelId : jsstr;
  b_microsubChannelName : jsstr;
  b_skipItemFetch : bool;
  b_deletedAt : option Z;
  b_unsubscribedAt : option Z
}.

(** The [data] argument of [upsertBlog].  The first six properties are the
    base fields; the others are optional, [None] standing for a property
    that is [undefined] in [data] (a property given as [null] is
    [Some None]). *)
Record Candidate : Type := mkCandidate {
  c_title : string;
  c_feedUrl : string;
  c_siteUrl : string;
  c_feedType : string;
  c_category : string;
  c_sourceId : option ObjectId;
  c_source : jsstr;
  c_microsubFeedId : jsstr;
  c_microsubChannelId : jsstr;
  c_microsubChannelName : jsstr;
  c_skipItemFetch : option bool;
  c_photo : option jsstr;
  c_lastFetchAt : option (option Z);
  c_status : option Status
}.

(** A document of [blogrollItems].  The driver-assigned [_id] of an item
    is never read by the engine and is left out. *)
Record Item : Type := mkItem {
  i_blogId : ObjectId;
  i_uid : string;
  i_url : jsstr;
  i_title : string;
  i_html : jsstr;
  i_text : jsstr;
  i_summary : string;
  i_published : TimeVal;
  i_updated : option TimeVal;
  i_author : jsstr;
  i_photo : option (list string);
  i_categories : list string;
  i_fetchedAt : TimeVal
}.

Inductive SourceType : Type :=
  OpmlUrl | OpmlFile | Manual | JsonFeedSource | Microsub | Feedland.

Definition sourceTypeName (t : SourceType) : string :=
  match t with
  | OpmlUrl => "opml_url"
  | OpmlFile => "opml_file"
  | Manual => "manual"
  | JsonFeedSource => "json_feed"
  | Microsub => "microsub"
  | Feedland => "feedland"
  end.

(** A document of [blogrollSources]. *)
Record Source : Type := mkSource {
  s_id : ObjectId;
  s_type : SourceType;
  s_name : string;
  s_url : jsstr;
  s_opmlContent : jsstr;
  s_channelFilter : jsstr;
  s_categoryPrefix : string;
  s_feedlandInstance : jsstr;
  s_feedlandUsername : jsstr;
  s_feedlandCategory : jsstr;
  s_enabled : bool;
  s_lastSyncAt : option Z;
  s_lastSyncError : jsstr;
  s_updatedAt : Z
}.

Record Tally : Type := mkTally {
  t_total : nat;
  t_success : nat;
  t_failed : nat
}.

(** The [syncStats] document of [blogrollMeta]. *)
Record SyncStats : Type := mkSyncStats {
  st_lastFullSync : Z;
  st_duration : Z;
  st_sources : Tally;
  st_blogs : Tally;
  st_added : nat;
  st_deleted : nat
}.

(** The four collections of the blogroll database, and the counter the
    fresh [_id] of an inserted blog is taken from. *)
Record Db : Type := mkDb {
  blogs : list Blog;
  items : list Item;
  sources : list Source;
  meta : option SyncStats;
  nextId : ObjectId
}.

Definition withBlogs (db : Db) (bs : list Blog) : Db :=
  mkDb bs (items db) (sources db) (meta db) (nextId db).

Definition withItems (db : Db) (its : list Item) : Db :=
  mkDb (blogs db) its (sources db) (meta db) (nextId db).

Definition withSources (db : Db) (ss : list Source) : Db :=
  mkDb (blogs db) (items db) ss (meta db) (nextId db).

Definition withMeta (db : Db) (m : option SyncStats) : Db :=
  mkDb (blogs db) (items db) (sources db) m (nextId db).

Definition insertBlog (db : Db) (mk : ObjectId -> Blog) : Db :=
  mkDb (blogs db ++ [mk (nextId db)]) (items db) (sources db) (meta db)
       (S (nextId db)).

(** Decidable equality of documents: [modifiedCount] counts the documents
    an update really changed. *)
Definition Status_eq_dec (a b : Status) : {a = b} + {a <> b}.
Proof. decide equality. Defined.

Definition TimeVal_eq_dec (a b : TimeVal) : {a = b} + {a <> b}.
Proof. decide equality; apply Z.eq_dec. Defined.

Definition jsstr_eq_dec (a b : jsstr) : {a = b} + {a <> b}.
Proof. decide equality; apply string_dec. Defined.

Definition optZ_eq_dec (a b : option Z) : {a = b} + {a <> b}.
Proof. decide equality; apply Z.eq_dec. Defined.

Definition optId_eq_dec (a b : option ObjectId) : {a = b} + {a <> b}.
Proof. decide equality; apply Nat.eq_dec. Defined.

Definition Blog_eq_dec (a b : Blog) : {a = b} + {a <> b}.
Proof.
  decide equality;
    first [ apply string_dec | apply jsstr_eq_dec | apply optZ_eq_dec
          | apply optId_eq_dec | apply Z.eq_dec | apply Nat.eq_dec
          | apply Bool.bool_dec | apply Status_eq_dec
          | apply (list_eq_dec string_dec) ].
Defined.

Definition Item_eq_dec (a b : Item) : {a = b} + {a <> b}.
Proof.
  decide equality;
    first [ apply string_dec | apply jsstr_eq_dec | apply TimeVal_eq_dec
          | apply Nat.eq_dec | apply (list_eq_dec string_dec)
          | decide equality; first [ apply TimeVal_eq_dec
                                   | apply (list_eq_dec string_dec) ] ].
Defined.

Definition changed {D : Type} (dec : forall a b : D, {a = b} + {a <> b})
  (old new : D) : bool :=
  if dec old new then false else true.

(** ** The outside world *)

(** Result of an awaited call: a value, or a thrown error with its
    message. *)
Inductive outcome (A : Type) : Type :=
| Ok (a : A)
| Throw (msg : string).

Arguments Ok {A} a.
Arguments Throw {A} msg.

(** What [xml2js] (with [explicitArray: false]) yields for an [outline]
    element: its attribute object [$], missing when the element has no
    attribute, and its nested [outline] property.  The code normalises a
    single child to a one-element array, so the children are a list; the
    empty list is a missing [outline] property. *)
Record OutlineAttrs : Type := mkAttrs {
  a_text : jsstr;
  a_title : jsstr;
  a_type : jsstr;
  a_xmlUrl : jsstr;
  a_htmlUrl : jsstr;
  a_category : jsstr
}.

Inductive Outline : Type :=
| mkOutline (attrs : option OutlineAttrs) (kids : list Outline).

Definition o_attrs (o : Outline) : option OutlineAttrs :=
  match o with mkOutline a _ => a end.

Definition o_kids (o : Outline) : list Outline :=
  match o with mkOutline _ k => k end.

(** [result.opml.body.outline], the empty list when any of these is
    missing. *)
Definition OpmlDoc := list Outline.

(** An item as [feedparser] emits it. *)
Record Enclosure : Type := mkEnclosure {
  enc_type : jsstr;
  enc_url : string
}.

Record Media : Type := mkMedia {
  med_type : jsstr;
  med_medium : jsstr;
  med_url : string
}.

Record XmlItem : Type := mkXmlItem {
  x_guid : jsstr;
  x_link : jsstr;
  x_origlink : jsstr;
  x_title : jsstr;
  x_description : jsstr;
  x_summary : jsstr;
  x_pubdate : option Z;
  x_date : option Z;
  x_author : jsstr;
  x_categories : list string;
  x_enclosures : list Enclosure;
  x_media : list Media;
  x_image : jsstr
}.

(** An item of a JSON Feed document. *)
Record JsonItem : Type := mkJsonItem {
  j_id : jsstr;
  j_url : jsval;
  j_external_url : jsstr;
  j_title : jsstr;
  j_content_html : jsstr;
  j_content_text : jsstr;
  j_summary : jsstr;
  j_date_published : option Z;
  j_date_modified : option Z;
  j_author : jsstr;
  j_image : jsstr;
  j_tags : list string
}.

(** Channel-level properties of a fetched feed ([meta] of feedparser, the
    top level of a JSON Feed). *)
Record FeedMeta : Type := mkFeedMeta {
  m_title : jsstr;
  m_description : jsstr;
  m_link : jsstr;
  m_photo : jsstr;
  m_author : jsstr
}.

Inductive RawFeed : Type :=
| XmlFeed (m : FeedMeta) (its : list XmlItem)
| JsonFeed (m : FeedMeta) (its : list JsonItem).

(** Documents of the foreign collections [microsub_channels] and
    [microsub_feeds]. *)
Record Channel : Type := mkChannel {
  ch_id : string;
  ch_uid : string;
  ch_name : string
}.

Record MsFeed : Type := mkMsFeed {
  mf_id : string;
  mf_channelId : string;
  mf_url : string;
  mf_title : jsstr;
  mf_status : jsstr;
  mf_lastFetchedAt : option Z;
  mf_photo : jsstr
}.

Inductive Coll : Type :=
  BlogsColl | ItemsColl | SourcesColl | MetaColl | ChannelsColl | FeedsColl.

Inductive Method : Type :=
  FindOne | Find | InsertOne | UpdateOne | UpdateMany | FindOneAndUpdate
| DeleteOne | DeleteMany.

Definition Coll_eq_dec (a b : Coll) : {a = b} + {a <> b}.
Proof. decide equality. Defined.

Definition Method_eq_dec (a b : Method) : {a = b} + {a <> b}.
Proof. decide equality. Defined.

(** Everything the engine reads from outside the repository. *)
Record Env : Type := mkEnv {
  (** the clock: [Date.now()] / [new Date()] during the operation, and the
      time a full run took *)
  now : Z;
  elapsed : Z;
  (** a driver call on a collection rejects with this message *)
  storeFault : Coll -> Method -> option string;
  (** the network and the feed parsers: the parsed body of a feed URL *)
  fetchFeed : string -> outcome RawFeed;
  (** the network: the text behind an OPML URL *)
  httpGet : string -> outcome string;
  (** [parseStringPromise] of xml2js *)
  xml2js : string -> outcome OpmlDoc;
  (** the Microsub plugin's collections, when the plugin is installed *)
  microsub : option (list Channel * list MsFeed);
  (** [crypto.createHash("sha256").update(s).digest("hex")] *)
  sha256hex : string -> string;
  (** sanitize-html with the module's allow-list *)
  sanitizeHtml : string -> string;
  (** the regex text helpers of sync/feed; they only fill text fields *)
  stripHtml : jsstr -> string;
  decodeEntities : jsstr -> string;
  truncateText : jsstr -> nat -> string;
  (** [new URL(u).hostname] without a leading "www.", and
      [protocol//host]; both with the module's fallbacks *)
  extractDomainFromUrl : string -> string;
  extractSiteUrl : string -> string;
  encodeURIComponent : jsstr -> string;
  (** [new Date(ms).toUTCString()] *)
  toUTCString : Z -> string;
  (** what the driver and the server make of [.skip(offset).limit(limit)]
      when the two are not both integers that are not negative: a
      rejection, or the number of documents skipped and the bound, if
      any, on the number returned *)
  cursorWindow : JsNumber -> JsNumber -> outcome (nat * option nat)
}.

(** ** MongoDB primitives on one collection *)

Section Collection.
Context {D : Type}.

(** First document matching [p], in natural order. *)
Definition findOne (p : D -> bool) (docs : list D) : option D :=
  find p docs.

(** [updateOne] without upsert: the first match is replaced by its
    update; the result is the matched document and the new collection. *)
Fixpoint updateFirst (p : D -> bool) (f : D -> D) (docs : list D)
  : option (D * list D) :=
  match docs with
  | [] => None
  | d :: rest =>
      if p d then Some (d, f d :: rest)
      else match updateFirst p f rest with
           | Some (old, rest') => Some (old, d :: rest')
           | None => None
           end
  end.

Definition updateMany (p : D -> bool) (f : D -> D) (docs : list D)
  : list D :=
  map (fun d => if p d then f d else d) docs.

Definition deleteMany (p : D -> bool) (docs : list D) : list D :=
  filter (fun d => negb (p d)) docs.

Definition countMatching (p : D -> bool) (docs : list D) : nat :=
  List.length (filter p docs).

(** A stable insertion sort, for [.sort({...})]. *)
Fixpoint insertSorted (le : D -> D -> bool) (x : D) (l : list D)
  : list D :=
  match l with
  | [] => [x]
  | y :: rest =>
      if le x y then x :: l else y :: insertSorted le x rest
  end.

Definition sortBy (le : D -> D -> bool) (l : list D) : list D :=
  fold_right (insertSorted le) [] l.
End Collection.

(** ** The state-and-exception monad of the engine *)

Definition M (A : Type) : Type := Db -> outcome A * Db.

Definition ret {A : Type} (a : A) : M A := fun db => (Ok a, db).

Definition throw {A : Type} (msg : string) : M A :=
  fun db => (Throw msg, db).

Definition bind {A B : Type} (m : M A) (k : A -> M B) : M B :=
  fun db =>
    match m db with
    | (Ok a, db') => k a db'
    | (Throw e, db') => (Throw e, db')
    end.

(** [try { m } catch (error) { h error.message }] *)
Definition tryCatch {A : Type} (m : M A) (h : string -> M A) : M A :=
  fun db =>
    match m db with
    | (Ok a, db') => (Ok a, db')
    | (Throw e, db') => h e db'
    end.

Notation "x <- m ;; k" := (bind m (fun x => k))
  (at level 61, m at next level, right associativity).
Notation "m ;;; k" := (bind m (fun _ => k))
  (at level 61, right associativity).

(** ** Arguments and results of the storage layer *)

(** Options of [getBlogs]. *)
Record BlogQuery : Type := mkBlogQuery {
  q_category : jsstr;
  q_sourceId : option ObjectId;
  q_includeHidden : bool;
  q_limit : JsNumber;
  q_offset : JsNumber
}.

(** The [data] argument of [createBlog]. *)
Record NewBlog : Type := mkNewBlog {
  n_sourceId : option ObjectId;
  n_title : string;
  n_description : jsstr;
  n_feedUrl : string;
  n_siteUrl : jsstr;
  n_feedType : jsstr;
  n_category : jsstr;
  n_tags : list string;
  n_photo : jsstr;
  n_author : jsstr;
  n_pinned : bool;
  n_hidden : bool;
  n_notes : jsstr
}.

(** The [status] argument of [updateBlogStatus]. *)
Inductive FetchStatus : Type :=
| FetchedOk (itemCount : option nat) (title photo siteUrl : jsstr)
| FetchedErr (error : string).

(** What [upsertBlog] and [upsertItem] return; a property that is absent
    from the returned object reads as [false]. *)
Record UpsertResult : Type := mkUpsertResult {
  upserted : bool;
  modified : bool;
  skippedDeleted : bool
}.

(** [x || null] *)
Definition orNull (v : jsstr) : jsstr := if truthy v then v else None.

Definition optId_eqb (a b : option ObjectId) : bool :=
  if optId_eq_dec a b then true else false.

Definition jsstr_eqb (a b : jsstr) : bool :=
  if jsstr_eq_dec a b then true else false.

(** ** The engine *)

Section Engine.
Variable env : Env.

(** An awaited driver call: it rejects when the store does, and
    otherwise performs [f]. *)
Definition call {A : Type} (c : Coll) (m : Method) (f : Db -> A * Db)
  : M A :=
  fun db =>
    match storeFault env c m with
    | Some e => (Throw e, db)
    | None => let (a, db') := f db in (Ok a, db')
    end.

(** *** storage/blogs *)

Definition blogQueryMatch (q : BlogQuery) (b : Blog) : bool :=
  negb (status_eqb (b_status b) Deleted)
  && (q_includeHidden q || negb (b_hidden b))
  && (if truthy (q_category q)
      then jsstr_eqb (Some (b_category b)) (q_category q) else true)
  && (match q_sourceId q with
      | Some s => optId_eqb (b_sourceId b) (Some s)
      | None => true
      end).

(** [.sort({ pinned: -1, title: 1 })] *)
Definition blogOrder (a b : Blog) : bool :=
  if Bool.eqb (b_pinned a) (b_pinned b)
  then String.leb (b_title a) (b_title b)
  else b_pinned a.

(** [.skip(offset).limit(limit)]: with integers that are not negative,
    [offset] documents are skipped and at most [limit] returned, a
    [limit] of 0 being no limit; any other pair is the driver's. *)
Definition windowOf (q : BlogQuery) : outcome (nat * option nat) :=
  match q_offset q, q_limit q with
  | JsInt o, JsInt l =>
      if (0 <=? o)%Z && (0 <=? l)%Z
      then Ok (Z.to_nat o, if (l =? 0)%Z then None else Some (Z.to_nat l))
      else cursorWindow env (q_offset q) (q_limit q)
  | _, _ => cursorWindow env (q_offset q) (q_limit q)
  end.

Definition takeUpTo {D : Type} (bound : option nat) (l : list D) : list D :=
  match bound with
  | Some n => firstn n l
  | None => l
  end.

Definition getBlogs (q : BlogQuery) : M (list Blog) :=
  fun db =>
    match storeFault env BlogsColl Find with
    | Some e => (Throw e, db)
    | None =>
        match windowOf q with
        | Throw e => (Throw e, db)
        | Ok (skipped, bound) =>
            (Ok (takeUpTo bound
                   (skipn skipped
                      (sortBy blogOrder
                         (filter (blogQueryMatch q) (blogs db))))),
             db)
        end
    end.

Definition getBlogByFeedUrl (feedUrl : string) : M (option Blog) :=
  call BlogsColl FindOne (fun db =>
    (findOne (fun b => (b_feedUrl b =? feedUrl)
                       && negb (status_eqb (b_status b) Deleted))
             (blogs db),
     db)).

Definition newBlogDoc (data : NewBlog) (id : ObjectId) : Blog :=
  {| b_id := id;
     b_sourceId := n_sourceId data;
     b_title := n_title data;
     b_description := orNull (n_description data);
     b_feedUrl := n_feedUrl data;
     b_siteUrl := orNull (n_siteUrl data);
     b_feedType := orStr (n_feedType data) "rss";
     b_category := orStr (n_category data) "";
     b_tags := n_tags data;
     b_photo := orNull (n_photo data);
     b_author := orNull (n_author data);
     b_status := Active;
     b_lastFetchAt := None;
     b_lastError := None;
     b_itemCount := 0;
     b_pinned := n_pinned data;
     b_hidden := n_hidden data;
     b_notes := orNull (n_notes data);
     b_createdAt := now env;
     b_updatedAt := now env;
     b_source := None;
     b_microsubFeedId := None;
     b_microsubChannelId := None;
     b_microsubChannelName := None;
     b_skipItemFetch := false;
     b_deletedAt := None;
     b_unsubscribedAt := None |}.

Definition createBlog (data : NewBlog) : M Blog :=
  call BlogsColl InsertOne (fun db =>
    (newBlogDoc data (nextId db), insertBlog db (newBlogDoc data))).

(** [updateOne({ _id }, { $set })] on the blogs: whether a document was
    modified. *)
Definition updateBlogById (id : ObjectId) (f : Blog -> Blog) : M bool :=
  call BlogsColl UpdateOne (fun db =>
    match updateFirst (fun b => (b_id b =? id)%nat) f (blogs db) with
    | Some (old, bs) => (changed Blog_eq_dec old (f old), withBlogs db bs)
    | None => (false, db)
    end).

(** The [$set] of a soft delete (the same in [deleteBlog] and in the
    orphan sweep of the Microsub sync). *)
Definition softDelete (b : Blog) : Blog :=
  {| b_id := b_id b;
     b_sourceId := b_sourceId b;
     b_title := b_title b;
     b_description := b_description b;
     b_feedUrl := b_feedUrl b;
     b_siteUrl := b_siteUrl b;
     b_feedType := b_feedType b;
     b_category := b_category b;
     b_tags := b_tags b;
     b_photo := b_photo b;
     b_author := b_author b;
     b_status := Deleted;
     b_lastFetchAt := b_lastFetchAt b;
     b_lastError := b_lastError b;
     b_itemCount := b_itemCount b;
     b_pinned := b_pinned b;
     b_hidden := true;
     b_notes := b_notes b;
     b_createdAt := b_createdAt b;
     b_updatedAt := now env;
     b_source := b_source b;
     b_microsubFeedId := b_microsubFeedId b;
     b_microsubChannelId := b_microsubChannelId b;
     b_microsubChannelName := b_microsubChannelName b;
     b_skipItemFetch := b_skipItemFetch b;
     b_deletedAt := Some (now env);
     b_unsubscribedAt := b_unsubscribedAt b |}.

Definition deleteBlog (id : ObjectId) : M bool :=
  call ItemsColl DeleteMany (fun db =>
    (tt, withItems db
           (deleteMany (fun i => (i_blogId i =? id)%nat) (items db)))) ;;;
  updateBlogById id softDelete.

(** The [$set] built by [updateBlogStatus]. *)
Definition applyFetchStatus (st : FetchStatus) (b : Blog) : Blog :=
  match st with
  | FetchedOk itemCount title photo siteUrl =>
      {| b_id := b_id b;
         b_sourceId := b_sourceId b;
         b_title := if truthy title then interp title else b_title b;
         b_description := b_description b;
         b_feedUrl := b_feedUrl b;
         b_siteUrl := if truthy siteUrl then siteUrl else b_siteUrl b;
         b_feedType := b_feedType b;
         b_category := b_category b;
         b_tags := b_tags b;
         b_photo := if truthy photo then photo else b_photo b;
         b_author := b_author b;
         b_status := Active;
         b_lastFetchAt := Some (now env);
         b_lastError := None;
         b_itemCount := match itemCount with
                        | Some n => n
                        | None => b_itemCount b
                        end;
         b_pinned := b_pinned b;
         b_hidden := b_hidden b;
         b_notes := b_notes b;
         b_createdAt := b_createdAt b;
         b_updatedAt := now env;
         b_source := b_source b;
         b_microsubFeedId := b_microsubFeedId b;
         b_microsubChannelId := b_microsubChannelId b;
         b_microsubChannelName := b_microsubChannelName b;
         b_skipItemFetch := b_skipItemFetch b;
         b_deletedAt := b_deletedAt b;
         b_unsubscribedAt := b_unsubscribedAt b |}
  | FetchedErr error =>
      {| b_id := b_id b;
         b_sourceId := b_sourceId b;
         b_title := b_title b;
         b_description := b_description b;
         b_feedUrl := b_feedUrl b;
         b_siteUrl := b_siteUrl b;
         b_feedType := b_feedType b;
         b_category := b_category b;
         b_tags := b_tags b;
         b_photo := b_photo b;
         b_author := b_author b;
         b_status := Error;
         b_lastFetchAt := b_lastFetchAt b;
         b_lastError := Some error;
         b_itemCount := b_itemCount b;
         b_pinned := b_pinned b;
         b_hidden := b_hidden b;
         b_notes := b_notes b;
         b_createdAt := b_createdAt b;
         b_updatedAt := now env;
         b_source := b_source b;
         b_microsubFeedId := b_microsubFeedId b;
         b_microsubChannelId := b_microsubChannelId b;
         b_microsubChannelName := b_microsubChannelName b;
         b_skipItemFetch := b_skipItemFetch b;
         b_deletedAt := b_deletedAt b;
         b_unsubscribedAt := b_unsubscribedAt b |}
  end.

Definition updateBlogStatus (id : ObjectId) (st : FetchStatus) : M unit :=
  updateBlogById id (applyFetchStatus st) ;;; ret tt.

(** The [$set] of [upsertBlog] on a matched document: the base fields
    always, an optional field when [data] defines it. *)
Definition applyUpsert (data : Candidate) (b : Blog) : Blog :=
  {| b_id := b_id b;
     b_sourceId := c_sourceId data;
     b_title := c_title data;
     b_description := b_description b;
     b_feedUrl := b_feedUrl b;
     b_siteUrl := Some (c_siteUrl data);
     b_feedType := c_feedType data;
     b_category := c_category data;
     b_tags := b_tags b;
     b_photo := match c_photo data with
                | Some v => v
                | None => b_photo b
                end;
     b_author := b_author b;
     b_status := match c_status data with
                 | Some v => v
                 | None => b_status b
                 end;
     b_lastFetchAt := match c_lastFetchAt data with
                      | Some v => v
                      | None => b_lastFetchAt b
                      end;
     b_lastError := b_lastError b;
     b_itemCount := b_itemCount b;
     b_pinned := b_pinned b;
     b_hidden := b_hidden b;
     b_notes := b_notes b;
     b_createdAt := b_createdAt b;
     b_updatedAt := now env;
     b_source := match c_source data with
                 | Some v => Some v
                 | None => b_source b
                 end;
     b_microsubFeedId := match c_microsubFeedId data with
                         | Some v => Some v
                         | None => b_microsubFeedId b
                         end;
     b_microsubChannelId := match c_microsubChannelId data with
                            | Some v => Some v
                            | None => b_microsubChannelId b
                            end;
     b_microsubChannelName := match c_microsubChannelName data with
                              | Some v => Some v
                              | None => b_microsubChannelName b
                              end;
     b_skipItemFetch := match c_skipItemFetch data with
                        | Some v => v
                        | None => b_skipItemFetch b
                        end;
     b_deletedAt := b_deletedAt b;
     b_unsubscribedAt := b_unsubscribedAt b |}.

(** The document an upsert inserts: the equality fields of the filter,
    the [$set] fields and the [$setOnInsert] defaults. *)
Definition upsertDoc (data : Candidate) (id : ObjectId) : Blog :=
  {| b_id := id;
     b_sourceId := c_sourceId data;
     b_title := c_title data;
     b_description := None;
     b_feedUrl := c_feedUrl data;
     b_siteUrl := Some (c_siteUrl data);
     b_feedType := c_feedType data;
     b_category := c_category data;
     b_tags := [];
     b_photo := match c_photo data with
                | Some v => v
                | None => None
                end;
     b_author := None;
     b_status := match c_status data with
                 | Some v => v
                 | None => Active
                 end;
     b_lastFetchAt := match c_lastFetchAt data with
                      | Some v => v
                      | None => None
                      end;
     b_lastError := None;
     b_itemCount := 0;
     b_pinned := false;
     b_hidden := false;
     b_notes := None;
     b_createdAt := now env;
     b_updatedAt := now env;
     b_source := c_source data;
     b_microsubFeedId := c_microsubFeedId data;
     b_microsubChannelId := c_microsubChannelId data;
     b_microsubChannelName := c_microsubChannelName data;
     b_skipItemFetch := match c_skipItemFetch data with
                        | Some v => v
                        | None => false
                        end;
     b_deletedAt := None;
     b_unsubscribedAt := None |}.

(** The filter of the upsert: the feed URL, and the source id when
    [data] carries one. *)
Definition upsertFilter (data : Candidate) (b : Blog) : bool :=
  (b_feedUrl b =? c_feedUrl data)
  && match c_sourceId data with
     | Some s => optId_eqb (b_sourceId b) (Some s)
     | None => true
     end.

Definition isDeletedWithUrl (feedUrl : string) (b : Blog) : bool :=
  (b_feedUrl b =? feedUrl) && status_eqb (b_status b) Deleted.

Definition skippedResult : UpsertResult :=
  {| upserted := false; modified := false; skippedDeleted := true |}.

Definition upsertBlog (data : Candidate) : M UpsertResult :=
  deleted <- call BlogsColl FindOne (fun db =>
               (findOne (isDeletedWithUrl (c_feedUrl data)) (blogs db),
                db)) ;;
  match deleted with
  | Some _ => ret skippedResult
  | None =>
      call BlogsColl UpdateOne (fun db =>
        match updateFirst (upsertFilter data) (applyUpsert data)
                          (blogs db) with
        | Some (old, bs) =>
            ({| upserted := false;
                modified := changed Blog_eq_dec old (applyUpsert data old);
                skippedDeleted := false |},
             withBlogs db bs)
        | None =>
            ({| upserted := true;
                modified := false;
                skippedDeleted := false |},
             insertBlog db (upsertDoc data))
        end)
  end.

(** *** storage/items *)

(** A normalised feed item, as the feed module hands it to
    [upsertItem] (with the blog id added by the caller). *)
Record FeedItem : Type := mkFeedItem {
  fi_uid : string;
  fi_url : jsstr;
  fi_title : string;
  fi_html : jsstr;
  fi_text : jsstr;
  fi_summary : string;
  fi_published : TimeVal;
  fi_updated : option TimeVal;
  fi_author : jsstr;
  fi_photo : option (list string);
  fi_categories : list string
}.

Definition itemKey (blogId : ObjectId) (uid : string) (i : Item) : bool :=
  (i_blogId i =? blogId)%nat && (i_uid i =? uid).

(** The [$set] of [upsertItem] on a matched document. *)
Definition applyItem (data : FeedItem) (i : Item) : Item :=
  {| i_blogId := i_blogId i;
     i_uid := i_uid i;
     i_url := fi_url data;
     i_title := fi_title data;
     i_html := fi_html data;
     i_text := fi_text data;
     i_summary := fi_summary data;
     i_published := fi_published data;
     i_updated := fi_updated data;
     i_author := fi_author data;
     i_photo := fi_photo data;
     i_categories := fi_categories data;
     i_fetchedAt := IsoStr (now env) |}.

(** The inserted document: [$set] and the [$setOnInsert] identity. *)
Definition itemDoc (blogId : ObjectId) (data : FeedItem) : Item :=
  {| i_blogId := blogId;
     i_uid := fi_uid data;
     i_url := fi_url data;
     i_title := fi_title data;
     i_html := fi_html data;
     i_text := fi_text data;
     i_summary := fi_summary data;
     i_published := fi_published data;
     i_updated := fi_updated data;
     i_author := fi_author data;
     i_photo := fi_photo data;
     i_categories := fi_categories data;
     i_fetchedAt := IsoStr (now env) |}.

Definition upsertItem (blogId : ObjectId) (data : FeedItem)
  : M UpsertResult :=
  call ItemsColl UpdateOne (fun db =>
    match updateFirst (itemKey blogId (fi_uid data)) (applyItem data)
                      (items db) with
    | Some (old, its) =>
        ({| upserted := false;
            modified := changed Item_eq_dec old (applyItem data old);
            skippedDeleted := false |},
         withItems db its)
    | None =>
        ({| upserted := true; modified := false;
            skippedDeleted := false |},
         withItems db (items db ++ [itemDoc blogId data]))
    end).

Definition msPerDay : Z := 24 * 60 * 60 * 1000.

Definition cutoffOf (maxAgeDays : Z) : Z := now env - maxAgeDays * msPerDay.

(** [{ published: { $lt: cutoff } }] with [cutoff] a [Date]: a
    comparison operator of the store only matches values of the type of
    its operand, so a [published] stored as a string never matches a
    [Date] bound. *)
Definition publishedBefore (cutoff : Z) (i : Item) : bool :=
  match i_published i with
  | DateObj ms => (ms <? cutoff)%Z
  | IsoStr _ => false
  end.

Definition deleteOldItems (maxAgeDays : Z) : M nat :=
  call ItemsColl DeleteMany (fun db =>
    (countMatching (publishedBefore (cutoffOf maxAgeDays)) (items db),
     withItems db
       (deleteMany (publishedBefore (cutoffOf maxAgeDays)) (items db)))).

(** *** storage/sources *)

Definition getSources : M (list Source) :=
  call SourcesColl Find (fun db =>
    (sortBy (fun a b => String.leb (s_name a) (s_name b)) (sources db),
     db)).

Inductive SyncStatus : Type :=
| SyncedOk
| SyncedErr (error : string).

Definition applySyncStatus (st : SyncStatus) (s : Source) : Source :=
  {| s_id := s_id s;
     s_type := s_type s;
     s_name := s_name s;
     s_url := s_url s;
     s_opmlContent := s_opmlContent s;
     s_channelFilter := s_channelFilter s;
     s_categoryPrefix := s_categoryPrefix s;
     s_feedlandInstance := s_feedlandInstance s;
     s_feedlandUsername := s_feedlandUsername s;
     s_feedlandCategory := s_feedlandCategory s;
     s_enabled := s_enabled s;
     s_lastSyncAt := match st with
                     | SyncedOk => Some (now env)
                     | SyncedErr _ => s_lastSyncAt s
                     end;
     s_lastSyncError := match st with
                        | SyncedOk => None
                        | SyncedErr e => Some e
                        end;
     s_updatedAt := now env |}.

Definition updateSourceSyncStatus (id : ObjectId) (st : SyncStatus)
  : M unit :=
  call SourcesColl UpdateOne (fun db =>
    match updateFirst (fun s => (s_id s =? id)%nat) (applySyncStatus st)
                      (sources db) with
    | Some (_, ss) => (tt, withSources db ss)
    | None => (tt, db)
    end).


(** *** sync/feed *)

Definition generateUid (feedUrl : string) (itemId : jsval) : string :=
  substring 0 24 (sha256hex env (feedUrl +++ "::" +++ template itemId)).

Definition startsWithImage (t : jsstr) : bool :=
  match t with
  | Some s => prefix "image/" s
  | None => false
  end.

Definition extractPhotos (item : XmlItem) : option (list string) :=
  let photos :=
    map enc_url
        (filter (fun e => startsWithImage (enc_type e)) (x_enclosures item))
    ++ map med_url
        (filter (fun m => startsWithImage (med_type m)
                          || jsstr_eqb (med_medium m) (Some "image"))
                (x_media item))
    ++ (if truthy (x_image item) then [interp (x_image item)] else []) in
  match photos with
  | [] => None
  | _ => Some photos
  end.

(** [decodeEntities(t) || "Untitled"] *)
Definition titleOf (t : jsstr) : string :=
  orStr (Some (decodeEntities env t)) "Untitled".

Definition isoOrNow (d : option Z) : TimeVal :=
  match d with
  | Some ms => IsoStr ms
  | None => IsoStr (now env)
  end.

Definition normalizeItem (item : XmlItem) (feedUrl : string) : FeedItem :=
  let description :=
    orStr (orElse (x_description item) (x_summary item)) "" in
  let published :=
    match x_pubdate item with
    | Some d => Some d
    | None => x_date item
    end in
  {| fi_uid := generateUid feedUrl
                 (orVal (x_guid item) (nullable (x_link item)));
     fi_url := orElse (x_link item) (x_origlink item);
     fi_title := titleOf (x_title item);
     fi_html := if description =? "" then None
                else Some (sanitizeHtml env description);
     fi_text := Some (stripHtml env (Some description));
     fi_summary :=
       truncateText env
         (Some (stripHtml env
                  (Some (orStr (x_summary item) description)))) 300;
     fi_published := isoOrNow published;
     fi_updated := option_map IsoStr (x_date item);
     fi_author := orNull (x_author item);
     fi_photo := extractPhotos item;
     fi_categories := x_categories item |}.

Definition normalizeJsonItem (item : JsonItem) (feedUrl : string)
  : FeedItem :=
  {| fi_uid := generateUid feedUrl (orVal (j_id item) (j_url item));
     fi_url := orElse (strOf (j_url item)) (j_external_url item);
     fi_title := titleOf (j_title item);
     fi_html := if truthy (j_content_html item)
                then Some (sanitizeHtml env (interp (j_content_html item)))
                else None;
     fi_text := j_content_text item;
     fi_summary :=
       orStr (Some (decodeEntities env (j_summary item)))
             (truncateText env (j_content_text item) 300);
     fi_published := isoOrNow (j_date_published item);
     fi_updated := option_map IsoStr (j_date_modified item);
     fi_author := j_author item;
     fi_photo := if truthy (j_image item)
                 then Some [interp (j_image item)] else None;
     fi_categories := j_tags item |}.

(** What [fetchAndParseFeed] resolves to. *)
Record Feed : Type := mkFeed {
  pf_title : jsstr;
  pf_description : jsstr;
  pf_siteUrl : jsstr;
  pf_photo : jsstr;
  pf_author : jsstr;
  pf_items : list FeedItem
}.

Definition feedOf (m : FeedMeta) (its : list FeedItem) : Feed :=
  {| pf_title := m_title m;
     pf_description := m_description m;
     pf_siteUrl := m_link m;
     pf_photo := m_photo m;
     pf_author := m_author m;
     pf_items := its |}.

Definition parseXmlFeed (m : FeedMeta) (its : list XmlItem)
  (feedUrl : string) (maxItems : nat) : Feed :=
  feedOf m (map (fun i => normalizeItem i feedUrl) (firstn maxItems its)).

Definition parseJsonFeed (m : FeedMeta) (its : list JsonItem)
  (feedUrl : string) (maxItems : nat) : Feed :=
  feedOf m
    (map (fun i => normalizeJsonItem i feedUrl) (firstn maxItems its)).

(** The request, its time-out and the parsers are the environment's;
    the normalisation is the module's. *)
Definition fetchAndParseFeed (url : string) (maxItems : nat) : M Feed :=
  fun db =>
    match fetchFeed env url with
    | Throw e => (Throw e, db)
    | Ok (JsonFeed m its) => (Ok (parseJsonFeed m its url maxItems), db)
    | Ok (XmlFeed m its) => (Ok (parseXmlFeed m its url maxItems), db)
    end.

(** What [syncBlogItems] resolves to. *)
Inductive ItemSync : Type :=
| ItemsSynced (added total : nat)
| ItemsFailed (error : string).

Definition itemSyncSuccess (r : ItemSync) : bool :=
  match r with
  | ItemsSynced _ _ => true
  | ItemsFailed _ => false
  end.

(** The loop over [feed.items], counting the inserted ones. *)
Fixpoint upsertItems (blogId : ObjectId) (its : list FeedItem)
  (added : nat) : M nat :=
  match its with
  | [] => ret added
  | it :: rest =>
      r <- upsertItem blogId it ;;
      upsertItems blogId rest (if upserted r then S added else added)
  end.

Definition syncBlogItems (blog : Blog) (maxItems : nat) : M ItemSync :=
  tryCatch
    (feed <- fetchAndParseFeed (b_feedUrl blog) maxItems ;;
     added <- upsertItems (b_id blog) (pf_items feed) 0 ;;
     updateBlogStatus (b_id blog)
       (FetchedOk
          (Some (List.length (pf_items feed)))
          (if (b_title blog =? b_feedUrl blog) && truthy (pf_title feed)
           then pf_title feed else None)
          (if negb (truthy (b_photo blog)) && truthy (pf_photo feed)
           then pf_photo feed else None)
          (if negb (truthy (b_siteUrl blog)) && truthy (pf_siteUrl feed)
           then pf_siteUrl feed else None)) ;;;
     ret (ItemsSynced added (List.length (pf_items feed))))
    (fun error =>
       updateBlogStatus (b_id blog) (FetchedErr error) ;;;
       ret (ItemsFailed error)).


(** *** sync/opml *)

Definition lowerChar (c : ascii) : ascii :=
  let n := nat_of_ascii c in
  if (65 <=? n)%nat && (n <=? 90)%nat then ascii_of_nat (n + 32) else c.

Fixpoint toLowerCase (s : string) : string :=
  match s with
  | EmptyString => EmptyString
  | String c rest => String (lowerChar c) (toLowerCase rest)
  end.

(** [hay.includes(needle)] *)
Definition includes (needle hay : string) : bool :=
  match index 0 needle hay with
  | Some _ => true
  | None => false
  end.

Definition detectFeedType (type : jsstr) : string :=
  if truthy type then
    let t := toLowerCase (interp type) in
    if includes "atom" t then "atom"
    else if includes "json" t then "jsonfeed"
    else "rss"
  else "rss".

(** A blog entry of a parsed OPML document. *)
Record OpmlEntry : Type := mkOpmlEntry {
  e_title : string;
  e_feedUrl : string;
  e_siteUrl : string;
  e_feedType : string;
  e_category : string
}.

Definition attr (o : Outline) (f : OutlineAttrs -> jsstr) : jsstr :=
  match o_attrs o with
  | Some a => f a
  | None => None
  end.

(** The entry pushed for an outline that has an [xmlUrl]. *)
Definition entryOf (o : Outline) (category : string) : list OpmlEntry :=
  if truthy (attr o a_xmlUrl) then
    [ {| e_title := orStr (orElse (attr o a_text) (attr o a_title))
                          "Unknown";
         e_feedUrl := interp (attr o a_xmlUrl);
         e_siteUrl := orStr (attr o a_htmlUrl) "";
         e_feedType := detectFeedType (attr o a_type);
         e_category := category |} ]
  else [].

(** The walk of [parseOpml] over [body.outline]. *)
Definition entriesOfOutline (o : Outline) : list OpmlEntry :=
  match o_kids o with
  | [] => entryOf o ""
  | children =>
      let category := orStr (orElse (attr o a_text) (attr o a_title)) "" in
      flat_map (fun child => entryOf child category) children
  end.

Definition parseOpml (opmlContent : string) : M (list OpmlEntry) :=
  fun db =>
    match xml2js env opmlContent with
    | Throw e => (Throw e, db)
    | Ok outlines => (Ok (flat_map entriesOfOutline outlines), db)
    end.

Definition fetchAndParseOpml (url : string) : M (list OpmlEntry) :=
  fun db =>
    match httpGet env url with
    | Throw e => (Throw e, db)
    | Ok content => parseOpml content db
    end.

(** What a source sync resolves to; [orphaned] is only reported by the
    Microsub sync. *)
Inductive SourceSync : Type :=
| SourceSynced (added updated orphaned total : nat)
| SourceFailed (error : string).

Definition sourceSyncSuccess (r : SourceSync) : bool :=
  match r with
  | SourceSynced _ _ _ _ => true
  | SourceFailed _ => false
  end.

(** The upsert loop shared by the adapters, with its two counters. *)
Fixpoint upsertBlogs (cands : list Candidate) (added updated : nat)
  : M (nat * nat) :=
  match cands with
  | [] => ret (added, updated)
  | data :: rest =>
      r <- upsertBlog data ;;
      if upserted r then upsertBlogs rest (S added) updated
      else if modified r then upsertBlogs rest added (S updated)
      else upsertBlogs rest added updated
  end.

(** [{ ...blog, sourceId: source._id }] *)
Definition opmlCandidate (source : Source) (e : OpmlEntry) : Candidate :=
  {| c_title := e_title e;
     c_feedUrl := e_feedUrl e;
     c_siteUrl := e_siteUrl e;
     c_feedType := e_feedType e;
     c_category := e_category e;
     c_sourceId := Some (s_id source);
     c_source := None;
     c_microsubFeedId := None;
     c_microsubChannelId := None;
     c_microsubChannelName := None;
     c_skipItemFetch := None;
     c_photo := None;
     c_lastFetchAt := None;
     c_status := None |}.

Definition syncOpmlSource (source : Source) : M SourceSync :=
  tryCatch
    (entries <- match s_type source with
                | OpmlUrl => fetchAndParseOpml (interp (s_url source))
                | OpmlFile => parseOpml (interp (s_opmlContent source))
                | t => throw ("Unsupported source type: "
                              +++ sourceTypeName t)
                end ;;
     counts <- upsertBlogs (map (opmlCandidate source) entries) 0 0 ;;
     updateSourceSyncStatus (s_id source) SyncedOk ;;;
     ret (SourceSynced (fst counts) (snd counts) 0 (List.length entries)))
    (fun error =>
       updateSourceSyncStatus (s_id source) (SyncedErr error) ;;;
       ret (SourceFailed error)).

(** [str.replace(/c/g, by)] for a one-character pattern. *)
Fixpoint replaceChar (c : ascii) (by_ : string) (s : string) : string :=
  match s with
  | EmptyString => EmptyString
  | String x rest =>
      if Ascii.eqb x c then by_ +++ replaceChar c by_ rest
      else String x (replaceChar c by_ rest)
  end.

Definition dquote : ascii := ascii_of_nat 34.
Definition dq : string := String dquote EmptyString.
Definition nl : string := String (ascii_of_nat 10) EmptyString.

Definition escapeXml (str : string) : string :=
  replaceChar "'" "&apos;"
    (replaceChar dquote "&quot;"
       (replaceChar ">" "&gt;"
          (replaceChar "<" "&lt;"
             (replaceChar "&" "&amp;" str)))).

(** The properties every object inherits from [Object.prototype]:
    [grouped[cat]] is truthy for these names although [grouped] has no
    such own property. *)
Definition objectPrototypeKeys : list string :=
  [ "constructor"; "__defineGetter__"; "__defineSetter__";
    "hasOwnProperty"; "__lookupGetter__"; "__lookupSetter__";
    "isPrototypeOf"; "propertyIsEnumerable"; "toString"; "valueOf";
    "__proto__"; "toLocaleString" ].

Definition inherited (key : string) : bool :=
  existsb (String.eqb key) objectPrototypeKeys.

(** The own properties of [grouped], in creation order. *)
Definition Grouped := list (string * list Blog).

Fixpoint pushTo (cat : string) (b : Blog) (g : Grouped) : Grouped :=
  match g with
  | [] => [(cat, [b])]
  | (k, bs) :: rest =>
      if k =? cat then (k, bs ++ [b]) :: rest
      else (k, bs) :: pushTo cat b rest
  end.

Definition categoryLabel (b : Blog) : string :=
  orStr (Some (b_category b)) "Uncategorized".

(** The grouping loop.  For an inherited name [grouped[cat]] is not an
    array and the [push] throws a [TypeError]. *)
Fixpoint groupBlogs (bs : list Blog) (g : Grouped) : outcome Grouped :=
  match bs with
  | [] => Ok g
  | b :: rest =>
      if inherited (categoryLabel b)
      then Throw "grouped[cat].push is not a function"
      else groupBlogs rest (pushTo (categoryLabel b) b g)
  end.


(** [Object.entries(grouped)]: the own keys that are array indices come
    first, in ascending numeric order, then the other keys in creation
    order. *)
Definition digitOf (c : ascii) : option N :=
  let n := nat_of_ascii c in
  if (48 <=? n)%nat && (n <=? 57)%nat then Some (N.of_nat (n - 48))
  else None.

Fixpoint digitsValue (s : string) (acc : N) : option N :=
  match s with
  | EmptyString => Some acc
  | String c rest =>
      match digitOf c with
      | Some d => digitsValue rest (acc * 10 + d)%N
      | None => None
      end
  end.

Definition arrayIndex (s : string) : option N :=
  match s with
  | EmptyString => None
  | String c rest =>
      if Ascii.eqb c "0" && negb (rest =? "") then None
      else match digitsValue s 0%N with
           | Some n => if (n <? 4294967295)%N then Some n else None
           | None => None
           end
  end.

Definition isIndexKey (e : string * list Blog) : bool :=
  match arrayIndex (fst e) with
  | Some _ => true
  | None => false
  end.

Definition indexLe (a b : string * list Blog) : bool :=
  match arrayIndex (fst a), arrayIndex (fst b) with
  | Some x, Some y => (x <=? y)%N
  | _, _ => true
  end.

Definition objectEntries (g : Grouped) : Grouped :=
  sortBy indexLe (filter isIndexKey g)
  ++ filter (fun e => negb (isIndexKey e)) g.

Definition renderChild (b : Blog) : string :=
  "      <outline text=" +++ dq +++ escapeXml (b_title b) +++ dq
  +++ " type=" +++ dq +++ "rss" +++ dq
  +++ " xmlUrl=" +++ dq +++ escapeXml (b_feedUrl b) +++ dq
  +++ " htmlUrl=" +++ dq +++ escapeXml (orStr (b_siteUrl b) "") +++ dq
  +++ "/>".

Definition renderGroup (e : string * list Blog) : string :=
  "    <outline text=" +++ dq +++ escapeXml (fst e) +++ dq +++ ">" +++ nl
  +++ String.concat nl (map renderChild (snd e)) +++ nl
  +++ "    </outline>" +++ nl.

Definition renderOpml (g : Grouped) (title : string) : string :=
  "<?xml version=" +++ dq +++ "1.0" +++ dq
  +++ " encoding=" +++ dq +++ "UTF-8" +++ dq +++ "?>" +++ nl
  +++ "<opml version=" +++ dq +++ "2.0" +++ dq +++ ">" +++ nl
  +++ "  <head>" +++ nl
  +++ "    <title>" +++ escapeXml title +++ "</title>" +++ nl
  +++ "    <dateCreated>" +++ toUTCString env (now env)
  +++ "</dateCreated>" +++ nl
  +++ "  </head>" +++ nl
  +++ "  <body>" +++ nl
  +++ String.concat "" (map renderGroup (objectEntries g))
  +++ "  </body>" +++ nl
  +++ "</opml>".

Definition generateOpml (bs : list Blog) (title : string)
  : outcome string :=
  match groupBlogs bs [] with
  | Throw e => Throw e
  | Ok g => Ok (renderOpml g title)
  end.

(** *** sync/microsub *)

Definition microsubCandidate (source : Source) (channel : Channel)
  (feed : MsFeed) : Candidate :=
  {| c_title := orStr (mf_title feed) (extractDomainFromUrl env (mf_url feed));
     c_feedUrl := mf_url feed;
     c_siteUrl := extractSiteUrl env (mf_url feed);
     c_feedType := "rss";
     c_category := if s_categoryPrefix source =? "" then ch_name channel
                   else s_categoryPrefix source +++ ch_name channel;
     c_sourceId := Some (s_id source);
     c_source := Some "microsub";
     c_microsubFeedId := Some (mf_id feed);
     c_microsubChannelId := Some (ch_id channel);
     c_microsubChannelName := Some (ch_name channel);
     c_skipItemFetch := Some true;
     c_photo := Some (orNull (mf_photo feed));
     c_lastFetchAt := Some (mf_lastFetchedAt feed);
     c_status := Some (if jsstr_eqb (mf_status feed) (Some "error")
                       then Error else Active) |}.

(** The counters of the Microsub loop. *)
Record MsAcc : Type := mkMsAcc {
  ms_added : nat;
  ms_updated : nat;
  ms_total : nat;
  ms_current : list string
}.

Fixpoint syncMsFeeds (source : Source) (channel : Channel)
  (feeds : list MsFeed) (acc : MsAcc) : M MsAcc :=
  match feeds with
  | [] => ret acc
  | feed :: rest =>
      r <- upsertBlog (microsubCandidate source channel feed) ;;
      syncMsFeeds source channel rest
        {| ms_added := if upserted r then S (ms_added acc)
                       else ms_added acc;
           ms_updated := if upserted r then ms_updated acc
                         else if modified r then S (ms_updated acc)
                         else ms_updated acc;
           ms_total := S (ms_total acc);
           ms_current := ms_current acc ++ [mf_id feed] |}
  end.

Fixpoint syncMsChannels (source : Source) (allFeeds : list MsFeed)
  (channels : list Channel) (acc : MsAcc) : M MsAcc :=
  match channels with
  | [] => ret acc
  | channel :: rest =>
      feeds <- call FeedsColl Find (fun db =>
                 (filter (fun f => mf_channelId f =? ch_id channel)
                         allFeeds, db)) ;;
      acc' <- syncMsFeeds source channel feeds acc ;;
      syncMsChannels source allFeeds rest acc'
  end.

(** The filter of the orphan sweep. *)
Definition isOrphan (source : Source) (current : list string) (b : Blog)
  : bool :=
  jsstr_eqb (b_source b) (Some "microsub")
  && optId_eqb (b_sourceId b) (Some (s_id source))
  && negb (existsb (fun id => jsstr_eqb (b_microsubFeedId b) (Some id))
                   current)
  && negb (status_eqb (b_status b) Deleted).

(** The orphan sweep; every matched document is modified, its status
    changing to deleted. *)
Definition sweepOrphans (source : Source) (current : list string)
  : M nat :=
  match current with
  | [] => ret 0
  | _ =>
      call BlogsColl UpdateMany (fun db =>
        (countMatching (isOrphan source current) (blogs db),
         withBlogs db
           (updateMany (isOrphan source current) softDelete (blogs db))))
  end.

Definition channelQuery (source : Source) (c : Channel) : bool :=
  if truthy (s_channelFilter source)
  then jsstr_eqb (Some (ch_uid c)) (s_channelFilter source)
  else true.

Definition syncMicrosubSource (source : Source) : M SourceSync :=
  tryCatch
    (match microsub env with
     | None =>
         throw ("Microsub collections not available. "
                +++ "Is the Microsub plugin installed?")
     | Some (allChannels, allFeeds) =>
         channels <- call ChannelsColl Find (fun db =>
                       (filter (channelQuery source) allChannels, db)) ;;
         match channels with
         | [] =>
             updateSourceSyncStatus (s_id source) SyncedOk ;;;
             ret (SourceSynced 0 0 0 0)
         | _ =>
             acc <- syncMsChannels source allFeeds channels
                      (mkMsAcc 0 0 0 []) ;;
             orphaned <- sweepOrphans source (ms_current acc) ;;
             updateSourceSyncStatus (s_id source) SyncedOk ;;;
             ret (SourceSynced (ms_added acc) (ms_updated acc) orphaned
                               (ms_total acc))
         end
     end)
    (fun error =>
       updateSourceSyncStatus (s_id source) (SyncedErr error) ;;;
       ret (SourceFailed error)).


(** The webhook of the Microsub plugin. *)
Inductive WebhookAction : Type :=
| Subscribe
| Unsubscribe
| OtherAction (name : string).

Inductive WebhookResult : Type :=
| WebhookSkipped (reason : string)
| WebhookAdded
| WebhookDeactivated
| WebhookUnknown (error : string).

Definition webhookCandidate (url : string) (channelName title : jsstr)
  : Candidate :=
  {| c_title := orStr title (extractDomainFromUrl env url);
     c_feedUrl := url;
     c_siteUrl := extractSiteUrl env url;
     c_feedType := "rss";
     c_category := orStr channelName "Microsub";
     c_sourceId := None;
     c_source := Some "microsub-webhook";
     c_microsubFeedId := None;
     c_microsubChannelId := None;
     c_microsubChannelName := None;
     c_skipItemFetch := None;
     c_photo := None;
     c_lastFetchAt := None;
     c_status := Some Pending |}.

(** The [$set] of an unsubscribe. *)
Definition deactivate (b : Blog) : Blog :=
  {| b_id := b_id b;
     b_sourceId := b_sourceId b;
     b_title := b_title b;
     b_description := b_description b;
     b_feedUrl := b_feedUrl b;
     b_siteUrl := b_siteUrl b;
     b_feedType := b_feedType b;
     b_category := b_category b;
     b_tags := b_tags b;
     b_photo := b_photo b;
     b_author := b_author b;
     b_status := Inactive;
     b_lastFetchAt := b_lastFetchAt b;
     b_lastError := b_lastError b;
     b_itemCount := b_itemCount b;
     b_pinned := b_pinned b;
     b_hidden := b_hidden b;
     b_notes := b_notes b;
     b_createdAt := b_createdAt b;
     b_updatedAt := now env;
     b_source := b_source b;
     b_microsubFeedId := b_microsubFeedId b;
     b_microsubChannelId := b_microsubChannelId b;
     b_microsubChannelName := b_microsubChannelName b;
     b_skipItemFetch := b_skipItemFetch b;
     b_deletedAt := b_deletedAt b;
     b_unsubscribedAt := Some (now env) |}.

Definition handleMicrosubWebhook (action : WebhookAction) (url : string)
  (channelName title : jsstr) : M WebhookResult :=
  match action with
  | Subscribe =>
      existing <- getBlogByFeedUrl url ;;
      match existing with
      | Some b =>
          if jsstr_eqb (b_source b) (Some "microsub")
          then ret (WebhookSkipped "already_exists")
          else ret (WebhookSkipped "manual_entry")
      | None =>
          upsertBlog (webhookCandidate url channelName title) ;;;
          ret WebhookAdded
      end
  | Unsubscribe =>
      existing <- getBlogByFeedUrl url ;;
      match existing with
      | Some b =>
          if match b_source b with
             | Some s => prefix "microsub" s
             | None => false
             end
          then updateBlogById (b_id b) deactivate ;;;
               ret WebhookDeactivated
          else ret (WebhookSkipped "not_found_or_not_microsub")
      | None => ret (WebhookSkipped "not_found_or_not_microsub")
      end
  | OtherAction name => ret (WebhookUnknown ("Unknown action: " +++ name))
  end.

(** *** sync/feedland *)

(** [s.replace(/\/+$/, "")] *)
Fixpoint dropSlashes (rev : list ascii) : list ascii :=
  match rev with
  | c :: rest => if Ascii.eqb c "/" then dropSlashes rest else rev
  | [] => []
  end.

Definition stripTrailingSlashes (s : string) : string :=
  string_of_list_ascii
    (List.rev (dropSlashes (List.rev (list_ascii_of_string s)))).

(** Reading [.replace] of a missing instance throws a [TypeError]. *)
Definition buildFeedlandOpmlUrl (source : Source) : outcome string :=
  match s_feedlandInstance source with
  | None => Throw "Cannot read properties of null (reading 'replace')"
  | Some instance =>
      Ok (stripTrailingSlashes instance
          +++ "/opml?screenname="
          +++ encodeURIComponent env (s_feedlandUsername source)
          +++ (if truthy (s_feedlandCategory source)
               then "&catname="
                    +++ encodeURIComponent env (s_feedlandCategory source)
               else ""))
  end.

(** [blog.category || source.feedlandCategory
     || source.feedlandUsername || ""] *)
Definition feedlandCategoryOf (source : Source) (e : OpmlEntry) : string :=
  orStr (orElse (orElse (Some (e_category e)) (s_feedlandCategory source))
                (s_feedlandUsername source))
        "".

(** [{ ...blog, category, source: "feedland", sourceId: source._id }] *)
Definition feedlandCandidate (source : Source) (e : OpmlEntry)
  : Candidate :=
  {| c_title := e_title e;
     c_feedUrl := e_feedUrl e;
     c_siteUrl := e_siteUrl e;
     c_feedType := e_feedType e;
     c_category := feedlandCategoryOf source e;
     c_sourceId := Some (s_id source);
     c_source := Some "feedland";
     c_microsubFeedId := None;
     c_microsubChannelId := None;
     c_microsubChannelName := None;
     c_skipItemFetch := None;
     c_photo := None;
     c_lastFetchAt := None;
     c_status := None |}.

Definition syncFeedlandSource (source : Source) : M SourceSync :=
  tryCatch
    (entries <- match buildFeedlandOpmlUrl source with
                | Throw e => throw e
                | Ok opmlUrl => fetchAndParseOpml opmlUrl
                end ;;
     counts <- upsertBlogs (map (feedlandCandidate source) entries) 0 0 ;;
     updateSourceSyncStatus (s_id source) SyncedOk ;;;
     ret (SourceSynced (fst counts) (snd counts) 0 (List.length entries)))
    (fun error =>
       updateSourceSyncStatus (s_id source) (SyncedErr error) ;;;
       ret (SourceFailed error)).

(** *** controllers/blogs: the create handler *)

Inductive CreateResult : Type :=
| CreateRejected (message : string)
| CreateFailed (error : string)
| Created (blog : Blog) (initialFetch : outcome ItemSync).

(** The handler up to its redirect: the required field, the duplicate
    check, the insert and the initial fetch. *)
Definition createBlogHandler (data : NewBlog) : Db -> CreateResult * Db :=
  fun db =>
    if n_feedUrl data =? "" then (CreateRejected "Feed URL is required", db)
    else
      match getBlogByFeedUrl (n_feedUrl data) db with
      | (Throw e, db1) => (CreateFailed e, db1)
      | (Ok (Some _), db1) =>
          (CreateRejected "A blog with this feed URL already exists", db1)
      | (Ok None, db1) =>
          match createBlog data db1 with
          | (Throw e, db2) => (CreateFailed e, db2)
          | (Ok blog, db2) =>
              let (r, db3) := syncBlogItems blog 50 db2 in
              (Created blog r, db3)
          end
      end.


(** *** sync/scheduler *)

(** The options of a run, after the defaults of the destructuring. *)
Record Options : Type := mkOptions {
  maxItemsPerBlog : nat;
  fetchTimeout : Z;
  maxItemAge : Z
}.

Definition defaultOptions : Options :=
  {| maxItemsPerBlog := 50; fetchTimeout := 15000; maxItemAge := 7 |}.

(** The module state of the scheduler, next to the store. *)
Record Sched : Type := mkSched {
  isRunning : bool;
  store : Db
}.

Inductive RunResult : Type :=
| RunSkipped
| RunDone (duration : Z) (srcs blgs : Tally) (added deleted : nat)
| RunFailed (error : string).

Definition syncableSource (s : Source) : bool :=
  s_enabled s
  && match s_type s with
     | OpmlUrl | OpmlFile | JsonFeedSource | Microsub | Feedland => true
     | Manual => false
     end.

Definition syncSource (source : Source) : M SourceSync :=
  match s_type source with
  | Microsub => syncMicrosubSource source
  | Feedland => syncFeedlandSource source
  | _ => syncOpmlSource source
  end.

(** The loop over the enabled sources with its two counters. *)
Fixpoint syncSources (srcs : list Source) (success failed : nat)
  : M (nat * nat) :=
  match srcs with
  | [] => ret (success, failed)
  | source :: rest =>
      ok <- tryCatch
              (result <- syncSource source ;;
               ret (sourceSyncSuccess result))
              (fun _ => ret false) ;;
      if ok then syncSources rest (S success) failed
      else syncSources rest success (S failed)
  end.

(** The counters of the loop over the blogs. *)
Record BlogTally : Type := mkBlogTally {
  blogsSuccess : nat;
  blogsFailed : nat;
  blogsSkipped : nat;
  newItems : nat
}.

Definition skipsItemFetch (blog : Blog) : bool :=
  jsstr_eqb (b_source blog) (Some "microsub") || b_skipItemFetch blog.

Definition tallySkipped (t : BlogTally) : BlogTally :=
  mkBlogTally (blogsSuccess t) (blogsFailed t) (S (blogsSkipped t))
              (newItems t).

Definition tallyFailed (t : BlogTally) : BlogTally :=
  mkBlogTally (blogsSuccess t) (S (blogsFailed t)) (blogsSkipped t)
              (newItems t).

Definition tallyResult (t : BlogTally) (r : ItemSync) : BlogTally :=
  match r with
  | ItemsSynced added _ =>
      mkBlogTally (S (blogsSuccess t)) (blogsFailed t) (blogsSkipped t)
                  (newItems t + added)
  | ItemsFailed _ => tallyFailed t
  end.

Fixpoint syncBlogs (opts : Options) (bs : list Blog) (t : BlogTally)
  : M BlogTally :=
  match bs with
  | [] => ret t
  | blog :: rest =>
      if skipsItemFetch blog then syncBlogs opts rest (tallySkipped t)
      else
        t' <- tryCatch
                (result <- syncBlogItems blog (maxItemsPerBlog opts) ;;
                 ret (tallyResult t result))
                (fun _ => ret (tallyFailed t)) ;;
        syncBlogs opts rest t'
  end.

Definition runQuery : BlogQuery :=
  {| q_category := None; q_sourceId := None; q_includeHidden := false;
     q_limit := JsInt 1000; q_offset := JsInt 0 |}.

(** The body of the [try] of [runFullSync]. *)
Definition runBody (opts : Options) : M RunResult :=
  deletedItems <- deleteOldItems (maxItemAge opts) ;;
  allSources <- getSources ;;
  let enabledSources := filter syncableSource allSources in
  counts <- syncSources enabledSources 0 0 ;;
  bs <- getBlogs runQuery ;;
  t <- syncBlogs opts bs (mkBlogTally 0 0 0 0) ;;
  let srcTally := mkTally (List.length enabledSources)
                          (fst counts) (snd counts) in
  let blogTally := mkTally (List.length bs) (blogsSuccess t)
                           (blogsFailed t) in
  call MetaColl UpdateOne (fun db =>
    (tt, withMeta db
           (Some (mkSyncStats (now env) (elapsed env) srcTally blogTally
                              (newItems t) deletedItems)))) ;;;
  ret (RunDone (elapsed env) srcTally blogTally (newItems t) deletedItems).

(** [runFullSync]: the guard on the flag, the flag set for the time of
    the body, the [catch] turning a throw into a failed result, and the
    [finally] clearing the flag. *)
Definition runFullSync (opts : Options) (st : Sched)
  : outcome RunResult * Sched :=
  if isRunning st then (Ok RunSkipped, st)
  else
    let running := mkSched true (store st) in
    let (r, db') :=
      tryCatch (runBody opts) (fun error => ret (RunFailed error))
               (store running) in
    (r, mkSched false db').


(** [clearAndResync]: every item is deleted, the blogs that are not
marked deleted get their counters and status reset, and a full run is
asked for.  The two writes are not inside a [try]: a rejection leaves
the function as a throw. *)
Definition resetBlog (b : Blog) : Blog :=
  {| b_id := b_id b;
     b_sourceId := b_sourceId b;
     b_title := b_title b;
     b_description := b_description b;
     b_feedUrl := b_feedUrl b;
     b_siteUrl := b_siteUrl b;
     b_feedType := b_feedType b;
     b_category := b_category b;
     b_tags := b_tags b;
     b_photo := b_photo b;
     b_author := b_author b;
     b_status := Active;
     b_lastFetchAt := None;
     b_lastError := None;
     b_itemCount := 0;
     b_pinned := b_pinned b;
     b_hidden := b_hidden b;
     b_notes := b_notes b;
     b_createdAt := b_createdAt b;
     b_updatedAt := b_updatedAt b;
     b_source := b_source b;
     b_microsubFeedId := b_microsubFeedId b;
     b_microsubChannelId := b_microsubChannelId b;
     b_microsubChannelName := b_microsubChannelName b;
     b_skipItemFetch := b_skipItemFetch b;
     b_deletedAt := b_deletedAt b;
     b_unsubscribedAt := b_unsubscribedAt b |}.

Definition notDeleted (b : Blog) : bool :=
  negb (status_eqb (b_status b) Deleted).

Definition clearItemsAndCounters : M unit :=
  call ItemsColl DeleteMany (fun db => (tt, withItems db [])) ;;;
  call BlogsColl UpdateMany (fun db =>
    (tt, withBlogs db (updateMany notDeleted resetBlog (blogs db)))).

Definition clearAndResync (opts : Options) (st : Sched)
  : outcome RunResult * Sched :=
  match clearItemsAndCounters (store st) with
  | (Throw e, db') => (Throw e, mkSched (isRunning st) db')
  | (Ok _, db') => runFullSync opts (mkSched (isRunning st) db')
  end.

(** storage/items: [deleteItemsForBlog]. *)
Definition deleteItemsForBlog (blogId : ObjectId) : M nat :=
  call ItemsColl DeleteMany (fun db =>
    (countMatching (fun i => (i_blogId i =? blogId)%nat) (items db),
     withItems db
       (deleteMany (fun i => (i_blogId i =? blogId)%nat) (items db)))).

(** storage/sources: [deleteSource], a hard delete of the source, of
its blogs and of their items. *)
Fixpoint deleteFirst {D : Type} (p : D -> bool) (docs : list D)
  : option (list D) :=
  match docs with
  | [] => None
  | d :: rest =>
      if p d then Some rest
      else match deleteFirst p rest with
           | Some rest' => Some (d :: rest')
           | None => None
           end
  end.

Definition ofSource (id : ObjectId) (b : Blog) : bool :=
  optId_eqb (b_sourceId b) (Some id).

Definition deleteSource (id : ObjectId) : M bool :=
  owned <- call BlogsColl Find (fun db =>
             (filter (ofSource id) (blogs db), db)) ;;
  (match owned with
   | [] => ret tt
   | _ =>
       call ItemsColl DeleteMany (fun db =>
         (tt, withItems db
                (deleteMany
                   (fun i => existsb (fun b => (b_id b =? i_blogId i)%nat)
                                     owned)
                   (items db))))
   end) ;;;
  call BlogsColl DeleteMany (fun db =>
    (tt, withBlogs db (deleteMany (ofSource id) (blogs db)))) ;;;
  call SourcesColl DeleteOne (fun db =>
    match deleteFirst (fun s => (s_id s =? id)%nat) (sources db) with
    | Some ss => (true, withSources db ss)
    | None => (false, db)
    end).

(** *** controllers/blogs: the edit form and the refresh *)

(** storage/blogs: [getBlog], by id alone. *)
Definition getBlog (id : ObjectId) : M (option Blog) :=
  call BlogsColl FindOne (fun db =>
    (findOne (fun b => (b_id b =? id)%nat) (blogs db), db)).

(** The body of the edit form; the form posts its feed URL field. *)
Record BlogEdit : Type := mkBlogEdit {
  ed_feedUrl : string;
  ed_title : jsstr;
  ed_siteUrl : jsstr;
  ed_category : jsstr;
  ed_tags : list string;
  ed_notes : jsstr;
  ed_pinned : bool;
  ed_hidden : bool
}.

(** The [$set] of [updateBlog] for the data of the update handler. *)
Definition applyEdit (data : BlogEdit) (b : Blog) : Blog :=
  {| b_id := b_id b;
     b_sourceId := b_sourceId b;
     b_title := orStr (ed_title data) (ed_feedUrl data);
     b_description := b_description b;
     b_feedUrl := ed_feedUrl data;
     b_siteUrl := orNull (ed_siteUrl data);
     b_feedType := b_feedType b;
     b_category := orStr (ed_category data) "";
     b_tags := ed_tags data;
     b_photo := b_photo b;
     b_author := b_author b;
     b_status := b_status b;
     b_lastFetchAt := b_lastFetchAt b;
     b_lastError := b_lastError b;
     b_itemCount := b_itemCount b;
     b_pinned := ed_pinned data;
     b_hidden := ed_hidden data;
     b_notes := orNull (ed_notes data);
     b_createdAt := b_createdAt b;
     b_updatedAt := now env;
     b_source := b_source b;
     b_microsubFeedId := b_microsubFeedId b;
     b_microsubChannelId := b_microsubChannelId b;
     b_microsubChannelName := b_microsubChannelName b;
     b_skipItemFetch := b_skipItemFetch b;
     b_deletedAt := b_deletedAt b;
     b_unsubscribedAt := b_unsubscribedAt b |}.

(** storage/blogs: [updateBlog], a [findOneAndUpdate] by id returning
    the document after the update. *)
Definition updateBlog (id : ObjectId) (data : BlogEdit) : M (option Blog) :=
  call BlogsColl FindOneAndUpdate (fun db =>
    match updateFirst (fun b => (b_id b =? id)%nat) (applyEdit data)
                      (blogs db) with
    | Some (old, bs) => (Some (applyEdit data old), withBlogs db bs)
    | None => (None, db)
    end).

Inductive EditResult : Type :=
| EditNotFound
| Edited
| EditFailed (error : string).

(** The update handler up to its redirect: no check of the feed URL. *)
Definition updateBlogHandler (id : ObjectId) (data : BlogEdit)
  : Db -> EditResult * Db :=
  fun db =>
    match getBlog id db with
    | (Throw e, db1) => (EditFailed e, db1)
    | (Ok None, db1) => (EditNotFound, db1)
    | (Ok (Some _), db1) =>
        match updateBlog id data db1 with
        | (Throw e, db2) => (EditFailed e, db2)
        | (Ok _, db2) => (Edited, db2)
        end
    end.

Inductive RefreshResult : Type :=
| RefreshNotFound
| Refreshed (result : ItemSync)
| RefreshFailed (error : string).

(** The refresh handler up to its redirect: the blog is read by its id,
    whatever its status, and synced. *)
Definition refreshBlogHandler (id : ObjectId) : Db -> RefreshResult * Db :=
  fun db =>
    match getBlog id db with
    | (Throw e, db1) => (RefreshFailed e, db1)
    | (Ok None, db1) => (RefreshNotFound, db1)
    | (Ok (Some blog), db1) =>
        match syncBlogItems blog 50 db1 with
        | (Throw e, db2) => (RefreshFailed e, db2)
        | (Ok r, db2) => (Refreshed r, db2)
        end
    end.

End Engine.

Arguments call env {A} c m f.

(** ** Specification vocabulary *)

(** The store answers every call. *)
Definition noFaults (env : Env) : Prop :=
  forall c m, storeFault env c m = None.

(** Every tombstone of [db] is a document of [db'], unchanged. *)
Definition tombstonesKept (db db' : Db) : Prop :=
  forall b, In b (blogs db) -> b_status b = Deleted -> In b (blogs db').

Definition live (b : Blog) : bool := negb (status_eqb (b_status b) Deleted).

Definition emptyDb : Db := mkDb [] [] [] None 0.


(** ** Sample data for the examples *)

Definition orEmpty (v : jsstr) : string :=
  match v with
  | Some s => s
  | None => ""
  end.

(** An environment in which the store answers, the network does not, and
    the text helpers are the identity. *)
Definition sampleEnv : Env :=
  {| now := 1000000000000;
     elapsed := 5;
     storeFault := fun _ _ => None;
     fetchFeed := fun _ => Throw "HTTP 404";
     httpGet := fun _ => Throw "HTTP 404";
     xml2js := fun _ => Ok [];
     microsub := None;
     sha256hex := fun s => s;
     sanitizeHtml := fun s => s;
     stripHtml := orEmpty;
     decodeEntities := orEmpty;
     truncateText := fun s _ => orEmpty s;
     extractDomainFromUrl := fun u => u;
     extractSiteUrl := fun _ => "";
     encodeURIComponent := fun v => match v with
                                    | Some s => s
                                    | None => "null"
                                    end;
     toUTCString := fun _ => "Thu, 01 Jan 1970 00:00:00 GMT";
     cursorWindow := fun _ _ => Throw "Invalid cursor option" |}.

(** The same environment with one collection method rejecting. *)
Definition faultyEnv (c : Coll) (m : Method) : Env :=
  {| now := now sampleEnv;
     elapsed := elapsed sampleEnv;
     storeFault := fun c' m' =>
       if Coll_eq_dec c c' then
         if Method_eq_dec m m' then Some "write failed" else None
       else None;
     fetchFeed := fetchFeed sampleEnv;
     httpGet := httpGet sampleEnv;
     xml2js := xml2js sampleEnv;
     microsub := microsub sampleEnv;
     sha256hex := sha256hex sampleEnv;
     sanitizeHtml := sanitizeHtml sampleEnv;
     stripHtml := stripHtml sampleEnv;
     decodeEntities := decodeEntities sampleEnv;
     truncateText := truncateText sampleEnv;
     extractDomainFromUrl := extractDomainFromUrl sampleEnv;
     extractSiteUrl := extractSiteUrl sampleEnv;
     encodeURIComponent := encodeURIComponent sampleEnv;
     toUTCString := toUTCString sampleEnv;
     cursorWindow := cursorWindow sampleEnv |}.


(** [env] with another answer of the network for one feed URL. *)
Definition setFetch (env : Env) (url : string) (o : outcome RawFeed) : Env :=
  {| now := now env;
     elapsed := elapsed env;
     storeFault := storeFault env;
     fetchFeed := fun u => if u =? url then o else fetchFeed env u;
     httpGet := httpGet env;
     xml2js := xml2js env;
     microsub := microsub env;
     sha256hex := sha256hex env;
     sanitizeHtml := sanitizeHtml env;
     stripHtml := stripHtml env;
     decodeEntities := decodeEntities env;
     truncateText := truncateText env;
     extractDomainFromUrl := extractDomainFromUrl env;
     extractSiteUrl := extractSiteUrl env;
     encodeURIComponent := encodeURIComponent env;
     toUTCString := toUTCString env;
     cursorWindow := cursorWindow env |}.

(** [env] with the text of one OPML URL and its reading by xml2js. *)
Definition setOpml (env : Env) (url : string) (doc : OpmlDoc) : Env :=
  {| now := now env;
     elapsed := elapsed env;
     storeFault := storeFault env;
     fetchFeed := fetchFeed env;
     httpGet := fun u => if u =? url then Ok "<opml/>" else httpGet env u;
     xml2js := fun _ => Ok doc;
     microsub := microsub env;
     sha256hex := sha256hex env;
     sanitizeHtml := sanitizeHtml env;
     stripHtml := stripHtml env;
     decodeEntities := decodeEntities env;
     truncateText := truncateText env;
     extractDomainFromUrl := extractDomainFromUrl env;
     extractSiteUrl := extractSiteUrl env;
     encodeURIComponent := encodeURIComponent env;
     toUTCString := toUTCString env;
     cursorWindow := cursorWindow env |}.

(** [env] with the Microsub plugin's collections. *)
Definition setMicrosub (env : Env) (chs : list Channel) (fds : list MsFeed)
  : Env :=
  {| now := now env;
     elapsed := elapsed env;
     storeFault := storeFault env;
     fetchFeed := fetchFeed env;
     httpGet := httpGet env;
     xml2js := xml2js env;
     microsub := Some (chs, fds);
     sha256hex := sha256hex env;
     sanitizeHtml := sanitizeHtml env;
     stripHtml := stripHtml env;
     decodeEntities := decodeEntities env;
     truncateText := truncateText env;
     extractDomainFromUrl := extractDomainFromUrl env;
     extractSiteUrl := extractSiteUrl env;
     encodeURIComponent := encodeURIComponent env;
     toUTCString := toUTCString env;
     cursorWindow := cursorWindow env |}.

Definition sampleCandidate (url : string) (sourceId : option ObjectId)
  : Candidate :=
  {| c_title := "A blog";
     c_feedUrl := url;
     c_siteUrl := "https://a.example";
     c_feedType := "rss";
     c_category := "Friends";
     c_sourceId := sourceId;
     c_source := None;
     c_microsubFeedId := None;
     c_microsubChannelId := None;
     c_microsubChannelName := None;
     c_skipItemFetch := None;
     c_photo := None;
     c_lastFetchAt := None;
     c_status := None |}.

(** A stored blog with the given identity and status. *)
Definition sampleBlog (id : ObjectId) (url : string)
  (sourceId : option ObjectId) (st : Status) : Blog :=
  {| b_id := id;
     b_sourceId := sourceId;
     b_title := "A blog";
     b_description := None;
     b_feedUrl := url;
     b_siteUrl := Some "https://a.example";
     b_feedType := "rss";
     b_category := "Friends";
     b_tags := [];
     b_photo := None;
     b_author := None;
     b_status := st;
     b_lastFetchAt := None;
     b_lastError := None;
     b_itemCount := 0;
     b_pinned := false;
     b_hidden := match st with Deleted => true | _ => false end;
     b_notes := None;
     b_createdAt := 0;
     b_updatedAt := 0;
     b_source := None;
     b_microsubFeedId := None;
     b_microsubChannelId := None;
     b_microsubChannelName := None;
     b_skipItemFetch := false;
     b_deletedAt := None;
     b_unsubscribedAt := None |}.

Definition sampleSource (id : ObjectId) (t : SourceType) : Source :=
  {| s_id := id;
     s_type := t;
     s_name := "A source";
     s_url := None;
     s_opmlContent := None;
     s_channelFilter := None;
     s_categoryPrefix := "";
     s_feedlandInstance := None;
     s_feedlandUsername := None;
     s_feedlandCategory := None;
     s_enabled := true;
     s_lastSyncAt := None;
     s_lastSyncError := None;
     s_updatedAt := 0 |}.

(** An item of a feed, published at the epoch. *)
Definition oldXmlItem : XmlItem :=
  {| x_guid := Some "post-1";
     x_link := Some "https://a.example/1";
     x_origlink := None;
     x_title := Some "An old post";
     x_description := Some "Hello";
     x_summary := None;
     x_pubdate := Some 0%Z;
     x_date := Some 0%Z;
     x_author := None;
     x_categories := [];
     x_enclosures := [];
     x_media := [];
     x_image := None |}.

Definition noMeta : FeedMeta := mkFeedMeta None None None None None.

Definition feedUrlA : string := "https://a.example/feed".
Definition feedUrlB : string := "https://b.example/feed".


(** Every blog of [db'] is a document of [db] or satisfies [P]: the
    writes of a step only produce documents that satisfy [P]. *)
Definition writesOnly (P : Blog -> Prop) (db db' : Db) : Prop :=
  forall b, In b (blogs db') -> In b (blogs db) \/ P b.

(** A FeedLand source without account name and category filter, as the
    edit form of the sources stores it when both fields are left empty,
    and a top-level OPML entry. *)
Definition feedlandNoUser : Source :=
  {| s_id := 3;
     s_type := Feedland;
     s_name := "FeedLand";
     s_url := None;
     s_opmlContent := None;
     s_channelFilter := None;
     s_categoryPrefix := "";
     s_feedlandInstance := Some "https://feedland.com";
     s_feedlandUsername := None;
     s_feedlandCategory := None;
     s_enabled := true;
     s_lastSyncAt := None;
     s_lastSyncError := None;
     s_updatedAt := 0 |}.

Definition feedlandUser : Source :=
  {| s_id := 3;
     s_type := Feedland;
     s_name := "FeedLand";
     s_url := None;
     s_opmlContent := None;
     s_channelFilter := None;
     s_categoryPrefix := "";
     s_feedlandInstance := Some "https://feedland.com";
     s_feedlandUsername := Some "dave";
     s_feedlandCategory := None;
     s_enabled := true;
     s_lastSyncAt := None;
     s_lastSyncError := None;
     s_updatedAt := 0 |}.

Definition topLevelOutline : Outline :=
  mkOutline (Some (mkAttrs (Some "A blog") None (Some "rss")
                           (Some feedUrlA) (Some "https://a.example") None))
            [].

(** A top-level entry as FeedLand writes it, with the categories of the
    feed in its [category] attribute. *)
Definition categorisedOutline : Outline :=
  mkOutline (Some (mkAttrs (Some "A blog") None (Some "rss")
                           (Some feedUrlA) (Some "https://a.example")
                           (Some "blogs,tech")))
            [].

(** The list of the account "dave", and the list asked for when the
    account name is missing, both with this one entry. *)
Definition daveEnv : Env :=
  setOpml sampleEnv "https://feedland.com/opml?screenname=dave"
          [categorisedOutline].

Definition noAccountEnv : Env :=
  setOpml sampleEnv "https://feedland.com/opml?screenname=null"
          [categorisedOutline].

Definition feedlandEnv : Env :=
  setOpml sampleEnv "https://feedland.com/opml?screenname=null"
          [topLevelOutline].


(** ** Uniqueness of blogs *)

(** The key of the upsert filter of an adapter. *)
Definition blogKey (b : Blog) : string * option ObjectId :=
  (b_feedUrl b, b_sourceId b).

Definition liveBlogs (db : Db) : list Blog := filter live (blogs db).

(** At most one non-deleted blog per feed URL. *)
Definition uniquePerFeedUrl (db : Db) : Prop :=
  NoDup (map b_feedUrl (liveBlogs db)).

(** At most one non-deleted blog per feed URL and source id. *)
Definition uniquePerKey (db : Db) : Prop :=
  NoDup (map blogKey (liveBlogs db)).

(** The ids of the stored blogs are below the counter of fresh ids. *)
Definition idsFresh (db : Db) : Prop :=
  Forall (fun b => b_id b < nextId db) (blogs db).

(** One operation that can create a blog (an upsert by an adapter, which
    always carries the id of its source; a whole source sync; the create
    handler of the operator; a subscribe event of the webhook), or the
    soft delete of a blog. *)
Inductive creates : Db -> Db -> Prop :=
| by_upsert env data db r db' :
    c_sourceId data <> None ->
    upsertBlog env data db = (r, db') -> creates db db'
| by_sync env source db r db' :
    syncSource env source db = (r, db') -> creates db db'
| by_operator env data db r db' :
    createBlogHandler env data db = (r, db') -> creates db db'
| by_webhook env url channelName title db r db' :
    handleMicrosubWebhook env Subscribe url channelName title db = (r, db') ->
    creates db db'
| by_delete env id db r db' :
    deleteBlog env id db = (r, db') -> creates db db'.

(** The stores these operations lead to from the empty store. *)
Inductive reachable : Db -> Prop :=
| reach_empty : reachable emptyDb
| reach_step db db' : reachable db -> creates db db' -> reachable db'.

(** The relation of a store to a later one in which blogs were only
    updated in place, keeping their id and key, a changed blog with the
    id [id] being live afterwards and any other changed blog having been
    live before. *)
Definition updatedInPlace (id : option ObjectId) (db db' : Db) : Prop :=
  nextId db' = nextId db
  /\ Forall2 (fun x y =>
                b_id y = b_id x /\ blogKey y = blogKey x
                /\ ((live y = true -> live x = true)
                    \/ (Some (b_id x) = id /\ live y = true)))
             (blogs db) (blogs db').


(** The invariant of the store that the blog-creating operations keep. *)
Definition storeInv (db : Db) : Prop := idsFresh db /\ uniquePerKey db.

Definition keepsInv (db db' : Db) : Prop := storeInv db -> storeInv db'.


(** The store after two sources, 1 and 2, each supplied the same feed
    URL to [upsertBlog]. *)
Definition oneSourceDb : Db :=
  snd (upsertBlog sampleEnv (sampleCandidate feedUrlA (Some 1)) emptyDb).

Definition twoSourcesDb : Db :=
  snd (upsertBlog sampleEnv (sampleCandidate feedUrlA (Some 2)) oneSourceDb).

(** The body of the create form for a feed URL, the other fields left
    empty, and the same for the edit form. *)
Definition newBlogFor (url : string) : NewBlog :=
  mkNewBlog None url None url None None None [] None None false false None.

Definition editTo (url : string) : BlogEdit :=
  mkBlogEdit url None None None [] None false false.

(** The store after the operator created a blog for each of two feed
    URLs, and after the edit form then gave the second blog the feed
    URL of the first. *)
Definition twoBlogsDb : Db :=
  snd (createBlogHandler sampleEnv (newBlogFor feedUrlB)
         (snd (createBlogHandler sampleEnv (newBlogFor feedUrlA) emptyDb))).

Definition editedDb : Db :=
  snd (updateBlogHandler sampleEnv 1 (editTo feedUrlA) twoBlogsDb).

(** The store after the operator created a blog, deleted it and created
    it again, and after a refresh of the deleted blog. *)
Definition recreatedDb : Db :=
  snd (createBlogHandler sampleEnv (newBlogFor feedUrlA)
         (snd (deleteBlog sampleEnv 0
                 (snd (createBlogHandler sampleEnv (newBlogFor feedUrlA)
                         emptyDb))))).

Definition refreshedDb : Db := snd (refreshBlogHandler sampleEnv 0 recreatedDb).


(** The feeds of the channels a Microsub source mirrors, in the order of
    the sync, and their ids: the current foreign feed set. *)
Definition mirroredFeeds (source : Source) (chs : list Channel)
  (fds : list MsFeed) : list MsFeed :=
  flat_map (fun ch => filter (fun f => mf_channelId f =? ch_id ch) fds)
           (filter (channelQuery source) chs).

Definition currentFeedIds (source : Source) (chs : list Channel)
  (fds : list MsFeed) : list string :=
  map mf_id (mirroredFeeds source chs fds).

(** An orphan of a Microsub source, in the words of the specification: a
    blog mirrored before by this source (it has the "microsub"
    provenance and the id of the source) that is not deleted yet and
    whose foreign feed id is not among the current ones. *)
Definition mirroredOrphan (source : Source) (current : list string)
  (b : Blog) : Prop :=
  b_source b = Some "microsub"
  /\ b_sourceId b = Some (s_id source)
  /\ b_status b <> Deleted
  /\ ~ (exists id, In id current /\ b_microsubFeedId b = Some id).

(** A blog mirrored from the Microsub feed [feedId] by source [srcId]. *)
Definition mirrorBlog (id : ObjectId) (url : string) (srcId : ObjectId)
  (feedId : string) : Blog :=
  {| b_id := id;
     b_sourceId := Some srcId;
     b_title := "A mirrored blog";
     b_description := None;
     b_feedUrl := url;
     b_siteUrl := Some "";
     b_feedType := "rss";
     b_category := "Reading";
     b_tags := [];
     b_photo := None;
     b_author := None;
     b_status := Active;
     b_lastFetchAt := None;
     b_lastError := None;
     b_itemCount := 0;
     b_pinned := false;
     b_hidden := false;
     b_notes := None;
     b_createdAt := 0;
     b_updatedAt := 0;
     b_source := Some "microsub";
     b_microsubFeedId := Some feedId;
     b_microsubChannelId := Some "c1";
     b_microsubChannelName := Some "Reading";
     b_skipItemFetch := true;
     b_deletedAt := None;
     b_unsubscribedAt := None |}.

Definition readingChannel : Channel := mkChannel "c1" "reading" "Reading".

Definition msFeed (id url : string) : MsFeed :=
  mkMsFeed id "c1" url None None None None.


Definition mirrorSource : Source := sampleSource 5 Microsub.

(** A store with one blog mirrored by [mirrorSource] from the feed "f1". *)
Definition mirrorDb : Db :=
  mkDb [mirrorBlog 1 feedUrlA 5 "f1"] [] [mirrorSource] None 6.

(** The foreign store after "f1" was unsubscribed: with another feed
    left in the channel, and with none. *)
Definition otherFeedEnv : Env :=
  setMicrosub sampleEnv [readingChannel] [msFeed "f2" feedUrlB].

Definition noFeedEnv : Env := setMicrosub sampleEnv [readingChannel] [].


(** ** Identity of items *)

Definition itemIdentity (i : Item) : ObjectId * string :=
  (i_blogId i, i_uid i).


(** The feed [fetchAndParseFeed] resolves to for a parsed body. *)
Definition parsedFeed (env : Env) (raw : RawFeed) (url : string)
  (maxItems : nat) : Feed :=
  match raw with
  | XmlFeed m its => parseXmlFeed env m its url maxItems
  | JsonFeed m its => parseJsonFeed env m its url maxItems
  end.


(** [env] at another reading of the clock. *)
Definition setNow (env : Env) (t : Z) : Env :=
  {| now := t;
     elapsed := elapsed env;
     storeFault := storeFault env;
     fetchFeed := fetchFeed env;
     httpGet := httpGet env;
     xml2js := xml2js env;
     microsub := microsub env;
     sha256hex := sha256hex env;
     sanitizeHtml := sanitizeHtml env;
     stripHtml := stripHtml env;
     decodeEntities := decodeEntities env;
     truncateText := truncateText env;
     extractDomainFromUrl := extractDomainFromUrl env;
     extractSiteUrl := extractSiteUrl env;
     encodeURIComponent := encodeURIComponent env;
     toUTCString := toUTCString env;
     cursorWindow := cursorWindow env |}.

(** The network serves one old item for the feed A; one hour later it
    serves the same. *)
Definition feedAEnv : Env :=
  setFetch sampleEnv feedUrlA (Ok (XmlFeed noMeta [oldXmlItem])).

Definition feedALaterEnv : Env := setNow feedAEnv (now feedAEnv + 3600000).

Definition blogA : Blog := sampleBlog 1 feedUrlA None Active.

Definition blogADb : Db := mkDb [blogA] [] [] None 2.


(** ** Vocabulary for the text helpers *)

(** What one character becomes in [escapeXml]. *)
Definition escapeChar (c : ascii) : string :=
  if Ascii.eqb c "&" then "&amp;"
  else if Ascii.eqb c "<" then "&lt;"
  else if Ascii.eqb c ">" then "&gt;"
  else if Ascii.eqb c dquote then "&quot;"
  else if Ascii.eqb c "'" then "&apos;"
  else String c EmptyString.

Fixpoint allChars (p : ascii -> bool) (s : string) : bool :=
  match s with
  | EmptyString => true
  | String c rest => p c && allChars p rest
  end.

(** A character that cannot end an attribute value or open a tag. *)
Definition attributeSafe (c : ascii) : bool :=
  negb (Ascii.eqb c "<" || Ascii.eqb c ">" || Ascii.eqb c dquote
        || Ascii.eqb c "'").

(** The five predefined entities of XML. *)
Definition entityChar (name : string) : option ascii :=
  if name =? "amp" then Some "&"%char
  else if name =? "lt" then Some "<"%char
  else if name =? "gt" then Some ">"%char
  else if name =? "quot" then Some dquote
  else if name =? "apos" then Some "'"%char
  else None.

(** The reading of character data by an XML parser: a reference to a
    predefined entity stands for its character.  [pending] is the name
    of the reference being read. *)
Fixpoint unescapeFrom (pending : option string) (s : string) : string :=
  match s with
  | EmptyString =>
      match pending with
      | Some p => "&" +++ p
      | None => EmptyString
      end
  | String c rest =>
      match pending with
      | None =>
          if Ascii.eqb c "&" then unescapeFrom (Some EmptyString) rest
          else String c (unescapeFrom None rest)
      | Some p =>
          if Ascii.eqb c ";" then
            match entityChar p with
            | Some x => String x (unescapeFrom None rest)
            | None => "&" +++ p +++ ";" +++ unescapeFrom None rest
            end
          else unescapeFrom (Some (p +++ String c EmptyString)) rest
      end
  end.

Definition xmlUnescape (s : string) : string := unescapeFrom None s.


(** ** Vocabulary for the OPML export and import *)

(** [g] groups the blogs [pre] by category label: the keys are distinct,
    the group of a key is the list of the blogs with that label, in the
    order of [pre], and is not empty, and every label is a key. *)
Definition groupsOf (pre : list Blog) (g : Grouped) : Prop :=
  NoDup (map fst g)
  /\ Forall (fun e => snd e = filter (fun b => categoryLabel b =? fst e) pre
                      /\ snd e <> []) g
  /\ (forall b, In b pre -> In (categoryLabel b) (map fst g)).

(** An entry a sync can use: it has a feed URL and a title, one of the
    three feed types, and the given category. *)
Definition usableEntry (e : OpmlEntry) : Prop :=
  e_feedUrl e <> "" /\ e_title e <> ""
  /\ (e_feedType e = "rss" \/ e_feedType e = "atom"
      \/ e_feedType e = "jsonfeed").

Definition twoCategoriesBlogs : list Blog :=
  [ sampleBlog 1 feedUrlA None Active;
    mirrorBlog 2 feedUrlB 5 "f2";
    sampleBlog 3 "https://c.example/feed" None Active ].

Definition folderDoc : OpmlDoc :=
  [ mkOutline (Some (mkAttrs (Some "Friends") None None None None None))
              [ topLevelOutline;
                mkOutline (Some (mkAttrs None None None None None None)) [] ];
    topLevelOutline ].


(** ** Vocabulary for the blog storage *)

(** The fields of a blog that belong to the operator or to the item
    sync, with its identity: what a source sync has no business with. *)
Definition operatorFields (b : Blog) :=
  (b_id b, b_feedUrl b, b_description b, b_tags b, b_author b, b_notes b,
   (b_pinned b, b_hidden b, b_itemCount b, b_createdAt b, b_lastError b)).

(** A pinned blog is never listed after one that is not pinned. *)
Definition pinnedBefore (x y : Blog) : Prop :=
  b_pinned y = true -> b_pinned x = true.

Definition pinnedBlog (id : ObjectId) (title : string) (pinned hidden : bool)
  (st : Status) : Blog :=
  {| b_id := id;
     b_sourceId := None;
     b_title := title;
     b_description := None;
     b_feedUrl := "https://" +++ title +++ ".example/feed";
     b_siteUrl := None;
     b_feedType := "rss";
     b_category := "";
     b_tags := [];
     b_photo := None;
     b_author := None;
     b_status := st;
     b_lastFetchAt := None;
     b_lastError := None;
     b_itemCount := 0;
     b_pinned := pinned;
     b_hidden := hidden;
     b_notes := None;
     b_createdAt := 0;
     b_updatedAt := 0;
     b_source := None;
     b_microsubFeedId := None;
     b_microsubChannelId := None;
     b_microsubChannelName := None;
     b_skipItemFetch := false;
     b_deletedAt := None;
     b_unsubscribedAt := None |}.

Definition listingDb : Db :=
  mkDb [ pinnedBlog 1 "b" false false Active;
         pinnedBlog 2 "a" false false Active;
         pinnedBlog 3 "z" true false Active;
         pinnedBlog 4 "c" false true Active;
         pinnedBlog 5 "d" false false Deleted ]
       [] [] None 6.


(** ** A store with work for a run *)

(** Three blogs: one whose feed answers, one whose feed does not, one
    mirrored from Microsub; and three sources: an inline OPML document,
    a JSON feed source, and a source that is disabled. *)
Definition disabledSource : Source :=
  {| s_id := 9;
     s_type := OpmlFile;
     s_name := "Off";
     s_url := None;
     s_opmlContent := None;
     s_channelFilter := None;
     s_categoryPrefix := "";
     s_feedlandInstance := None;
     s_feedlandUsername := None;
     s_feedlandCategory := None;
     s_enabled := false;
     s_lastSyncAt := None;
     s_lastSyncError := None;
     s_updatedAt := 0 |}.

Definition busyDb : Db :=
  mkDb [ blogA;
         sampleBlog 2 feedUrlB None Active;
         mirrorBlog 3 "https://m.example/feed" 5 "f1" ]
       []
       [ sampleSource 7 OpmlFile; sampleSource 8 JsonFeedSource;
         disabledSource ]
       None 4.

(** ** Vocabulary for the items *)

(** The items are the same before and after. *)
Definition itemsKept (db db' : Db) : Prop := items db' = items db.

(** No two stored items have the same (blogId, uid). *)
Definition identitiesUnique (db : Db) : Prop :=
  NoDup (map itemIdentity (items db)).

Definition keepsUnique (db db' : Db) : Prop :=
  identitiesUnique db -> identitiesUnique db'.

(** A store with one blog and one item of it. *)
Definition blogAWithItemDb : Db :=
  snd (syncBlogItems feedAEnv blogA 50 blogADb).

(** ** Vocabulary for the loop over the blogs *)

(** An item of another blog than [k]. *)
Definition notOf (k : ObjectId) (i : Item) : bool :=
  negb (i_blogId i =? k)%nat.

(** Two stores that differ at most in the record of the blog [k] and in
    the items of the blog [k]: the blogs are the same documents in the
    same places, but for those with the id [k], and the items of the
    other blogs are the same in the same order. *)
Definition sameButBlog (k : ObjectId) (x y : Blog) : Prop :=
  b_id y = b_id x /\ (b_id x <> k -> y = x).

Definition agreeExcept (k : ObjectId) (a b : Db) : Prop :=
  Forall2 (sameButBlog k) (blogs a) (blogs b)
  /\ filter (notOf k) (items b) = filter (notOf k) (items a).

(** The steps of a run before its loop over the blogs: what they return
    and the blogs listed for the loop. *)
Definition runPrefix (env : Env) (opts : Options)
  : M (nat * list Source * (nat * nat) * list Blog) :=
  deletedItems <- deleteOldItems env (maxItemAge opts) ;;
  allSources <- getSources env ;;
  counts <- syncSources env (filter syncableSource allSources) 0 0 ;;
  bs <- getBlogs env runQuery ;;
  ret (deletedItems, filter syncableSource allSources, counts, bs).

(** Whether the feed of a blog cannot be fetched. *)
Definition fetchFails (env : Env) (b : Blog) : bool :=
  match fetchFeed env (b_feedUrl b) with
  | Throw _ => true
  | Ok _ => false
  end.

(** The record of the blog [k] says that its last fetch failed with the
    message [e]. *)
Definition failureRecorded (k : ObjectId) (e : string) (y : Blog) : Prop :=
  b_id y = k -> b_status y = Error /\ b_lastError y = Some e.

(** ** Vocabulary for the export and import round trip *)

(** What an XML parser reads from an attribute that the export wrote as
    [escapeXml v]: the written text with its entity references
    resolved. *)
Definition readAttr (v : string) : jsstr := Some (xmlUnescape (escapeXml v)).

(** The element that [renderChild] writes for a blog: the attributes
    [text], [type], [xmlUrl] and [htmlUrl], no [title], no [category] and
    no nested outline. *)
Definition exportedChild (b : Blog) : Outline :=
  mkOutline
    (Some (mkAttrs (readAttr (b_title b)) None (Some "rss")
                   (readAttr (b_feedUrl b))
                   (readAttr (orStr (b_siteUrl b) "")) None))
    [].

(** The element that [renderGroup] writes for a group: the one attribute
    [text], and the blogs of the group as nested outlines. *)
Definition exportedGroup (e : string * list Blog) : Outline :=
  mkOutline (Some (mkAttrs (readAttr (fst e)) None None None None None))
            (map exportedChild (snd e)).

(** The outlines of the body that [renderOpml] writes. *)
Definition exportedDoc (g : Grouped) : OpmlDoc :=
  map exportedGroup (objectEntries g).



Definition tripleOfEntry (e : OpmlEntry) : string * string * string :=
  (e_title e, e_feedUrl e, e_category e).




Definition withFields (title url category : string) : Blog :=
  {| b_id := 1;
     b_sourceId := None;
     b_title := title;
     b_description := None;
     b_feedUrl := url;
     b_siteUrl := None;
     b_feedType := "rss";
     b_category := category;
     b_tags := [];
     b_photo := None;
     b_author := None;
     b_status := Active;
     b_lastFetchAt := None;
     b_lastError := None;
     b_itemCount := 0;
     b_pinned := false;
     b_hidden := false;
     b_notes := None;
     b_createdAt := 0;
     b_updatedAt := 0;
     b_source := None;
     b_microsubFeedId := None;
     b_microsubChannelId := None;
     b_microsubChannelName := None;
     b_skipItemFetch := false;
     b_deletedAt := None;
     b_unsubscribedAt := None |}.

(** Four blogs: two of one category around one of another, and one
    without a site URL whose title needs escaping. *)
Definition mixedBlogs : list Blog :=
  [ withFields "Ann" "https://ann.example/feed" "Friends";
    withFields "Bob" "https://bob.example/feed" "Tech";
    withFields "Cy & Di" "https://cy.example/feed" "Friends";
    withFields "Eve" "https://eve.example/feed" "7" ].

(** [sampleEnv] with an xml2js that reads the export of [bs] back. *)
Definition readerEnv (bs : list Blog) : Env :=
  setOpml sampleEnv ""
    (match groupBlogs bs [] with
     | Ok g => exportedDoc g
     | Throw _ => []
     end).



(** * Properties *)

(** ** The monad *)

Lemma bind_ok {A B : Type} (m : M A) (k : A -> M B) db a db' :
  m db = (Ok a, db') -> bind m k db = k a db'.
Proof. intros H. unfold bind. now rewrite H. Qed.

Lemma bind_throw {A B : Type} (m : M A) (k : A -> M B) db e db' :
  m db = (Throw e, db') -> bind m k db = (Throw e, db').
Proof. intros H. unfold bind. now rewrite H. Qed.

Lemma tryCatch_ok {A : Type} (m : M A) h db a db' :
  m db = (Ok a, db') -> tryCatch m h db = (Ok a, db').
Proof. intros H. unfold tryCatch. now rewrite H. Qed.

Lemma tryCatch_throw {A : Type} (m : M A) h db e db' :
  m db = (Throw e, db') -> tryCatch m h db = h e db'.
Proof. intros H. unfold tryCatch. now rewrite H. Qed.

Lemma call_ok env {A : Type} c m (f : Db -> A * Db) db :
  storeFault env c m = None ->
  call env c m f db = (Ok (fst (f db)), snd (f db)).
Proof.
  intros H. unfold call. rewrite H. now destruct (f db).
Qed.

Lemma call_cases env {A : Type} c m (f : Db -> A * Db) db r db' :
  call env c m f db = (r, db') ->
  (exists e, r = Throw e /\ db' = db)
  \/ (r = Ok (fst (f db)) /\ db' = snd (f db)).
Proof.
  unfold call. destruct (storeFault env c m) as [e|].
  - intros [= <- <-]. left. now exists e.
  - destruct (f db) as [a d]. intros [= <- <-]. now right.
Qed.

(** A relation between the store before and after, kept by every step of
    a computation. *)
Definition keeps {A : Type} (R : Db -> Db -> Prop) (m : M A) : Prop :=
  forall db r db', m db = (r, db') -> R db db'.

Section Keeps.
Variable R : Db -> Db -> Prop.
Hypothesis R_refl : forall db, R db db.
Hypothesis R_trans : forall a b c, R a b -> R b c -> R a c.

Lemma keeps_ret {A : Type} (a : A) : keeps R (ret a).
Proof. intros db r db' [= _ <-]. apply R_refl. Qed.

Lemma keeps_throw {A : Type} e : keeps R (@throw A e).
Proof. intros db r db' [= _ <-]. apply R_refl. Qed.

Lemma keeps_bind {A B : Type} (m : M A) (k : A -> M B) :
  keeps R m -> (forall a, keeps R (k a)) -> keeps R (bind m k).
Proof.
  intros Hm Hk db r db'. unfold bind.
  destruct (m db) as [[a|e] d] eqn:E.
  - intros H. eapply R_trans; [eapply Hm, E | eapply Hk, H].
  - intros [= _ <-]. eapply Hm, E.
Qed.

Lemma keeps_tryCatch {A : Type} (m : M A) h :
  keeps R m -> (forall e, keeps R (h e)) -> keeps R (tryCatch m h).
Proof.
  intros Hm Hh db r db'. unfold tryCatch.
  destruct (m db) as [[a|e] d] eqn:E.
  - intros [= _ <-]. eapply Hm, E.
  - intros H. eapply R_trans; [eapply Hm, E | eapply Hh, H].
Qed.

Lemma keeps_call env {A : Type} c m (f : Db -> A * Db) :
  (forall db, R db (snd (f db))) -> keeps R (call env c m f).
Proof.
  intros Hf db r db' H.
  destruct (call_cases _ _ _ _ _ _ _ H) as [(e & _ & ->)|[_ ->]]; auto.
Qed.

Lemma keeps_pure {A : Type} (m : M A) :
  (forall db, snd (m db) = db) -> keeps R m.
Proof.
  intros H db r db' E. specialize (H db). rewrite E in H. simpl in H.
  subst. apply R_refl.
Qed.
End Keeps.

(** ** The scheduler: single flight *)

(** C2.  While the run-in-progress flag is set, [runFullSync] returns
    [{ skipped: true }] at once and leaves the whole state of the
    scheduler as it was: no collection is written, the flag is not
    touched, and the state has no place where the request could wait. *)
Theorem runFullSync_rejects_while_running env opts st :
  isRunning st = true ->
  runFullSync env opts st = (Ok RunSkipped, st).
Proof.
  intros Hrun. unfold runFullSync. now rewrite Hrun.
Qed.

Lemma runFullSync_rejects_while_running_witness :
  runFullSync sampleEnv defaultOptions (mkSched true emptyDb)
  = (Ok RunSkipped, mkSched true emptyDb).
Proof.
  apply (runFullSync_rejects_while_running sampleEnv defaultOptions
           (mkSched true emptyDb)).
  reflexivity.
Defined.

(** The body of a run ends with the run's counts or with a throw. *)
Lemma runBody_result env opts db r db' :
  runBody env opts db = (r, db') ->
  (exists d s b a x, r = Ok (RunDone d s b a x)) \/ (exists e, r = Throw e).
Proof.
  unfold runBody, bind.
  repeat match goal with
         | |- context [match ?m db with _ => _ end] =>
             destruct (m db) as [[?|?] ?]
         | |- context [match ?m ?d with _ => _ end] =>
             destruct (m d) as [[?|?] ?]
         end;
    intros [= <- _]; eauto 10.
Qed.

(** A run that starts answers with its counts or with a failure, never
    with a throw past its boundary, and the flag is clear afterwards. *)
Lemma runFullSync_started env opts st :
  isRunning st = false ->
  isRunning (snd (runFullSync env opts st)) = false
  /\ ((exists d s b a x,
          fst (runFullSync env opts st) = Ok (RunDone d s b a x))
      \/ (exists e, fst (runFullSync env opts st) = Ok (RunFailed e))).
Proof.
  intros Hrun. unfold runFullSync. rewrite Hrun. unfold tryCatch. simpl.
  destruct (runBody env opts (store st)) as [[r|e] db'] eqn:E; simpl.
  - split; [reflexivity|].
    destruct (runBody_result _ _ _ _ _ E) as [(d & s & b & a & x & H)|[e H]].
    + left. injection H as ->. eauto 10.
    + discriminate.
  - split; [reflexivity|]. right. eauto.
Qed.

(** C10.  A run that starts (the flag was clear) leaves the flag clear
    when it returns, whether it returns its counts or
    [{ success: false, error }]; the next call is therefore not rejected
    with [{ skipped: true }]. *)
Theorem runFullSync_releases_flag env opts st :
  isRunning st = false ->
  isRunning (snd (runFullSync env opts st)) = false
  /\ ((exists d s b a x,
          fst (runFullSync env opts st) = Ok (RunDone d s b a x))
      \/ (exists e, fst (runFullSync env opts st) = Ok (RunFailed e)))
  /\ (forall env' opts',
         fst (runFullSync env' opts' (snd (runFullSync env opts st)))
         <> Ok RunSkipped).
Proof.
  intros Hrun.
  destruct (runFullSync_started env opts st Hrun) as [Hflag Hres].
  repeat split; auto.
  intros env' opts'.
  destruct (runFullSync_started env' opts' _ Hflag)
    as [_ [(d & s & b & a & x & H)|[e H]]];
    rewrite H; discriminate.
Qed.

Lemma runFullSync_releases_flag_witness :
  isRunning (snd (runFullSync (faultyEnv MetaColl UpdateOne) defaultOptions
                              (mkSched false emptyDb))) = false
  /\ fst (runFullSync (faultyEnv MetaColl UpdateOne) defaultOptions
                      (mkSched false emptyDb))
     = Ok (RunFailed "write failed").
Proof.
  split.
  - apply (runFullSync_releases_flag (faultyEnv MetaColl UpdateOne)
             defaultOptions (mkSched false emptyDb)).
    reflexivity.
  - vm_compute. reflexivity.
Defined.

(** Both ways out of a started run occur. *)
Example run_success_path :
  runFullSync sampleEnv defaultOptions (mkSched false emptyDb)
  = (Ok (RunDone 5 (mkTally 0 0 0) (mkTally 0 0 0) 0 0),
     mkSched false
       (mkDb [] [] []
          (Some (mkSyncStats 1000000000000 5 (mkTally 0 0 0) (mkTally 0 0 0)
                             0 0)) 0)).
Proof. vm_compute. reflexivity. Qed.

Example run_failure_path :
  runFullSync (faultyEnv ItemsColl DeleteMany) defaultOptions
              (mkSched false emptyDb)
  = (Ok (RunFailed "write failed"), mkSched false emptyDb).
Proof. vm_compute. reflexivity. Qed.

(** ** The collection primitives *)

Lemma updateFirst_some {D : Type} (p : D -> bool) f l old l' :
  updateFirst p f l = Some (old, l') ->
  exists l1 l2,
    l = l1 ++ old :: l2 /\ l' = l1 ++ f old :: l2
    /\ p old = true /\ Forall (fun x => p x = false) l1.
Proof.
  revert l'. induction l as [|d rest IH]; intros l'; simpl; [discriminate|].
  destruct (p d) eqn:Hp.
  - intros [= <- <-]. exists [], rest. auto.
  - destruct (updateFirst p f rest) as [[o r']|]; [|discriminate].
    intros [= <- <-].
    destruct (IH _ eq_refl) as (l1 & l2 & -> & -> & Ho & Hall).
    exists (d :: l1), l2. auto.
Qed.

Lemma updateFirst_none {D : Type} (p : D -> bool) f l :
  updateFirst p f l = None <-> Forall (fun x => p x = false) l.
Proof.
  induction l as [|d rest IH]; simpl.
  - split; auto.
  - destruct (p d) eqn:Hp.
    + split; [discriminate|]. intros H. inversion H. congruence.
    + destruct (updateFirst p f rest) as [[o r']|].
      * split; [discriminate|]. intros H. inversion H; subst.
        apply IH in H3. discriminate.
      * split; auto. intros _. constructor; auto. now apply IH.
Qed.

Lemma find_first {D : Type} (p : D -> bool) l d :
  In d l -> p d = true -> exists x, find p l = Some x.
Proof.
  intros Hin Hp. destruct (find p l) eqn:E; eauto.
  now rewrite (find_none _ _ E d Hin) in Hp.
Qed.

Lemma status_eqb_eq a b : status_eqb a b = true <-> a = b.
Proof. destruct a, b; simpl; split; congruence. Qed.

Lemma optId_eqb_eq a b : optId_eqb a b = true <-> a = b.
Proof. unfold optId_eqb. destruct (optId_eq_dec a b); split; congruence. Qed.

Lemma jsstr_eqb_eq a b : jsstr_eqb a b = true <-> a = b.
Proof. unfold jsstr_eqb. destruct (jsstr_eq_dec a b); split; congruence. Qed.

(** ** Soft-delete suppression *)

Lemma tombstonesKept_refl db : tombstonesKept db db.
Proof. now intros b. Qed.

Lemma tombstonesKept_trans a b c :
  tombstonesKept a b -> tombstonesKept b c -> tombstonesKept a c.
Proof. intros H1 H2 x Hin Hd. auto. Qed.

(** What one [upsertBlog] does to the store: nothing (a tombstone with
    the feed URL, or a rejected call), or the upsert proper, and then no
    tombstone has the feed URL. *)
Lemma upsertBlog_cases env data db r db' :
  upsertBlog env data db = (r, db') ->
  db' = db
  \/ (find (isDeletedWithUrl (c_feedUrl data)) (blogs db) = None
      /\ ((exists old bs,
              updateFirst (upsertFilter data) (applyUpsert env data)
                          (blogs db) = Some (old, bs)
              /\ db' = withBlogs db bs)
          \/ (updateFirst (upsertFilter data) (applyUpsert env data)
                          (blogs db) = None
              /\ db' = insertBlog db (upsertDoc env data)))).
Proof.
  unfold upsertBlog, bind, call, findOne.
  destruct (storeFault env BlogsColl FindOne).
  { intros [= _ <-]. now left. }
  destruct (find _ (blogs db)) eqn:Hfind.
  { intros [= _ <-]. now left. }
  destruct (storeFault env BlogsColl UpdateOne).
  { intros [= _ <-]. now left. }
  destruct (updateFirst _ _ (blogs db)) as [[old bs]|] eqn:Hupd;
    intros [= _ <-]; right; split; eauto.
Qed.

Lemma upsertBlog_keeps_tombstones env data :
  keeps tombstonesKept (upsertBlog env data).
Proof.
  intros db r db' H.
  destruct (upsertBlog_cases _ _ _ _ _ H)
    as [->|[Hnone [(old & bs & Hupd & ->)|[_ ->]]]].
  - apply tombstonesKept_refl.
  - intros b Hin Hdel. simpl.
    destruct (updateFirst_some _ _ _ _ _ Hupd)
      as (l1 & l2 & Hl & -> & Hold & _).
    rewrite Hl in Hin. apply in_app_or in Hin. apply in_or_app.
    destruct Hin as [Hin|[<-|Hin]]; [now left| |right; now right].
    exfalso.
    assert (Hin' : In old (blogs db)).
    { rewrite Hl. apply in_or_app. right. now left. }
    pose proof (find_none _ _ Hnone old Hin') as Hno.
    unfold isDeletedWithUrl, upsertFilter in *.
    apply andb_prop in Hold. destruct Hold as [Hurl _].
    rewrite Hurl, Hdel in Hno. discriminate.
  - intros b Hin _. simpl. apply in_or_app. now left.
Qed.

Lemma upsertBlogs_keeps_tombstones env cands :
  forall added updated,
    keeps tombstonesKept (upsertBlogs env cands added updated).
Proof.
  induction cands as [|data rest IH]; intros added updated; simpl.
  - apply keeps_ret, tombstonesKept_refl.
  - apply (keeps_bind _ tombstonesKept_trans).
    + apply upsertBlog_keeps_tombstones.
    + intros r. destruct (upserted r); [|destruct (modified r)]; apply IH.
Qed.

Lemma updateSourceSyncStatus_keeps_blogs env id st db r db' :
  updateSourceSyncStatus env id st db = (r, db') -> blogs db' = blogs db.
Proof.
  intros H. apply call_cases in H.
  destruct H as [(e & _ & ->)|[_ ->]]; auto.
  destruct (updateFirst _ _ (sources db)) as [[o ss]|]; reflexivity.
Qed.

Lemma updateSourceSyncStatus_keeps_tombstones env id st :
  keeps tombstonesKept (updateSourceSyncStatus env id st).
Proof.
  intros db r db' H b Hin _.
  now rewrite (updateSourceSyncStatus_keeps_blogs _ _ _ _ _ _ H).
Qed.

Lemma sweepOrphans_keeps_tombstones env source current :
  keeps tombstonesKept (sweepOrphans env source current).
Proof.
  destruct current as [|id rest].
  - apply keeps_ret, tombstonesKept_refl.
  - apply keeps_call; [apply tombstonesKept_refl|].
    intros db b Hin Hdel. simpl. unfold updateMany.
    apply in_map_iff. exists b. split; auto.
    unfold isOrphan. rewrite Hdel. simpl.
    now rewrite !andb_false_r.
Qed.

Lemma parseOpml_pure env content db : snd (parseOpml env content db) = db.
Proof. unfold parseOpml. now destruct (xml2js env content). Qed.

Lemma fetchAndParseOpml_pure env url db :
  snd (fetchAndParseOpml env url db) = db.
Proof.
  unfold fetchAndParseOpml.
  destruct (httpGet env url); [apply parseOpml_pure|reflexivity].
Qed.

Create HintDb tombstones.

#[local] Hint Resolve upsertBlog_keeps_tombstones
  upsertBlogs_keeps_tombstones updateSourceSyncStatus_keeps_tombstones
  sweepOrphans_keeps_tombstones : tombstones.

Ltac keeps_tombstones :=
  repeat first
    [ solve [auto with tombstones nocore]
    | simple apply (keeps_ret _ tombstonesKept_refl)
    | simple apply (keeps_throw _ tombstonesKept_refl)
    | simple apply (keeps_bind _ tombstonesKept_trans)
    | simple apply (keeps_tryCatch _ tombstonesKept_trans)
    | simple apply (keeps_pure _ tombstonesKept_refl); intro;
      first [ apply parseOpml_pure | apply fetchAndParseOpml_pure ]
    | simple apply (keeps_call _ tombstonesKept_refl); intro;
      apply tombstonesKept_refl
    | match goal with |- forall _, keeps _ _ => intro end ].

Lemma syncOpmlSource_keeps_tombstones env source :
  keeps tombstonesKept (syncOpmlSource env source).
Proof.
  unfold syncOpmlSource. keeps_tombstones.
  destruct (s_type source); keeps_tombstones.
Qed.

Lemma syncFeedlandSource_keeps_tombstones env source :
  keeps tombstonesKept (syncFeedlandSource env source).
Proof.
  unfold syncFeedlandSource. keeps_tombstones.
  destruct (buildFeedlandOpmlUrl env source); keeps_tombstones.
Qed.

Lemma syncMsFeeds_keeps_tombstones env source channel feeds :
  forall acc, keeps tombstonesKept (syncMsFeeds env source channel feeds acc).
Proof.
  induction feeds as [|feed rest IH]; intros acc; simpl; keeps_tombstones.
Qed.

Lemma syncMsChannels_keeps_tombstones env source allFeeds channels :
  forall acc,
    keeps tombstonesKept (syncMsChannels env source allFeeds channels acc).
Proof.
  induction channels as [|channel rest IH]; intros acc; simpl;
    keeps_tombstones.
  apply syncMsFeeds_keeps_tombstones.
Qed.

Lemma syncMicrosubSource_keeps_tombstones env source :
  keeps tombstonesKept (syncMicrosubSource env source).
Proof.
  unfold syncMicrosubSource. keeps_tombstones.
  destruct (microsub env) as [[allChannels allFeeds]|]; keeps_tombstones.
  destruct a; keeps_tombstones.
  apply syncMsChannels_keeps_tombstones.
Qed.

Lemma syncSource_keeps_tombstones env source :
  keeps tombstonesKept (syncSource env source).
Proof.
  unfold syncSource.
  destruct (s_type source);
    auto using syncOpmlSource_keeps_tombstones,
               syncFeedlandSource_keeps_tombstones,
               syncMicrosubSource_keeps_tombstones.
Qed.

Lemma syncSources_keeps_tombstones env srcs :
  forall success failed,
    keeps tombstonesKept (syncSources env srcs success failed).
Proof.
  induction srcs as [|source rest IH]; intros success failed; simpl;
    keeps_tombstones.
  - apply syncSource_keeps_tombstones.
  - destruct a; apply IH.
Qed.

(** C1.  When a stored blog with the candidate's feed URL is marked
    deleted, [upsertBlog] writes nothing and returns
    [{ upserted: false, modified: false, skippedDeleted: true }]; and no
    source sync (any adapter, and the whole loop over the sources of a
    run) changes or removes a blog that is marked deleted. *)
Theorem upsertBlog_never_resurrects :
  (forall env data db d,
      storeFault env BlogsColl FindOne = None ->
      In d (blogs db) ->
      b_feedUrl d = c_feedUrl data ->
      b_status d = Deleted ->
      upsertBlog env data db = (Ok skippedResult, db))
  /\ (forall env source db,
         tombstonesKept db (snd (syncSource env source db)))
  /\ (forall env srcs db,
         tombstonesKept db (snd (syncSources env srcs 0 0 db))).
Proof.
  split; [|split].
  - intros env data db d Hok Hin Hurl Hdel.
    unfold upsertBlog, bind. rewrite call_ok by assumption. simpl.
    destruct (find_first (isDeletedWithUrl (c_feedUrl data)) (blogs db) d Hin)
      as [x Hx].
    { unfold isDeletedWithUrl. rewrite Hurl, Hdel, String.eqb_refl.
      reflexivity. }
    unfold findOne. now rewrite Hx.
  - intros env source db.
    destruct (syncSource env source db) as [r db'] eqn:E.
    exact (syncSource_keeps_tombstones env source db r db' E).
  - intros env srcs db.
    destruct (syncSources env srcs 0 0 db) as [r db'] eqn:E.
    exact (syncSources_keeps_tombstones env srcs 0 0 db r db' E).
Qed.

Lemma upsertBlog_never_resurrects_witness :
  upsertBlog sampleEnv (sampleCandidate feedUrlA (Some 7))
             (mkDb [sampleBlog 1 feedUrlA (Some 7) Deleted] [] [] None 2)
  = (Ok skippedResult,
     mkDb [sampleBlog 1 feedUrlA (Some 7) Deleted] [] [] None 2).
Proof.
  apply (proj1 upsertBlog_never_resurrects sampleEnv
           (sampleCandidate feedUrlA (Some 7))
           (mkDb [sampleBlog 1 feedUrlA (Some 7) Deleted] [] [] None 2)
           (sampleBlog 1 feedUrlA (Some 7) Deleted)).
  - reflexivity.
  - simpl. auto.
  - reflexivity.
  - reflexivity.
Defined.

(** ** The retention sweep *)

(** What the sweep does when the store answers: it removes the items
    that match [publishedBefore] and reports their number. *)
Lemma deleteOldItems_spec env maxAgeDays db :
  storeFault env ItemsColl DeleteMany = None ->
  deleteOldItems env maxAgeDays db
  = (Ok (countMatching (publishedBefore (cutoffOf env maxAgeDays)) (items db)),
     withItems db
       (deleteMany (publishedBefore (cutoffOf env maxAgeDays)) (items db))).
Proof.
  intros Hok. unfold deleteOldItems. now rewrite call_ok.
Qed.

(** On items whose [published] is a [Date] the sweep is the strict
    comparison with the cutoff: an item at the cutoff instant stays. *)
Lemma deleteOldItems_dates env maxAgeDays db i ms :
  storeFault env ItemsColl DeleteMany = None ->
  In i (items db) ->
  i_published i = DateObj ms ->
  (In i (items (snd (deleteOldItems env maxAgeDays db)))
   <-> (cutoffOf env maxAgeDays <= ms)%Z).
Proof.
  intros Hok Hin Hp. rewrite deleteOldItems_spec by assumption. simpl.
  unfold deleteMany. rewrite filter_In. unfold publishedBefore. rewrite Hp.
  rewrite negb_true_iff, Z.ltb_ge. tauto.
Qed.

(** An item whose [published] is an ISO string is never swept, however
    old it is: this is what [upsertItem] stores for every item that comes
    from [normalizeItem] or [normalizeJsonItem]. *)
Lemma deleteOldItems_keeps_iso_strings env maxAgeDays db i ms :
  In i (items db) ->
  i_published i = IsoStr ms ->
  In i (items (snd (deleteOldItems env maxAgeDays db))).
Proof.
  intros Hin Hp. unfold deleteOldItems, call.
  destruct (storeFault env ItemsColl DeleteMany); simpl; auto.
  unfold deleteMany. rewrite filter_In. unfold publishedBefore.
  now rewrite Hp.
Qed.

Lemma normalizeItem_published_iso env item feedUrl :
  exists ms, fi_published (normalizeItem env item feedUrl) = IsoStr ms.
Proof.
  unfold normalizeItem, isoOrNow. simpl.
  destruct (x_pubdate item); [|destruct (x_date item)]; eauto.
Qed.

(** C6, at a failing input.  A blog whose feed carries one item published
    at the epoch is synced; the item is stored with the ISO string of its
    date.  The sweep that follows, with a cutoff seven days before a
    clock reading of 10^12 ms, finds the item older than the cutoff by
    its instant and deletes nothing. *)
Theorem retention_sweep_misses_synced_items :
  let env := setFetch sampleEnv feedUrlA (Ok (XmlFeed noMeta [oldXmlItem])) in
  let blog := sampleBlog 1 feedUrlA None Active in
  let db0 := mkDb [blog] [] [] None 2 in
  let db1 := snd (syncBlogItems env blog 50 db0) in
  (exists i, items db1 = [i]
             /\ (instant (i_published i) < cutoffOf env 7)%Z)
  /\ deleteOldItems env 7 db1 = (Ok 0, db1).
Proof.
  cbv zeta. split; [|vm_compute; reflexivity].
  eexists. split; [vm_compute; reflexivity|].
  vm_compute. reflexivity.
Qed.

(** ** The FeedLand adapter *)

Lemma writesOnly_refl P db : writesOnly P db db.
Proof. intros b Hin. now left. Qed.

Lemma writesOnly_trans P a b c :
  writesOnly P a b -> writesOnly P b c -> writesOnly P a c.
Proof.
  intros H1 H2 x Hin. destruct (H2 x Hin) as [H|H]; auto.
Qed.

Lemma upsertBlog_writes env data :
  keeps (writesOnly (fun b => b_category b = c_category data))
        (upsertBlog env data).
Proof.
  intros db r db' H.
  destruct (upsertBlog_cases _ _ _ _ _ H)
    as [->|[_ [(old & bs & Hupd & ->)|[_ ->]]]].
  - apply writesOnly_refl.
  - intros b Hin. simpl in Hin.
    destruct (updateFirst_some _ _ _ _ _ Hupd) as (l1 & l2 & Hl & -> & _).
    rewrite Hl. rewrite !in_app_iff in *. simpl in *.
    destruct Hin as [Hin|[<-|Hin]]; auto.
  - intros b Hin. simpl in Hin. rewrite in_app_iff in Hin. simpl in Hin.
    destruct Hin as [Hin|[<-|[]]]; auto.
Qed.

Lemma writesOnly_weaken (P Q : Blog -> Prop) db db' :
  (forall b, P b -> Q b) -> writesOnly P db db' -> writesOnly Q db db'.
Proof. intros HPQ H b Hin. destruct (H b Hin); auto. Qed.

Lemma upsertBlogs_writes env (Q : Blog -> Prop) cands :
  Forall (fun c => forall b, b_category b = c_category c -> Q b) cands ->
  forall added updated,
    keeps (writesOnly Q) (upsertBlogs env cands added updated).
Proof.
  induction 1 as [|data rest Hd Hrest IH]; intros added updated; simpl.
  - apply keeps_ret, writesOnly_refl.
  - apply (keeps_bind _ (writesOnly_trans Q)).
    + intros db r db' H. eapply writesOnly_weaken; [exact Hd|].
      eapply upsertBlog_writes, H.
    + intros r. destruct (upserted r); [|destruct (modified r)]; apply IH.
Qed.

Lemma updateSourceSyncStatus_writes env Q id st :
  keeps (writesOnly Q) (updateSourceSyncStatus env id st).
Proof.
  intros db r db' H b Hin. left.
  now rewrite <- (updateSourceSyncStatus_keeps_blogs _ _ _ _ _ _ H).
Qed.

Lemma orStr_nonempty a b : orStr a b <> "" <-> truthy a = true \/ b <> "".
Proof.
  unfold orStr, truthy. destruct a as [s|].
  - destruct (s =? "") eqn:E; simpl.
    + split; [now right | intros [H|H]; [discriminate|assumption]].
    + apply String.eqb_neq in E. split; auto.
  - split; [now right | intros [H|H]; [discriminate|assumption]].
Qed.

Lemma truthy_orElse a b : truthy (orElse a b) = truthy a || truthy b.
Proof. unfold orElse. destruct (truthy a) eqn:E; simpl; auto. Qed.

(** The chain of the adapter over the parsed entry: the category of the
    entry, else the category filter of the source, else the account
    name, else the empty string. *)
Lemma feedlandCandidate_category_chain env source e :
  c_category (feedlandCandidate source e)
  = (if negb (e_category e =? "") then e_category e
     else if truthy (s_feedlandCategory source)
          then interp (s_feedlandCategory source)
          else if truthy (s_feedlandUsername source)
               then interp (s_feedlandUsername source)
               else "")
  /\ (c_category (feedlandCandidate source e) <> ""
      <-> e_category e <> ""
          \/ truthy (s_feedlandCategory source) = true
          \/ truthy (s_feedlandUsername source) = true)
  /\ (truthy (s_feedlandUsername source) = true ->
      forall db b,
        In b (blogs (snd (syncFeedlandSource env source db))) ->
        In b (blogs db) \/ b_category b <> "").
Proof.
  split; [|split].
  - simpl. unfold feedlandCategoryOf, orElse, orStr, truthy.
    destruct (e_category e =? "") eqn:Ec;
      destruct (s_feedlandCategory source) as [c|];
      try destruct (c =? "") eqn:Ecat;
      destruct (s_feedlandUsername source) as [u|];
      try destruct (u =? "") eqn:Eu;
      simpl; rewrite ?Ec, ?Ecat, ?Eu; simpl; rewrite ?Ec, ?Ecat, ?Eu;
      try reflexivity;
      repeat match goal with
             | H : (?x =? "") = true |- _ => apply String.eqb_eq in H; subst x
             end; reflexivity.
  - simpl. unfold feedlandCategoryOf.
    rewrite orStr_nonempty, !truthy_orElse, !orb_true_iff.
    simpl. rewrite negb_true_iff, String.eqb_neq. tauto.
  - intros Huser db b.
    destruct (syncFeedlandSource env source db) as [r db'] eqn:E. simpl.
    revert b. change (writesOnly (fun b => b_category b <> "") db db').
    revert E. generalize db r db'.
    change (keeps (writesOnly (fun b => b_category b <> ""))
                  (syncFeedlandSource env source)).
    unfold syncFeedlandSource.
    apply (keeps_tryCatch _ (writesOnly_trans _)).
    + apply (keeps_bind _ (writesOnly_trans _)).
      * apply (keeps_pure _ (writesOnly_refl _)). intros d.
        destruct (buildFeedlandOpmlUrl env source);
          [apply fetchAndParseOpml_pure|reflexivity].
      * intros entries. apply (keeps_bind _ (writesOnly_trans _)).
        -- apply upsertBlogs_writes. apply Forall_forall.
           intros c Hc b0 Hb0. apply in_map_iff in Hc.
           destruct Hc as (e0 & <- & _). rewrite Hb0. simpl.
           unfold feedlandCategoryOf.
           rewrite orStr_nonempty, !truthy_orElse, Huser.
           left. now rewrite orb_true_r.
        -- intros counts. apply (keeps_bind _ (writesOnly_trans _)).
           ++ apply updateSourceSyncStatus_writes.
           ++ intros _. apply keeps_ret, writesOnly_refl.
    + intros error. apply (keeps_bind _ (writesOnly_trans _)).
      * apply updateSourceSyncStatus_writes.
      * intros _. apply keeps_ret, writesOnly_refl.
Qed.

(** C9.  The specification, and the comment above the chain in the
    adapter, name as the first link the category declared on the outline
    entry.  The parser never reads the [category] attribute of an
    outline: the category of a parsed entry is the label of the folder
    around it, and empty for every top-level entry, whatever the entry
    declares.  So for a top-level entry the adapter always falls back to
    the category filter or the account name of the source; the entry of
    the account "dave" that declares "blogs,tech" lands in the category
    "dave"; and for a source whose account name the update form has
    stored as null it lands in the empty category. *)
Theorem feedland_outline_category_is_not_read :
  (forall source text title type xmlUrl htmlUrl category,
      Forall (fun e =>
                e_category e = ""
                /\ c_category (feedlandCandidate source e)
                   = orStr (orElse (s_feedlandCategory source)
                                   (s_feedlandUsername source)) "")
             (entriesOfOutline
                (mkOutline
                   (Some (mkAttrs text title type xmlUrl htmlUrl category))
                   [])))
  /\ attr categorisedOutline a_category = Some "blogs,tech"
  /\ fst (syncFeedlandSource daveEnv feedlandUser emptyDb)
     = Ok (SourceSynced 1 0 0 1)
  /\ map (fun b => (b_feedUrl b, b_category b))
         (blogs (snd (syncFeedlandSource daveEnv feedlandUser emptyDb)))
     = [(feedUrlA, "dave")]
  /\ fst (syncFeedlandSource noAccountEnv feedlandNoUser emptyDb)
     = Ok (SourceSynced 1 0 0 1)
  /\ map (fun b => (b_feedUrl b, b_category b))
         (blogs (snd (syncFeedlandSource noAccountEnv feedlandNoUser
                                         emptyDb)))
     = [(feedUrlA, "")].
Proof.
  split.
  - intros source text title type xmlUrl htmlUrl category.
    unfold entriesOfOutline, entryOf. cbn [o_kids].
    destruct (truthy _); constructor; [|constructor].
    split; [reflexivity|].
    cbn [feedlandCandidate c_category e_category]. unfold feedlandCategoryOf.
    cbn [e_category]. reflexivity.
  - repeat split; vm_compute; reflexivity.
Qed.

(** ** Uniqueness of live blogs *)

Lemma live_iff b : live b = true <-> b_status b <> Deleted.
Proof.
  unfold live. rewrite negb_true_iff.
  destruct (status_eqb (b_status b) Deleted) eqn:E.
  - apply status_eqb_eq in E. split; [discriminate|contradiction].
  - split; auto. intros _ H. apply status_eqb_eq in H. congruence.
Qed.

(** In-place updates that keep the keys and revive no blog keep the keys
    of the live blogs without repetition. *)
Lemma liveKeys_in l l' k :
  Forall2 (fun x y => blogKey y = blogKey x
                      /\ (live y = true -> live x = true)) l l' ->
  In k (map blogKey (filter live l')) -> In k (map blogKey (filter live l)).
Proof.
  induction 1 as [|x y l l' [Hk Hl] _ IH]; simpl; auto.
  destruct (live y) eqn:Ey.
  - rewrite (Hl eq_refl). simpl. rewrite Hk. intros [H|H]; auto.
  - intros H. destruct (live x); simpl; auto.
Qed.

Lemma liveKeys_NoDup l l' :
  Forall2 (fun x y => blogKey y = blogKey x
                      /\ (live y = true -> live x = true)) l l' ->
  NoDup (map blogKey (filter live l)) ->
  NoDup (map blogKey (filter live l')).
Proof.
  induction 1 as [|x y l l' [Hk Hl] HF IH]; simpl; auto.
  destruct (live y) eqn:Ey.
  - rewrite (Hl eq_refl). simpl. intros Hnd. inversion Hnd; subst.
    constructor; auto. rewrite Hk. intros Hin. apply H1.
    eapply liveKeys_in; eauto.
  - intros Hnd. apply IH. destruct (live x); simpl in Hnd; auto.
    now inversion Hnd.
Qed.

Lemma Forall2_same {A : Type} (R : A -> A -> Prop) l :
  (forall x, R x x) -> Forall2 R l l.
Proof. intros H. induction l; constructor; auto. Qed.

Lemma updatedInPlace_refl id db : updatedInPlace id db db.
Proof.
  split; auto. apply Forall2_same. intros x. repeat split; auto.
Qed.

Lemma updatedInPlace_same id db db' :
  blogs db' = blogs db -> nextId db' = nextId db -> updatedInPlace id db db'.
Proof.
  intros Hb Hn. split; auto. rewrite Hb.
  apply Forall2_same. intros x. repeat split; auto.
Qed.

Lemma Forall2_compose {A : Type} (R S T : A -> A -> Prop) l1 l2 l3 :
  (forall x y z, R x y -> S y z -> T x z) ->
  Forall2 R l1 l2 -> Forall2 S l2 l3 -> Forall2 T l1 l3.
Proof.
  intros H H12. revert l3.
  induction H12; intros l3 H23; inversion H23; subst; constructor; eauto.
Qed.

Lemma updatedInPlace_trans id a b c :
  updatedInPlace id a b -> updatedInPlace id b c -> updatedInPlace id a c.
Proof.
  intros [Hn1 H1] [Hn2 H2]. split; [congruence|].
  eapply Forall2_compose; [|exact H1|exact H2].
  intros x y z (Hi1 & Hk1 & Hl1) (Hi2 & Hk2 & Hl2).
  repeat split; try congruence.
  destruct (live z) eqn:Ez; [|left; discriminate].
  destruct Hl2 as [Hl2|[Hid2 _]].
  - destruct Hl1 as [Hl1|[Hid1 _]]; [left; auto|right; auto].
  - right. split; congruence.
Qed.

(** What an in-place update keeps, when the blogs that carry the
    distinguished id are live. *)
Lemma updatedInPlace_inv id db db' :
  updatedInPlace id db db' ->
  Forall (fun x => Some (b_id x) = id -> live x = true) (blogs db) ->
  (idsFresh db -> idsFresh db') /\ (uniquePerKey db -> uniquePerKey db').
Proof.
  intros [Hn HF] Hlive. unfold idsFresh, uniquePerKey, liveBlogs.
  rewrite Hn. generalize (nextId db). intros n.
  split.
  - intros Hfresh. revert Hfresh. clear Hlive.
    induction HF as [|x y l l' (Hi & _) _ IH]; intros Hfresh;
      inversion Hfresh; subst; constructor; auto. congruence.
  - apply liveKeys_NoDup. revert Hlive.
    induction HF as [|x y l l' (Hi & Hk & Hl) _ IH]; intros Hlive;
      inversion Hlive; subst; constructor; auto.
    split; auto. destruct Hl as [Hl|[Hid _]]; auto.
Qed.

Lemma updateFirst_Forall2 {D : Type} (R : D -> D -> Prop) p f l old l' :
  (forall x, R x x) ->
  (forall x, In x l -> p x = true -> R x (f x)) ->
  updateFirst p f l = Some (old, l') -> Forall2 R l l'.
Proof.
  intros Hrefl Hf H.
  destruct (updateFirst_some _ _ _ _ _ H) as (l1 & l2 & -> & -> & Hp & _).
  apply Forall2_app; [now apply Forall2_same|].
  constructor; [|now apply Forall2_same].
  apply Hf; auto. apply in_or_app. right. now left.
Qed.

Lemma updateMany_Forall2 {D : Type} (R : D -> D -> Prop) p f (l : list D) :
  (forall x, R x x) ->
  (forall x, p x = true -> R x (f x)) ->
  Forall2 R l (updateMany p f l).
Proof.
  intros Hrefl Hf. induction l as [|x l IH]; simpl; constructor; auto.
  destruct (p x) eqn:E; auto.
Qed.

Lemma updateBlogById_inPlace env i f id :
  (forall x, b_id x = i ->
             b_id (f x) = b_id x /\ blogKey (f x) = blogKey x
             /\ ((live (f x) = true -> live x = true)
                 \/ (Some i = id /\ live (f x) = true))) ->
  keeps (updatedInPlace id) (updateBlogById env i f).
Proof.
  intros Hf. apply keeps_call; [apply updatedInPlace_refl|].
  intros db.
  destruct (updateFirst _ f (blogs db)) as [[old bs]|] eqn:E; simpl;
    [|apply updatedInPlace_refl].
  split; auto. simpl.
  eapply updateFirst_Forall2; [| |exact E].
  - intros x. repeat split; auto.
  - intros x _ Hx. apply Nat.eqb_eq in Hx.
    destruct (Hf x Hx) as (Hi & Hk & Hl). repeat split; auto.
    destruct Hl as [Hl|[Hid Hl]]; auto. right. split; congruence.
Qed.

Lemma applyFetchStatus_live env st b : live (applyFetchStatus env st b) = true.
Proof. now destruct st. Qed.

Lemma updateBlogStatus_inPlace env i st :
  keeps (updatedInPlace (Some i)) (updateBlogStatus env i st).
Proof.
  unfold updateBlogStatus.
  apply (keeps_bind _ (updatedInPlace_trans _)).
  - apply updateBlogById_inPlace. intros x _.
    repeat split; try (now destruct st).
    right. split; auto. apply applyFetchStatus_live.
  - intros _. apply keeps_ret, updatedInPlace_refl.
Qed.

Lemma upsertItem_blogs env blogId data db r db' :
  upsertItem env blogId data db = (r, db') ->
  blogs db' = blogs db /\ nextId db' = nextId db
  /\ sources db' = sources db /\ meta db' = meta db.
Proof.
  intros H. apply call_cases in H.
  destruct H as [(e & _ & ->)|[_ ->]]; auto.
  destruct (updateFirst _ _ (items db)) as [[o its]|]; simpl; auto.
Qed.

Lemma upsertItems_inPlace env id blogId its :
  forall added, keeps (updatedInPlace id) (upsertItems env blogId its added).
Proof.
  induction its as [|it rest IH]; intros added; simpl.
  - apply keeps_ret, updatedInPlace_refl.
  - apply (keeps_bind _ (updatedInPlace_trans _)); [|intros r; apply IH].
    intros db r db' H. apply upsertItem_blogs in H.
    apply updatedInPlace_same; tauto.
Qed.

Lemma fetchAndParseFeed_pure env url maxItems db :
  snd (fetchAndParseFeed env url maxItems db) = db.
Proof.
  unfold fetchAndParseFeed. destruct (fetchFeed env url) as [[m its|m its]|];
    reflexivity.
Qed.

Lemma syncBlogItems_inPlace env blog maxItems :
  keeps (updatedInPlace (Some (b_id blog))) (syncBlogItems env blog maxItems).
Proof.
  unfold syncBlogItems.
  apply (keeps_tryCatch _ (updatedInPlace_trans _)).
  - apply (keeps_bind _ (updatedInPlace_trans _)).
    + apply (keeps_pure _ (updatedInPlace_refl _)).
      intros db. apply fetchAndParseFeed_pure.
    + intros feed. apply (keeps_bind _ (updatedInPlace_trans _)).
      * apply upsertItems_inPlace.
      * intros added. apply (keeps_bind _ (updatedInPlace_trans _)).
        -- apply updateBlogStatus_inPlace.
        -- intros _. apply keeps_ret, updatedInPlace_refl.
  - intros error. apply (keeps_bind _ (updatedInPlace_trans _)).
    + apply updateBlogStatus_inPlace.
    + intros _. apply keeps_ret, updatedInPlace_refl.
Qed.

Lemma keepsInv_refl db : keepsInv db db.
Proof. now intros H. Qed.

Lemma keepsInv_trans a b c : keepsInv a b -> keepsInv b c -> keepsInv a c.
Proof. unfold keepsInv. auto. Qed.

(** An in-place update that revives no blog keeps the invariant. *)
Lemma updatedInPlace_keepsInv db db' :
  updatedInPlace None db db' -> keepsInv db db'.
Proof.
  intros H [Hf Hu].
  destruct (updatedInPlace_inv None db db' H) as [H1 H2].
  - apply Forall_forall. intros x _ Hx. discriminate.
  - split; auto.
Qed.

(** Inserting a blog whose key no live blog has keeps the invariant. *)
Lemma insertBlog_keepsInv db mk :
  (forall id, b_id (mk id) = id) ->
  ~ In (blogKey (mk (nextId db))) (map blogKey (liveBlogs db)) ->
  keepsInv db (insertBlog db mk).
Proof.
  intros Hid Hkey [Hf Hu]. split.
  - unfold idsFresh in *. simpl. apply Forall_app. split.
    + eapply Forall_impl; [|exact Hf]. simpl. intros b Hb. lia.
    + constructor; auto. rewrite Hid. lia.
  - unfold uniquePerKey, liveBlogs in *. simpl.
    rewrite filter_app, map_app. simpl.
    destruct (live (mk (nextId db))); simpl; [|now rewrite app_nil_r].
    eapply Permutation_NoDup; [apply Permutation_cons_append|].
    constructor; auto.
Qed.

Lemma upsertBlog_keepsInv env data :
  c_sourceId data <> None -> keeps keepsInv (upsertBlog env data).
Proof.
  intros Hsrc db r db' H.
  destruct (upsertBlog_cases _ _ _ _ _ H)
    as [->|[Hnone [(old & bs & Hupd & ->)|[Hupd ->]]]].
  - apply keepsInv_refl.
  - apply updatedInPlace_keepsInv. split; auto. simpl.
    eapply updateFirst_Forall2; [| |exact Hupd].
    + intros x. repeat split; auto.
    + intros x Hin Hx. unfold upsertFilter in Hx.
      apply andb_prop in Hx. destruct Hx as [Hurl Hs].
      repeat split.
      * unfold blogKey. simpl.
        destruct (c_sourceId data) as [s|]; [|contradiction].
        apply optId_eqb_eq in Hs. congruence.
      * left. intros _. apply live_iff. intros Hdel.
        pose proof (find_none _ _ Hnone x Hin) as Hno.
        unfold isDeletedWithUrl in Hno. rewrite Hurl, Hdel in Hno.
        discriminate.
  - apply insertBlog_keepsInv; [reflexivity|].
    intros Hin. apply in_map_iff in Hin. destruct Hin as (x & Hk & Hx).
    apply filter_In in Hx. destruct Hx as [Hx _].
    apply updateFirst_none in Hupd. rewrite Forall_forall in Hupd.
    specialize (Hupd x Hx). unfold upsertFilter, blogKey in *.
    simpl in Hk. injection Hk as Hu Hs. rewrite Hu, Hs, String.eqb_refl in Hupd.
    destruct (c_sourceId data) as [s|]; [|contradiction].
    simpl in Hupd. unfold optId_eqb in Hupd.
    destruct (optId_eq_dec (Some s) (Some s)); congruence.
Qed.

Lemma upsertBlogs_keepsInv env cands :
  Forall (fun c => c_sourceId c <> None) cands ->
  forall added updated, keeps keepsInv (upsertBlogs env cands added updated).
Proof.
  induction 1 as [|data rest Hd Hrest IH]; intros added updated; simpl.
  - apply keeps_ret, keepsInv_refl.
  - apply (keeps_bind _ keepsInv_trans).
    + now apply upsertBlog_keepsInv.
    + intros r. destruct (upserted r); [|destruct (modified r)]; apply IH.
Qed.

Lemma updateSourceSyncStatus_keepsInv env id st :
  keeps keepsInv (updateSourceSyncStatus env id st).
Proof.
  intros db r db' H. apply updatedInPlace_keepsInv.
  apply updatedInPlace_same.
  - eapply updateSourceSyncStatus_keeps_blogs, H.
  - apply call_cases in H. destruct H as [(e & _ & ->)|[_ ->]]; auto.
    destruct (updateFirst _ _ (sources db)) as [[o ss]|]; reflexivity.
Qed.

Lemma softDelete_inPlace env x :
  b_id (softDelete env x) = b_id x
  /\ blogKey (softDelete env x) = blogKey x
  /\ ((live (softDelete env x) = true -> live x = true)
      \/ (Some (b_id x) = None /\ live (softDelete env x) = true)).
Proof. repeat split. left. discriminate. Qed.

Lemma sweepOrphans_keepsInv env source current :
  keeps keepsInv (sweepOrphans env source current).
Proof.
  destruct current as [|id rest].
  - apply keeps_ret, keepsInv_refl.
  - apply keeps_call; [apply keepsInv_refl|].
    intros db. apply updatedInPlace_keepsInv. split; auto. simpl.
    apply updateMany_Forall2.
    + intros x. repeat split; auto.
    + intros x _. apply softDelete_inPlace.
Qed.

Create HintDb inv.

#[local] Hint Resolve updateSourceSyncStatus_keepsInv sweepOrphans_keepsInv
  : inv.

Ltac keeps_inv :=
  repeat first
    [ solve [auto with inv nocore]
    | simple apply (keeps_ret _ keepsInv_refl)
    | simple apply (keeps_throw _ keepsInv_refl)
    | simple apply (keeps_bind _ keepsInv_trans)
    | simple apply (keeps_tryCatch _ keepsInv_trans)
    | simple apply (keeps_pure _ keepsInv_refl); intro;
      first [ apply parseOpml_pure | apply fetchAndParseOpml_pure ]
    | simple apply (keeps_call _ keepsInv_refl); intro;
      apply keepsInv_refl
    | match goal with |- forall _, keeps _ _ => intro end ].

Lemma candidates_have_source {A : Type} (f : A -> Candidate) l :
  (forall a, c_sourceId (f a) <> None) ->
  Forall (fun c => c_sourceId c <> None) (map f l).
Proof.
  intros H. apply Forall_forall. intros c Hc.
  apply in_map_iff in Hc. destruct Hc as (a & <- & _). apply H.
Qed.

Lemma syncOpmlSource_keepsInv env source :
  keeps keepsInv (syncOpmlSource env source).
Proof.
  unfold syncOpmlSource. keeps_inv.
  - destruct (s_type source); keeps_inv.
  - apply upsertBlogs_keepsInv, candidates_have_source. discriminate.
Qed.

Lemma syncFeedlandSource_keepsInv env source :
  keeps keepsInv (syncFeedlandSource env source).
Proof.
  unfold syncFeedlandSource. keeps_inv.
  - destruct (buildFeedlandOpmlUrl env source); keeps_inv.
  - apply upsertBlogs_keepsInv, candidates_have_source. discriminate.
Qed.

Lemma syncMsFeeds_keepsInv env source channel feeds :
  forall acc, keeps keepsInv (syncMsFeeds env source channel feeds acc).
Proof.
  induction feeds as [|feed rest IH]; intros acc; simpl; keeps_inv.
  apply upsertBlog_keepsInv. discriminate.
Qed.

Lemma syncMsChannels_keepsInv env source allFeeds channels :
  forall acc,
    keeps keepsInv (syncMsChannels env source allFeeds channels acc).
Proof.
  induction channels as [|channel rest IH]; intros acc; simpl; keeps_inv.
  apply syncMsFeeds_keepsInv.
Qed.

Lemma syncMicrosubSource_keepsInv env source :
  keeps keepsInv (syncMicrosubSource env source).
Proof.
  unfold syncMicrosubSource. keeps_inv.
  destruct (microsub env) as [[allChannels allFeeds]|]; keeps_inv.
  destruct a; keeps_inv.
  apply syncMsChannels_keepsInv.
Qed.

Lemma syncSource_keepsInv env source : keeps keepsInv (syncSource env source).
Proof.
  unfold syncSource.
  destruct (s_type source);
    auto using syncOpmlSource_keepsInv, syncFeedlandSource_keepsInv,
               syncMicrosubSource_keepsInv.
Qed.

Lemma getBlogByFeedUrl_cases env url db r db' :
  getBlogByFeedUrl env url db = (r, db') ->
  db' = db
  /\ (r = Ok None ->
      forall x, In x (blogs db) -> b_feedUrl x = url -> live x = false).
Proof.
  intros H. apply call_cases in H.
  destruct H as [(e & -> & ->)|[-> ->]]; split; auto; try discriminate.
  simpl. intros [= Hfind] x Hin Hurl.
  pose proof (find_none _ _ Hfind x Hin) as Hno. simpl in Hno.
  rewrite Hurl, String.eqb_refl in Hno. simpl in Hno. exact Hno.
Qed.

Lemma no_live_key db url src :
  (forall x, In x (blogs db) -> b_feedUrl x = url -> live x = false) ->
  ~ In (url, src) (map blogKey (liveBlogs db)).
Proof.
  intros Hno Hin. apply in_map_iff in Hin. destruct Hin as (x & Hk & Hx).
  apply filter_In in Hx. destruct Hx as [Hx Hlive].
  injection Hk as Hu _. rewrite (Hno x Hx Hu) in Hlive. discriminate.
Qed.

Lemma createBlogHandler_keepsInv env data db r db' :
  createBlogHandler env data db = (r, db') -> keepsInv db db'.
Proof.
  unfold createBlogHandler.
  destruct (n_feedUrl data =? ""); [intros [= _ <-]; apply keepsInv_refl|].
  destruct (getBlogByFeedUrl env (n_feedUrl data) db) as [r1 db1] eqn:E1.
  destruct (getBlogByFeedUrl_cases _ _ _ _ _ E1) as [-> Hnone].
  destruct r1 as [[existing|]|e];
    try (intros [= _ <-]; apply keepsInv_refl).
  specialize (Hnone eq_refl).
  destruct (createBlog env data db) as [r2 db2] eqn:E2.
  apply call_cases in E2. simpl in E2.
  destruct E2 as [(e & -> & ->)|[-> ->]];
    [intros [= _ <-]; apply keepsInv_refl|].
  destruct (syncBlogItems env _ 50 _) as [r3 db3] eqn:E3.
  intros [= _ <-]. apply syncBlogItems_inPlace in E3. simpl in E3.
  intros Hinv.
  assert (Hinv2 : storeInv (insertBlog db (newBlogDoc env data))).
  { revert Hinv. apply insertBlog_keepsInv; [reflexivity|].
    apply no_live_key, Hnone. }
  destruct (updatedInPlace_inv _ _ _ E3) as [H1 H2].
  - simpl. apply Forall_app. split.
    + destruct Hinv as [Hfresh _]. eapply Forall_impl; [|exact Hfresh].
      simpl. intros x Hlt [= Hx]. lia.
    + constructor; auto.
  - destruct Hinv2. split; auto.
Qed.

Lemma webhook_subscribe_keepsInv env url channelName title db r db' :
  handleMicrosubWebhook env Subscribe url channelName title db = (r, db') ->
  keepsInv db db'.
Proof.
  unfold handleMicrosubWebhook, bind.
  destruct (getBlogByFeedUrl env url db) as [r1 db1] eqn:E1.
  destruct (getBlogByFeedUrl_cases _ _ _ _ _ E1) as [-> Hnone].
  destruct r1 as [[existing|]|e].
  - destruct (jsstr_eqb _ _); intros [= _ <-]; apply keepsInv_refl.
  - specialize (Hnone eq_refl).
    destruct (upsertBlog env _ db) as [r2 db2] eqn:E2.
    intros H.
    assert (Hdb : db' = db2) by (destruct r2; unfold ret in H; congruence).
    subst db'. clear H.
    destruct (upsertBlog_cases _ _ _ _ _ E2)
      as [->|[Htomb [(old & bs & Hupd & ->)|[Hupd ->]]]].
    + apply keepsInv_refl.
    + exfalso.
      destruct (updateFirst_some _ _ _ _ _ Hupd)
        as (l1 & l2 & Hl & _ & Hold & _).
      assert (Hin : In old (blogs db)).
      { rewrite Hl. apply in_or_app. right. now left. }
      unfold upsertFilter in Hold. simpl in Hold.
      rewrite andb_true_r in Hold.
      pose proof (find_none _ _ Htomb old Hin) as Hno.
      unfold isDeletedWithUrl in Hno. simpl in Hno. rewrite Hold in Hno.
      apply String.eqb_eq in Hold.
      pose proof (Hnone old Hin Hold) as Hdead. unfold live in Hdead.
      simpl in Hno. rewrite Hno in Hdead. discriminate.
    + apply insertBlog_keepsInv; [reflexivity|].
      apply no_live_key, Hnone.
  - intros [= _ <-]. apply keepsInv_refl.
Qed.

Lemma deleteBlog_keepsInv env id : keeps keepsInv (deleteBlog env id).
Proof.
  unfold deleteBlog. apply (keeps_bind _ keepsInv_trans).
  - apply keeps_call; [apply keepsInv_refl|]. intros db.
    apply updatedInPlace_keepsInv, updatedInPlace_same; reflexivity.
  - intros _ db r db' H. apply updatedInPlace_keepsInv.
    revert db r db' H. apply updateBlogById_inPlace.
    intros x _. repeat split. left. discriminate.
Qed.

Lemma creates_keepsInv db db' : creates db db' -> keepsInv db db'.
Proof.
  destruct 1.
  - eapply upsertBlog_keepsInv; eauto.
  - eapply syncSource_keepsInv; eauto.
  - eapply createBlogHandler_keepsInv; eauto.
  - eapply webhook_subscribe_keepsInv; eauto.
  - eapply deleteBlog_keepsInv; eauto.
Qed.

Lemma reachable_storeInv db : reachable db -> storeInv db.
Proof.
  induction 1 as [|db db' _ IH Hstep].
  - split; [constructor|constructor].
  - exact (creates_keepsInv _ _ Hstep IH).
Qed.

(** C7, as the code has it.  In every store reached from the empty store
    by the blog-creating operations (the upsert of an adapter, a whole
    source sync, the create handler with its duplicate check, a subscribe
    event of the webhook) and by soft deletes, there is at most one
    non-deleted blog per pair of feed URL and source id, and each of
    these operations leads to a store in which this holds again. *)
Theorem one_live_blog_per_key db :
  reachable db ->
  uniquePerKey db /\ (forall db', creates db db' -> uniquePerKey db').
Proof.
  intros H. pose proof (reachable_storeInv db H) as Hinv.
  split; [exact (proj2 Hinv)|].
  intros db' Hstep. exact (proj2 (creates_keepsInv _ _ Hstep Hinv)).
Qed.

Lemma twoSourcesDb_reachable : reachable twoSourcesDb.
Proof.
  apply reach_step with (db := oneSourceDb).
  - apply reach_step with (db := emptyDb); [apply reach_empty|].
    eapply (by_upsert sampleEnv (sampleCandidate feedUrlA (Some 1)));
      [discriminate|].
    unfold oneSourceDb. apply surjective_pairing.
  - eapply (by_upsert sampleEnv (sampleCandidate feedUrlA (Some 2)));
      [discriminate|].
    unfold twoSourcesDb. apply surjective_pairing.
Defined.

Lemma one_live_blog_per_key_witness :
  uniquePerKey twoSourcesDb
  /\ (forall db', creates twoSourcesDb db' -> uniquePerKey db').
Proof.
  apply (one_live_blog_per_key twoSourcesDb).
  exact twoSourcesDb_reachable.
Defined.

Lemma twoBlogsDb_reachable : reachable twoBlogsDb.
Proof.
  eapply reach_step;
    [eapply reach_step; [apply reach_empty|]|];
    eapply by_operator; apply surjective_pairing.
Qed.

Lemma recreatedDb_reachable : reachable recreatedDb.
Proof.
  eapply reach_step;
    [eapply reach_step; [eapply reach_step; [apply reach_empty|]|]|].
  - eapply by_operator. apply surjective_pairing.
  - eapply by_delete. apply surjective_pairing.
  - eapply by_operator. apply surjective_pairing.
Qed.

Lemma not_NoDup_twice {A : Type} (x : A) : ~ NoDup [x; x].
Proof.
  intros H. inversion H as [|y l Hnotin _]; subst. apply Hnotin. now left.
Qed.

(** C7 as stated fails: two sources that supply the same feed URL leave
    two non-deleted blogs with that feed URL, one per source.  And the
    operations that do not create a blog do not keep even one blog per
    feed URL and source: the edit form gives a blog a feed URL that is
    in use, and the refresh of a deleted blog, after the operator
    created the blog again, makes it one of two that are not deleted. *)
Lemma two_sources_one_feed_url :
  (reachable twoSourcesDb
   /\ map b_feedUrl (liveBlogs twoSourcesDb) = [feedUrlA; feedUrlA]
   /\ map b_sourceId (liveBlogs twoSourcesDb) = [Some 1; Some 2]
   /\ ~ uniquePerFeedUrl twoSourcesDb)
  /\ (reachable twoBlogsDb
      /\ fst (updateBlogHandler sampleEnv 1 (editTo feedUrlA) twoBlogsDb)
         = Edited
      /\ map blogKey (liveBlogs editedDb)
         = [(feedUrlA, None); (feedUrlA, None)]
      /\ ~ uniquePerKey editedDb)
  /\ (reachable recreatedDb
      /\ map (fun b => (b_id b, b_feedUrl b, b_status b)) (blogs recreatedDb)
         = [(0, feedUrlA, Deleted); (1, feedUrlA, Error)]
      /\ map blogKey (liveBlogs refreshedDb)
         = [(feedUrlA, None); (feedUrlA, None)]
      /\ ~ uniquePerKey refreshedDb).
Proof.
  split; [|split].
  - split; [exact twoSourcesDb_reachable|].
    split; [reflexivity|]. split; [reflexivity|].
    unfold uniquePerFeedUrl.
    change (map b_feedUrl (liveBlogs twoSourcesDb))
      with [feedUrlA; feedUrlA].
    apply not_NoDup_twice.
  - split; [exact twoBlogsDb_reachable|].
    split; [reflexivity|]. split; [reflexivity|].
    unfold uniquePerKey.
    change (map blogKey (liveBlogs editedDb))
      with [(feedUrlA, @None ObjectId); (feedUrlA, None)].
    apply not_NoDup_twice.
  - split; [exact recreatedDb_reachable|].
    split; [reflexivity|]. split; [reflexivity|].
    unfold uniquePerKey.
    change (map blogKey (liveBlogs refreshedDb))
      with [(feedUrlA, @None ObjectId); (feedUrlA, None)].
    apply not_NoDup_twice.
Qed.

(** ** The Microsub adapter: orphan detection *)

Lemma upsertBlog_ok env data db :
  noFaults env -> exists r, fst (upsertBlog env data db) = Ok r.
Proof.
  intros Hok. unfold upsertBlog, bind.
  rewrite call_ok by apply Hok. simpl.
  destruct (findOne _ (blogs db)); simpl; eauto.
  rewrite call_ok by apply Hok. simpl. eauto.
Qed.

Lemma syncMsFeeds_ok env source channel feeds :
  noFaults env ->
  forall acc db, exists acc' db',
    syncMsFeeds env source channel feeds acc db = (Ok acc', db')
    /\ ms_current acc' = ms_current acc ++ map mf_id feeds.
Proof.
  intros Hok. induction feeds as [|feed rest IH]; intros acc db; simpl.
  - exists acc, db. now rewrite app_nil_r.
  - destruct (upsertBlog_ok env (microsubCandidate env source channel feed)
                db Hok) as [r Hr].
    destruct (upsertBlog env _ db) as [r0 db1] eqn:E. simpl in Hr. subst r0.
    rewrite (bind_ok _ _ _ _ _ E).
    destruct (IH {| ms_added := if upserted r then S (ms_added acc)
                                else ms_added acc;
                    ms_updated := if upserted r then ms_updated acc
                                  else if modified r then S (ms_updated acc)
                                  else ms_updated acc;
                    ms_total := S (ms_total acc);
                    ms_current := ms_current acc ++ [mf_id feed] |} db1)
      as (acc' & db' & Hrun & Hcur).
    exists acc', db'. split; auto.
    rewrite Hcur. simpl. now rewrite <- app_assoc.
Qed.

Lemma syncMsChannels_ok env source allFeeds channels :
  noFaults env ->
  forall acc db, exists acc' db',
    syncMsChannels env source allFeeds channels acc db = (Ok acc', db')
    /\ ms_current acc'
       = ms_current acc
         ++ map mf_id
              (flat_map (fun ch => filter (fun f => mf_channelId f =? ch_id ch)
                                          allFeeds) channels).
Proof.
  intros Hok. induction channels as [|channel rest IH]; intros acc db; simpl.
  - exists acc, db. now rewrite app_nil_r.
  - unfold bind at 1. rewrite call_ok by apply Hok. simpl.
    destruct (syncMsFeeds_ok env source channel
                (filter (fun f => mf_channelId f =? ch_id channel) allFeeds)
                Hok acc db) as (acc1 & db1 & Hrun1 & Hcur1).
    rewrite (bind_ok _ _ _ _ _ Hrun1).
    destruct (IH acc1 db1) as (acc' & db' & Hrun & Hcur).
    exists acc', db'. split; auto.
    rewrite Hcur, Hcur1, map_app, app_assoc. reflexivity.
Qed.

Lemma updateSourceSyncStatus_ok env id st db :
  noFaults env ->
  exists db', updateSourceSyncStatus env id st db = (Ok tt, db')
              /\ blogs db' = blogs db.
Proof.
  intros Hok. unfold updateSourceSyncStatus. rewrite call_ok by apply Hok.
  destruct (updateFirst _ _ (sources db)) as [[o ss]|]; simpl; eauto.
Qed.

(** What the sync computes: the upserts, then the sweep when the list of
    current feed ids is not empty. *)
Lemma syncMicrosubSource_computed env source chs fds db :
  noFaults env ->
  microsub env = Some (chs, fds) ->
  exists acc db1 r db2,
    syncMsChannels env source fds (filter (channelQuery source) chs)
                   (mkMsAcc 0 0 0 []) db = (Ok acc, db1)
    /\ ms_current acc = currentFeedIds source chs fds
    /\ syncMicrosubSource env source db = (Ok r, db2)
    /\ blogs db2
       = match currentFeedIds source chs fds with
         | [] => blogs db1
         | current =>
             updateMany (isOrphan source current) (softDelete env) (blogs db1)
         end.
Proof.
  intros Hok Hms.
  destruct (syncMsChannels_ok env source fds (filter (channelQuery source) chs)
              Hok (mkMsAcc 0 0 0 []) db) as (acc & db1 & Hrun & Hcur).
  simpl in Hcur. fold (mirroredFeeds source chs fds) in Hcur.
  fold (currentFeedIds source chs fds) in Hcur.
  exists acc, db1.
  unfold syncMicrosubSource. rewrite Hms.
  unfold tryCatch, bind at 1. rewrite call_ok by apply Hok. simpl.
  destruct (filter (channelQuery source) chs) as [|c cs] eqn:Hch.
  - simpl in Hrun. injection Hrun as <- <-.
    destruct (updateSourceSyncStatus_ok env (s_id source)
                (SyncedOk) db Hok) as (db2 & Hupd & Hblogs).
    unfold bind. rewrite Hupd. simpl.
    exists (SourceSynced 0 0 0 0), db2. repeat split; auto.
    rewrite <- Hcur. simpl. exact Hblogs.
  - unfold bind at 1. rewrite Hrun.
    unfold bind at 1, sweepOrphans. rewrite Hcur.
    destruct (currentFeedIds source chs fds) as [|id ids] eqn:Hids.
    + simpl.
      destruct (updateSourceSyncStatus_ok env (s_id source)
                  (SyncedOk) db1 Hok) as (db2 & Hupd & Hblogs).
      unfold bind. rewrite Hupd. simpl.
      eexists _, db2. repeat split; eauto.
    + rewrite call_ok by apply Hok. simpl.
      destruct (updateSourceSyncStatus_ok env (s_id source) (SyncedOk)
                  (withBlogs db1
                     (updateMany (isOrphan source (id :: ids)) (softDelete env)
                                 (blogs db1))) Hok)
        as (db2 & Hupd & Hblogs).
      unfold bind. rewrite Hupd. simpl.
      eexists _, db2. repeat split; eauto.
Qed.

(** The filter of the sweep selects the orphans of the specification. *)
Lemma isOrphan_iff source current b :
  isOrphan source current b = true <-> mirroredOrphan source current b.
Proof.
  unfold isOrphan, mirroredOrphan.
  rewrite !andb_true_iff, !negb_true_iff, jsstr_eqb_eq, optId_eqb_eq.
  assert (Hst : status_eqb (b_status b) Deleted = false
                <-> b_status b <> Deleted).
  { destruct (status_eqb (b_status b) Deleted) eqn:E.
    - apply status_eqb_eq in E. split; [discriminate|contradiction].
    - split; auto. intros _ H. apply status_eqb_eq in H. congruence. }
  assert (Hex : existsb (fun id => jsstr_eqb (b_microsubFeedId b) (Some id))
                        current = false
                <-> ~ (exists id, In id current
                                  /\ b_microsubFeedId b = Some id)).
  { destruct (existsb _ current) eqn:E.
    - apply existsb_exists in E. destruct E as (id & Hin & Heq).
      apply jsstr_eqb_eq in Heq. split; [discriminate|].
      intros H. exfalso. apply H. eauto.
    - split; auto. intros _ (id & Hin & Heq).
      assert (Ht : existsb (fun id => jsstr_eqb (b_microsubFeedId b)
                                                (Some id)) current = true).
      { apply existsb_exists. exists id. split; auto.
        now apply jsstr_eqb_eq. }
      congruence. }
  rewrite Hst, Hex. tauto.
Qed.

(** C5, as the code has it.  When the Microsub plugin is installed and
    the store answers, the sync first upserts a reference blog for every
    feed of the mirrored channels; [current] is the list of their ids.
    If [current] is not empty, the sync then marks deleted and hidden,
    in their place, exactly the blogs that were mirrored before by this
    source (provenance "microsub", the id of the source), are not
    deleted yet and have a feed id that is not in [current]; such a blog
    keeps its id, feed URL, title, category, source and feed id, and
    every other blog is left exactly as the upserts left it.  If
    [current] is empty, no blog is changed. *)
Theorem microsub_orphan_sweep env source chs fds db :
  noFaults env ->
  microsub env = Some (chs, fds) ->
  exists acc db1 r db2,
    syncMsChannels env source fds (filter (channelQuery source) chs)
                   (mkMsAcc 0 0 0 []) db = (Ok acc, db1)
    /\ ms_current acc = currentFeedIds source chs fds
    /\ syncMicrosubSource env source db = (Ok r, db2)
    /\ (currentFeedIds source chs fds = [] -> blogs db2 = blogs db1)
    /\ (currentFeedIds source chs fds <> [] ->
        Forall2
          (fun x y =>
             (mirroredOrphan source (currentFeedIds source chs fds) x ->
              b_status y = Deleted /\ b_hidden y = true
              /\ b_deletedAt y = Some (now env)
              /\ b_id y = b_id x /\ b_feedUrl y = b_feedUrl x
              /\ b_title y = b_title x /\ b_category y = b_category x
              /\ b_sourceId y = b_sourceId x /\ b_source y = b_source x
              /\ b_microsubFeedId y = b_microsubFeedId x)
             /\ (~ mirroredOrphan source (currentFeedIds source chs fds) x ->
                 y = x))
          (blogs db1) (blogs db2)).
Proof.
  intros Hok Hms.
  destruct (syncMicrosubSource_computed env source chs fds db Hok Hms)
    as (acc & db1 & r & db2 & Hrun & Hcur & Hsync & Hblogs).
  exists acc, db1, r, db2.
  split; [exact Hrun|]. split; [exact Hcur|]. split; [exact Hsync|].
  destruct (currentFeedIds source chs fds) as [|id ids].
  - split; [intros _; exact Hblogs|]. intros H. now contradiction H.
  - split; [discriminate|]. intros _. rewrite Hblogs.
    unfold updateMany. generalize (blogs db1). intros l.
    induction l as [|x l IH]; simpl; [constructor|].
    constructor; [|exact IH].
    destruct (isOrphan source (id :: ids) x) eqn:E.
    + split; [intros _; simpl; repeat split|].
      intros Hno. exfalso. apply Hno. now apply isOrphan_iff.
    + split; [|reflexivity].
      intros Ho. apply isOrphan_iff in Ho. congruence.
Qed.

Lemma microsub_orphan_sweep_witness :
  exists acc db1 r db2,
    syncMsChannels otherFeedEnv mirrorSource [msFeed "f2" feedUrlB]
                   (filter (channelQuery mirrorSource) [readingChannel])
                   (mkMsAcc 0 0 0 []) mirrorDb = (Ok acc, db1)
    /\ ms_current acc
       = currentFeedIds mirrorSource [readingChannel] [msFeed "f2" feedUrlB]
    /\ syncMicrosubSource otherFeedEnv mirrorSource mirrorDb = (Ok r, db2)
    /\ (currentFeedIds mirrorSource [readingChannel] [msFeed "f2" feedUrlB]
        = [] -> blogs db2 = blogs db1)
    /\ (currentFeedIds mirrorSource [readingChannel] [msFeed "f2" feedUrlB]
        <> [] ->
        Forall2
          (fun x y =>
             (mirroredOrphan mirrorSource
                (currentFeedIds mirrorSource [readingChannel]
                                [msFeed "f2" feedUrlB]) x ->
              b_status y = Deleted /\ b_hidden y = true
              /\ b_deletedAt y = Some (now otherFeedEnv)
              /\ b_id y = b_id x /\ b_feedUrl y = b_feedUrl x
              /\ b_title y = b_title x /\ b_category y = b_category x
              /\ b_sourceId y = b_sourceId x /\ b_source y = b_source x
              /\ b_microsubFeedId y = b_microsubFeedId x)
             /\ (~ mirroredOrphan mirrorSource
                     (currentFeedIds mirrorSource [readingChannel]
                                     [msFeed "f2" feedUrlB]) x ->
                 y = x))
          (blogs db1) (blogs db2)).
Proof.
  apply (microsub_orphan_sweep otherFeedEnv mirrorSource [readingChannel]
           [msFeed "f2" feedUrlB] mirrorDb).
  - intros c m. reflexivity.
  - reflexivity.
Defined.

(** With another feed left, the blog of the vanished feed is swept. *)
Example orphan_is_swept :
  map (fun b => (b_id b, b_microsubFeedId b, b_status b, b_hidden b))
      (blogs (snd (syncMicrosubSource otherFeedEnv mirrorSource mirrorDb)))
  = [(1, Some "f1", Deleted, true); (6, Some "f2", Active, false)].
Proof. vm_compute. reflexivity. Qed.

(** C5 as stated fails when the current foreign feed set is empty: the
    mirrored blog of the vanished feed "f1" is an orphan of the source,
    and the sync leaves it as it is, active and visible. *)
Lemma orphan_stays_when_no_feed_is_left :
  currentFeedIds mirrorSource [readingChannel] [] = []
  /\ mirroredOrphan mirrorSource [] (mirrorBlog 1 feedUrlA 5 "f1")
  /\ fst (syncMicrosubSource noFeedEnv mirrorSource mirrorDb)
     = Ok (SourceSynced 0 0 0 0)
  /\ blogs mirrorDb = [mirrorBlog 1 feedUrlA 5 "f1"]
  /\ blogs (snd (syncMicrosubSource noFeedEnv mirrorSource mirrorDb))
     = [mirrorBlog 1 feedUrlA 5 "f1"]
  /\ b_status (mirrorBlog 1 feedUrlA 5 "f1") = Active
  /\ b_hidden (mirrorBlog 1 feedUrlA 5 "f1") = false.
Proof.
  split; [reflexivity|]. split.
  - unfold mirroredOrphan. repeat split; try discriminate.
    intros (id & [] & _).
  - repeat split; vm_compute; reflexivity.
Qed.

(** ** Idempotent item upsert *)

Lemma itemKey_identity blogId uid i :
  itemKey blogId uid i = true <-> itemIdentity i = (blogId, uid).
Proof.
  unfold itemKey, itemIdentity.
  rewrite andb_true_iff, Nat.eqb_eq, String.eqb_eq.
  split; [intros [-> ->]; reflexivity | intros [= -> ->]; auto].
Qed.

Lemma updateFirst_found {D : Type} (p : D -> bool) f l :
  (exists x, In x l /\ p x = true) ->
  exists old l', updateFirst p f l = Some (old, l').
Proof.
  intros (x & Hin & Hp).
  destruct (updateFirst p f l) as [[old l']|] eqn:E; eauto.
  apply updateFirst_none in E. rewrite Forall_forall in E.
  rewrite (E x Hin) in Hp. discriminate.
Qed.

(** What [upsertItem] does when the store answers.  On a match the first
    matching item is overwritten in place by [applyItem], which keeps its
    [blogId] and [uid], and [upserted] is false; without a match the new
    item is appended and [upserted] is true. *)
Lemma upsertItem_spec env blogId data db :
  storeFault env ItemsColl UpdateOne = None ->
  (exists old l1 l2,
      items db = l1 ++ old :: l2
      /\ itemIdentity old = (blogId, fi_uid data)
      /\ ~ In (blogId, fi_uid data) (map itemIdentity l1)
      /\ upsertItem env blogId data db
         = (Ok {| upserted := false;
                  modified := changed Item_eq_dec old (applyItem env data old);
                  skippedDeleted := false |},
            withItems db (l1 ++ applyItem env data old :: l2)))
  \/ (~ In (blogId, fi_uid data) (map itemIdentity (items db))
      /\ upsertItem env blogId data db
         = (Ok {| upserted := true; modified := false;
                  skippedDeleted := false |},
            withItems db (items db ++ [itemDoc env blogId data]))).
Proof.
  intros Hok. unfold upsertItem. rewrite call_ok by assumption.
  destruct (updateFirst _ _ (items db)) as [[old its]|] eqn:E; simpl.
  - left.
    destruct (updateFirst_some _ _ _ _ _ E) as (l1 & l2 & Hl & -> & Hp & Hall).
    exists old, l1, l2. repeat split; auto.
    + now apply itemKey_identity.
    + intros Hin. apply in_map_iff in Hin. destruct Hin as (x & Hx & Hin).
      rewrite Forall_forall in Hall. specialize (Hall x Hin).
      apply itemKey_identity in Hx. congruence.
  - right. split; auto.
    intros Hin. apply in_map_iff in Hin. destruct Hin as (x & Hx & Hin).
    apply updateFirst_none in E. rewrite Forall_forall in E.
    specialize (E x Hin). apply itemKey_identity in Hx. congruence.
Qed.

Lemma applyItem_identity env data old :
  itemIdentity (applyItem env data old) = itemIdentity old.
Proof. reflexivity. Qed.

(** The identities of the stored items after an upsert: unchanged on a
    match, extended by the new identity otherwise. *)
Lemma upsertItem_identities env blogId data db :
  storeFault env ItemsColl UpdateOne = None ->
  exists r db',
    upsertItem env blogId data db = (Ok r, db')
    /\ map itemIdentity (items db')
       = map itemIdentity (items db)
         ++ (if upserted r then [(blogId, fi_uid data)] else [])
    /\ (upserted r = false
        <-> In (blogId, fi_uid data) (map itemIdentity (items db))).
Proof.
  intros Hok.
  destruct (upsertItem_spec env blogId data db Hok)
    as [(old & l1 & l2 & Hl & Hid & Hnot & Hrun)|[Hnot Hrun]];
    rewrite Hrun; eexists _, _; split; try reflexivity; simpl.
  - split.
    + rewrite Hl, !map_app, app_nil_r. simpl. reflexivity.
    + split; auto. intros _. rewrite Hl, map_app. apply in_or_app.
      right. left. exact Hid.
  - split.
    + rewrite map_app. reflexivity.
    + split; [discriminate|contradiction].
Qed.

(** The loop over the items of a feed: it inserts nothing when every uid
    is stored already, and afterwards every uid is stored. *)
Lemma upsertItems_spec env blogId its :
  storeFault env ItemsColl UpdateOne = None ->
  forall added db, exists added' db',
    upsertItems env blogId its added db = (Ok added', db')
    /\ blogs db' = blogs db /\ nextId db' = nextId db
    /\ sources db' = sources db /\ meta db' = meta db
    /\ incl (map itemIdentity (items db)) (map itemIdentity (items db'))
    /\ (forall it, In it its ->
                   In (blogId, fi_uid it) (map itemIdentity (items db')))
    /\ ((forall it, In it its ->
                    In (blogId, fi_uid it) (map itemIdentity (items db))) ->
        added' = added
        /\ map itemIdentity (items db') = map itemIdentity (items db)).
Proof.
  intros Hok. induction its as [|it rest IH]; intros added db; simpl.
  - exists added, db. repeat split; auto using incl_refl. intros it [].
  - destruct (upsertItem_identities env blogId it db Hok)
      as (r & db1 & Hrun & Hids & Hup).
    rewrite (bind_ok _ _ _ _ _ Hrun).
    destruct (upsertItem_blogs _ _ _ _ _ _ Hrun) as (Hb & Hn & Hs & Hm).
    destruct (IH (if upserted r then S added else added) db1)
      as (added' & db' & Hrest & Hb' & Hn' & Hs' & Hm' & Hincl & Hall & Hnone).
    exists added', db'. split; auto.
    assert (Hincl1 : incl (map itemIdentity (items db))
                          (map itemIdentity (items db1))).
    { rewrite Hids. apply incl_appl, incl_refl. }
    repeat split; try congruence.
    + eapply incl_tran; eauto.
    + intros x [<-|Hx]; auto. apply Hincl. rewrite Hids.
      destruct (upserted r) eqn:Er.
      * apply in_or_app. right. now left.
      * rewrite app_nil_r. now apply Hup.
    + assert (Er : upserted r = false) by (apply Hup; auto).
      rewrite Er in *. rewrite app_nil_r in Hids.
      assert (Hp : forall x, In x rest ->
                   In (blogId, fi_uid x) (map itemIdentity (items db1))).
      { intros x Hx. rewrite Hids. auto. }
      exact (proj1 (Hnone Hp)).
    + assert (Er : upserted r = false) by (apply Hup; auto).
      rewrite Er in *. rewrite app_nil_r in Hids.
      assert (Hp : forall x, In x rest ->
                   In (blogId, fi_uid x) (map itemIdentity (items db1))).
      { intros x Hx. rewrite Hids. auto. }
      rewrite (proj2 (Hnone Hp)). exact Hids.
Qed.

Lemma fetchAndParseFeed_ok env url maxItems raw db :
  fetchFeed env url = Ok raw ->
  fetchAndParseFeed env url maxItems db
  = (Ok (parsedFeed env raw url maxItems), db).
Proof.
  intros H. unfold fetchAndParseFeed. rewrite H. now destruct raw.
Qed.

Lemma generateUid_deterministic env1 env2 feedUrl itemId :
  (forall s, sha256hex env2 s = sha256hex env1 s) ->
  generateUid env2 feedUrl itemId = generateUid env1 feedUrl itemId.
Proof. intros H. unfold generateUid. now rewrite H. Qed.

(** The uids of a parsed feed depend on the feed URL and the natural ids
    of the items only: not on the clock, nor on the text helpers. *)
Lemma parsedFeed_uids env1 env2 raw url maxItems :
  (forall s, sha256hex env2 s = sha256hex env1 s) ->
  map fi_uid (pf_items (parsedFeed env2 raw url maxItems))
  = map fi_uid (pf_items (parsedFeed env1 raw url maxItems)).
Proof.
  intros H. destruct raw as [m its|m its]; simpl; rewrite !map_map;
    apply map_ext; intros i; simpl; apply generateUid_deterministic, H.
Qed.

Lemma updateBlogStatus_ok env id st db :
  noFaults env ->
  exists db', updateBlogStatus env id st db = (Ok tt, db')
              /\ items db' = items db.
Proof.
  intros Hok. unfold updateBlogStatus, updateBlogById, bind.
  rewrite call_ok by apply Hok.
  destruct (updateFirst _ _ (blogs db)) as [[o bs]|]; simpl; unfold ret;
    eexists; split; reflexivity.
Qed.

(** A sync of a blog whose feed is fetched, when the store answers. *)
Lemma syncBlogItems_fetched env blog maxItems raw db :
  noFaults env ->
  fetchFeed env (b_feedUrl blog) = Ok raw ->
  let its := pf_items (parsedFeed env raw (b_feedUrl blog) maxItems) in
  exists added db',
    syncBlogItems env blog maxItems db
    = (Ok (ItemsSynced added (List.length its)), db')
    /\ incl (map itemIdentity (items db)) (map itemIdentity (items db'))
    /\ (forall it, In it its ->
                   In (b_id blog, fi_uid it) (map itemIdentity (items db')))
    /\ ((forall it, In it its ->
                    In (b_id blog, fi_uid it) (map itemIdentity (items db))) ->
        added = 0
        /\ map itemIdentity (items db') = map itemIdentity (items db)).
Proof.
  intros Hok Hfetch its.
  destruct (upsertItems_spec env (b_id blog) its (Hok _ _) 0 db)
    as (added & db1 & Hrun & _ & _ & _ & _ & Hincl & Hall & Hnone).
  destruct (syncBlogItems env blog maxItems db) as [r dbf] eqn:E.
  unfold syncBlogItems, tryCatch in E.
  rewrite (bind_ok _ _ _ _ _
             (fetchAndParseFeed_ok env _ maxItems raw db Hfetch)) in E.
  fold its in E. rewrite (bind_ok _ _ _ _ _ Hrun) in E.
  match type of E with
  | context [updateBlogStatus env ?i ?st] =>
      destruct (updateBlogStatus_ok env i st db1 Hok)
        as (db' & Hupd & Hitems)
  end.
  rewrite (bind_ok _ _ _ _ _ Hupd) in E. unfold ret in E.
  injection E as <- <-.
  exists added, db'. split; [reflexivity|].
  rewrite Hitems. auto.
Qed.

(** C4.  The uid of an item is the digest of the feed URL and the
    natural id of the item (guid or link; id or url) cut to 24
    characters: two items of a feed with the same natural id get the
    same uid, at any time.  [upsertItem] matches on (blogId, uid).  On a
    match it reports [upserted = false] and overwrites the first
    matching item in its place: the item keeps its [blogId] and [uid],
    takes the mutable fields from the data and gets the time of the
    fetch; the other items are untouched.  Without a match it appends
    one item with this identity.  Hence a second sync of a blog whose
    feed has the same content inserts no item, and no stored item
    changes its identity. *)
Theorem second_sync_inserts_nothing :
  (forall env1 env2 item1 item2 feedUrl,
      (forall s, sha256hex env2 s = sha256hex env1 s) ->
      orVal (x_guid item2) (nullable (x_link item2))
      = orVal (x_guid item1) (nullable (x_link item1)) ->
      fi_uid (normalizeItem env2 item2 feedUrl)
      = fi_uid (normalizeItem env1 item1 feedUrl))
  /\ (forall env1 env2 item1 item2 feedUrl,
         (forall s, sha256hex env2 s = sha256hex env1 s) ->
         orVal (j_id item2) (j_url item2) = orVal (j_id item1) (j_url item1) ->
         fi_uid (normalizeJsonItem env2 item2 feedUrl)
         = fi_uid (normalizeJsonItem env1 item1 feedUrl))
  /\ (forall env blogId data db,
         storeFault env ItemsColl UpdateOne = None ->
         In (blogId, fi_uid data) (map itemIdentity (items db)) ->
         exists l1 old l2 new m,
           items db = l1 ++ old :: l2
           /\ itemIdentity old = (blogId, fi_uid data)
           /\ ~ In (blogId, fi_uid data) (map itemIdentity l1)
           /\ upsertItem env blogId data db
              = (Ok {| upserted := false; modified := m;
                       skippedDeleted := false |},
                 withItems db (l1 ++ new :: l2))
           /\ i_blogId new = i_blogId old /\ i_uid new = i_uid old
           /\ i_url new = fi_url data /\ i_title new = fi_title data
           /\ i_html new = fi_html data /\ i_text new = fi_text data
           /\ i_summary new = fi_summary data
           /\ i_published new = fi_published data
           /\ i_updated new = fi_updated data
           /\ i_author new = fi_author data /\ i_photo new = fi_photo data
           /\ i_categories new = fi_categories data
           /\ i_fetchedAt new = IsoStr (now env))
  /\ (forall env blogId data db,
         storeFault env ItemsColl UpdateOne = None ->
         ~ In (blogId, fi_uid data) (map itemIdentity (items db)) ->
         exists new,
           upsertItem env blogId data db
           = (Ok {| upserted := true; modified := false;
                    skippedDeleted := false |},
              withItems db (items db ++ [new]))
           /\ itemIdentity new = (blogId, fi_uid data))
  /\ (forall env1 env2 blog maxItems raw db,
         noFaults env1 -> noFaults env2 ->
         fetchFeed env1 (b_feedUrl blog) = Ok raw ->
         fetchFeed env2 (b_feedUrl blog) = Ok raw ->
         (forall s, sha256hex env2 s = sha256hex env1 s) ->
         exists added total db1 db2,
           syncBlogItems env1 blog maxItems db
           = (Ok (ItemsSynced added total), db1)
           /\ syncBlogItems env2 blog maxItems db1
              = (Ok (ItemsSynced 0 total), db2)
           /\ map itemIdentity (items db2) = map itemIdentity (items db1)).
Proof.
  split; [|split; [|split; [|split]]].
  - intros env1 env2 item1 item2 feedUrl Hsha Hid. simpl. rewrite Hid.
    now apply generateUid_deterministic.
  - intros env1 env2 item1 item2 feedUrl Hsha Hid. simpl. rewrite Hid.
    now apply generateUid_deterministic.
  - intros env blogId data db Hok Hin.
    destruct (upsertItem_spec env blogId data db Hok)
      as [(old & l1 & l2 & Hl & Hid & Hnot & Hrun)|[Hnot _]];
      [|contradiction].
    exists l1, old, l2, (applyItem env data old),
           (changed Item_eq_dec old (applyItem env data old)).
    repeat split; auto.
  - intros env blogId data db Hok Hnot.
    destruct (upsertItem_spec env blogId data db Hok)
      as [(old & l1 & l2 & Hl & Hid & _ & _)|[_ Hrun]].
    + exfalso. apply Hnot. rewrite Hl, map_app. apply in_or_app.
      right. left. exact Hid.
    + exists (itemDoc env blogId data). split; [exact Hrun|reflexivity].
  - intros env1 env2 blog maxItems raw db Hok1 Hok2 Hf1 Hf2 Hsha.
    destruct (syncBlogItems_fetched env1 blog maxItems raw db Hok1 Hf1)
      as (added & db1 & Hrun1 & _ & Hall1 & _).
    destruct (syncBlogItems_fetched env2 blog maxItems raw db1 Hok2 Hf2)
      as (added2 & db2 & Hrun2 & _ & _ & Hnone).
    pose proof (parsedFeed_uids env1 env2 raw (b_feedUrl blog) maxItems Hsha)
      as Huids.
    destruct Hnone as [-> Hids].
    { intros it Hit.
      assert (Hu : In (fi_uid it)
                      (map fi_uid (pf_items (parsedFeed env1 raw
                                               (b_feedUrl blog) maxItems)))).
      { rewrite <- Huids. now apply in_map. }
      apply in_map_iff in Hu. destruct Hu as (it1 & Hu & Hit1).
      rewrite <- Hu. now apply Hall1. }
    exists added, (List.length (pf_items (parsedFeed env1 raw (b_feedUrl blog)
                                                     maxItems))), db1, db2.
    repeat split; auto.
    rewrite Hrun2.
    assert (Hlen : List.length (pf_items (parsedFeed env2 raw (b_feedUrl blog)
                                                     maxItems))
                   = List.length (pf_items (parsedFeed env1 raw
                                              (b_feedUrl blog) maxItems))).
    { rewrite <- (length_map fi_uid), Huids. apply length_map. }
    now rewrite Hlen.
Qed.

Lemma second_sync_inserts_nothing_witness :
  exists added total db1 db2,
    syncBlogItems feedAEnv blogA 50 blogADb
    = (Ok (ItemsSynced added total), db1)
    /\ syncBlogItems feedALaterEnv blogA 50 db1
       = (Ok (ItemsSynced 0 total), db2)
    /\ map itemIdentity (items db2) = map itemIdentity (items db1).
Proof.
  apply (proj2 (proj2 (proj2 (proj2 second_sync_inserts_nothing)))
           feedAEnv feedALaterEnv blogA 50 (XmlFeed noMeta [oldXmlItem])
           blogADb).
  - intros c m. reflexivity.
  - intros c m. reflexivity.
  - reflexivity.
  - reflexivity.
  - intros s. reflexivity.
Defined.

(** The first sync inserts the item, the second refreshes it. *)
Example first_sync_adds_second_refreshes :
  fst (syncBlogItems feedAEnv blogA 50 blogADb) = Ok (ItemsSynced 1 1)
  /\ fst (syncBlogItems feedALaterEnv blogA 50
            (snd (syncBlogItems feedAEnv blogA 50 blogADb)))
     = Ok (ItemsSynced 0 1)
  /\ map (fun i => (i_blogId i, i_uid i, i_fetchedAt i))
         (items (snd (syncBlogItems feedALaterEnv blogA 50
                        (snd (syncBlogItems feedAEnv blogA 50 blogADb)))))
     = [(1, "https://a.example/feed::", IsoStr 1000003600000)].
Proof. vm_compute. repeat split. Qed.

(** * Further properties of the code *)

(** ** The text helpers of the OPML export *)

Lemma append_assoc_str a b c : (a +++ b) +++ c = a +++ (b +++ c).
Proof. induction a as [|x a IH]; simpl; [reflexivity|now rewrite IH]. Qed.

Lemma replaceChar_app c r a b :
  replaceChar c r (a +++ b) = replaceChar c r a +++ replaceChar c r b.
Proof.
  induction a as [|x a IH]; simpl; [reflexivity|].
  destruct (Ascii.eqb x c); rewrite IH; [now rewrite append_assoc_str|].
  reflexivity.
Qed.

(** The five passes of [escapeXml] amount to one pass over the
    characters: the pass for the ampersand comes first, so that the
    ampersands of the entities written by the later passes stay. *)
Lemma escapeXml_cons c s :
  escapeXml (String c s) = escapeChar c +++ escapeXml s.
Proof.
  unfold escapeXml.
  change (String c s) with (String c EmptyString +++ s).
  rewrite !replaceChar_app. f_equal.
  unfold escapeChar. simpl.
  destruct (Ascii.eqb c "&") eqn:E1;
    [apply Ascii.eqb_eq in E1; subst c; reflexivity|]. simpl.
  destruct (Ascii.eqb c "<") eqn:E2;
    [apply Ascii.eqb_eq in E2; subst c; reflexivity|]. simpl.
  destruct (Ascii.eqb c ">") eqn:E3;
    [apply Ascii.eqb_eq in E3; subst c; reflexivity|]. simpl.
  destruct (Ascii.eqb c dquote) eqn:E4;
    [apply Ascii.eqb_eq in E4; subst c; reflexivity|]. simpl.
  destruct (Ascii.eqb c "'") eqn:E5;
    [apply Ascii.eqb_eq in E5; subst c; reflexivity|].
  reflexivity.
Qed.

Lemma allChars_app p a b :
  allChars p (a +++ b) = allChars p a && allChars p b.
Proof.
  induction a as [|x a IH]; simpl; [reflexivity|].
  now rewrite IH, andb_assoc.
Qed.

(** X1.  Whatever the input, the output of [escapeXml] contains no
    [<], no [>], no double quote and no apostrophe: a title, URL or
    category written into an attribute of the exported OPML can neither
    end the attribute nor open a tag. *)
Theorem escapeXml_output_is_attribute_safe (s : string) :
  allChars attributeSafe (escapeXml s) = true.
Proof.
  induction s as [|c s IH]; [reflexivity|].
  rewrite escapeXml_cons, allChars_app, IH, andb_true_r.
  unfold escapeChar.
  destruct (Ascii.eqb c "&") eqn:E1; [reflexivity|].
  destruct (Ascii.eqb c "<") eqn:E2; [reflexivity|].
  destruct (Ascii.eqb c ">") eqn:E3; [reflexivity|].
  destruct (Ascii.eqb c dquote) eqn:E4; [reflexivity|].
  destruct (Ascii.eqb c "'") eqn:E5; [reflexivity|].
  simpl. unfold attributeSafe. now rewrite E2, E3, E4, E5.
Qed.

(** X2.  [escapeXml] loses nothing: reading its output as an XML parser
    reads character data, with the five predefined entity references
    resolved, gives the input back.  Two different strings are therefore
    never exported as the same text. *)
Theorem escapeXml_is_lossless (s : string) :
  xmlUnescape (escapeXml s) = s.
Proof.
  unfold xmlUnescape.
  induction s as [|c s IH]; [reflexivity|].
  rewrite escapeXml_cons. unfold escapeChar.
  destruct (Ascii.eqb c "&") eqn:E1;
    [apply Ascii.eqb_eq in E1; subst c; simpl; now rewrite IH|].
  destruct (Ascii.eqb c "<") eqn:E2;
    [apply Ascii.eqb_eq in E2; subst c; simpl; now rewrite IH|].
  destruct (Ascii.eqb c ">") eqn:E3;
    [apply Ascii.eqb_eq in E3; subst c; simpl; now rewrite IH|].
  destruct (Ascii.eqb c dquote) eqn:E4;
    [apply Ascii.eqb_eq in E4; subst c; simpl; now rewrite IH|].
  destruct (Ascii.eqb c "'") eqn:E5;
    [apply Ascii.eqb_eq in E5; subst c; simpl; now rewrite IH|].
  simpl. now rewrite E1, IH.
Qed.

Lemma dropSlashes_spec (r : list ascii) :
  exists k,
    r = repeat "/"%char k ++ dropSlashes r
    /\ forall t, dropSlashes r <> "/"%char :: t.
Proof.
  induction r as [|c r (k & Hk & Hno)]; simpl.
  - exists 0. split; [reflexivity|discriminate].
  - destruct (Ascii.eqb c "/") eqn:E.
    + apply Ascii.eqb_eq in E. subst c. exists (S k). split; auto.
      simpl. now rewrite <- Hk.
    + exists 0. split; [reflexivity|].
      intros t [= Hc _]. subst c. discriminate.
Qed.

(** X3.  [stripTrailingSlashes] (the [replace(/\/+$/, "")] of the
    FeedLand URLs) removes slashes at the end and nothing else: the input
    is the output followed by slashes only, and the output does not end
    with a slash. *)
Theorem stripTrailingSlashes_removes_the_final_slashes (s : string) :
  exists k,
    list_ascii_of_string s
    = list_ascii_of_string (stripTrailingSlashes s) ++ repeat "/"%char k
    /\ forall l, list_ascii_of_string (stripTrailingSlashes s)
                 <> l ++ ["/"%char].
Proof.
  unfold stripTrailingSlashes.
  rewrite list_ascii_of_string_of_list_ascii.
  remember (rev (list_ascii_of_string s)) as r eqn:Hr.
  destruct (dropSlashes_spec r) as (k & Hk & Hno).
  exists k. split.
  - transitivity (rev (repeat "/"%char k ++ dropSlashes r)).
    + rewrite <- Hk, Hr. symmetry. apply rev_involutive.
    + rewrite rev_app_distr, rev_repeat. reflexivity.
  - intros l Hl. apply (Hno (rev l)).
    rewrite <- (rev_involutive (dropSlashes r)), Hl, rev_app_distr.
    reflexivity.
Qed.

Lemma length_substring_0 (m : nat) (s : string) :
  String.length (substring 0 m s) = Nat.min m (String.length s).
Proof.
  revert m. induction s as [|c s IH]; intros [|m]; simpl; auto.
Qed.

(** ** The OPML export: grouping *)

Lemma pushTo_new cat b (g : Grouped) :
  ~ In cat (map fst g) -> pushTo cat b g = g ++ [(cat, [b])].
Proof.
  induction g as [|[k bs] g IH]; simpl; intros Hno; [reflexivity|].
  destruct (k =? cat) eqn:E.
  - apply String.eqb_eq in E. exfalso. auto.
  - rewrite IH; auto.
Qed.

Lemma pushTo_old cat b (g : Grouped) :
  In cat (map fst g) -> NoDup (map fst g) ->
  pushTo cat b g
  = map (fun e => if fst e =? cat then (fst e, snd e ++ [b]) else e) g.
Proof.
  induction g as [|[k bs] g IH]; simpl; intros Hin Hnd; [contradiction|].
  inversion Hnd as [|? ? Hk Hnd']; subst.
  destruct (k =? cat) eqn:E.
  - apply String.eqb_eq in E. subst k. f_equal.
    clear IH Hin Hnd. induction g as [|[k' bs'] g IHg]; simpl; auto.
    simpl in Hk. inversion Hnd'; subst.
    destruct (k' =? cat) eqn:E'.
    + apply String.eqb_eq in E'. exfalso. auto.
    + f_equal. apply IHg; auto.
  - f_equal. apply IH; auto.
    destruct Hin as [Hin|Hin]; auto.
    apply String.eqb_neq in E. contradiction.
Qed.

Lemma pushTo_groupsOf pre g b :
  groupsOf pre g -> groupsOf (pre ++ [b]) (pushTo (categoryLabel b) b g).
Proof.
  intros (Hnd & Hall & Hkeys).
  destruct (in_dec string_dec (categoryLabel b) (map fst g)) as [Hin|Hno].
  - rewrite pushTo_old by assumption.
    assert (Hfst : map fst (map (fun e : string * list Blog =>
                                   if fst e =? categoryLabel b
                                   then (fst e, snd e ++ [b]) else e) g)
                   = map fst g).
    { rewrite map_map. apply map_ext. intros [k bs]. simpl.
      now destruct (k =? categoryLabel b). }
    split; [now rewrite Hfst|]. split.
    + rewrite Forall_forall in *. intros e He.
      apply in_map_iff in He. destruct He as ([k bs] & <- & He).
      destruct (Hall _ He) as [Hf Hne]. simpl in *.
      rewrite filter_app. simpl.
      destruct (k =? categoryLabel b) eqn:E; simpl;
        rewrite (String.eqb_sym (categoryLabel b) k), E.
      * split; [now rewrite Hf|]. intros H. now apply app_eq_nil in H.
      * rewrite app_nil_r. auto.
    + rewrite Hfst. intros x Hx. apply in_app_or in Hx.
      destruct Hx as [Hx|[<-|[]]]; auto.
  - rewrite pushTo_new by assumption. split; [|split].
    + rewrite map_app. simpl.
      eapply Permutation_NoDup; [apply Permutation_cons_append|].
      constructor; auto.
    + apply Forall_app. split.
      * rewrite Forall_forall in *. intros [k bs] He.
        destruct (Hall _ He) as [Hf Hne]. simpl in *.
        rewrite filter_app. simpl.
        rewrite (String.eqb_sym (categoryLabel b) k).
        destruct (k =? categoryLabel b) eqn:E; simpl.
        -- apply String.eqb_eq in E. exfalso. apply Hno. subst k.
           apply in_map_iff. eexists. split; [|exact He]. reflexivity.
        -- rewrite app_nil_r. auto.
      * constructor; [|constructor]. simpl. split; [|discriminate].
        rewrite filter_app. simpl. rewrite String.eqb_refl.
        replace (filter (fun b0 => categoryLabel b0 =? categoryLabel b) pre)
          with (@nil Blog); [reflexivity|].
        symmetry.
        destruct (filter (fun b0 => categoryLabel b0 =? categoryLabel b) pre)
          as [|x l] eqn:Ef; [reflexivity|].
        assert (Hx : In x (x :: l)) by now left.
        rewrite <- Ef in Hx. apply filter_In in Hx. destruct Hx as [Hx Hlab].
        apply String.eqb_eq in Hlab. exfalso. apply Hno.
        rewrite <- Hlab. auto.
    + rewrite map_app. intros x Hx. apply in_or_app.
      apply in_app_or in Hx. destruct Hx as [Hx|[<-|[]]]; auto.
      right. now left.
Qed.

Lemma groupBlogs_groupsOf bs :
  forall pre g g',
    groupsOf pre g -> groupBlogs bs g = Ok g' -> groupsOf (pre ++ bs) g'.
Proof.
  induction bs as [|b bs IH]; simpl; intros pre g g' Hg.
  - intros [= <-]. now rewrite app_nil_r.
  - destruct (inherited (categoryLabel b)); [discriminate|].
    intros H. replace (pre ++ b :: bs) with ((pre ++ [b]) ++ bs)
      by (now rewrite <- app_assoc).
    eapply IH; [|exact H]. now apply pushTo_groupsOf.
Qed.

(** X5.  When the export does not throw, its grouping is a partition of
    the blogs by category label (the category, or "Uncategorized" for an
    empty one): the labels are distinct, the group of a label holds
    exactly the blogs with that label, in the order of the input, no
    group is empty, and no blog is left out. *)
Theorem groupBlogs_partitions_by_label (bs : list Blog) (g : Grouped) :
  groupBlogs bs [] = Ok g -> groupsOf bs g.
Proof.
  intros H. apply (groupBlogs_groupsOf bs [] [] g); auto.
  split; [constructor|]. split; [constructor|]. intros b [].
Qed.

Lemma groupBlogs_partitions_by_label_witness :
  groupsOf twoCategoriesBlogs
           [ ("Friends", [ sampleBlog 1 feedUrlA None Active;
                           sampleBlog 3 "https://c.example/feed" None Active ]);
             ("Reading", [ mirrorBlog 2 feedUrlB 5 "f2" ]) ].
Proof.
  apply (groupBlogs_partitions_by_label twoCategoriesBlogs).
  reflexivity.
Defined.

Lemma insertSorted_perm {D : Type} (le : D -> D -> bool) x l :
  Permutation (insertSorted le x l) (x :: l).
Proof.
  induction l as [|y l IH]; simpl; auto.
  destruct (le x y); auto.
  rewrite IH. apply perm_swap.
Qed.

Lemma sortBy_perm {D : Type} (le : D -> D -> bool) l :
  Permutation (sortBy le l) l.
Proof.
  induction l as [|x l IH]; simpl; auto.
  rewrite insertSorted_perm. now constructor.
Qed.

Lemma filter_split_perm {D : Type} (p : D -> bool) l :
  Permutation (filter p l ++ filter (fun x => negb (p x)) l) l.
Proof.
  induction l as [|x l IH]; simpl; auto.
  destruct (p x); simpl.
  - now constructor.
  - rewrite <- Permutation_middle. now constructor.
Qed.

(** X7.  [Object.entries] of the grouping loses and repeats no group:
    the groups are rendered once each, those whose label is an array
    index ("0", "7", "2024") first, and the others after them in the
    order in which their first blog appeared. *)
Theorem objectEntries_keeps_every_group (g : Grouped) :
  Permutation (objectEntries g) g
  /\ exists indexed,
      objectEntries g
      = indexed ++ filter (fun e => negb (isIndexKey e)) g
      /\ Forall (fun e => isIndexKey e = true) indexed.
Proof.
  split.
  - unfold objectEntries. rewrite sortBy_perm. apply filter_split_perm.
  - exists (sortBy indexLe (filter isIndexKey g)). split; [reflexivity|].
    eapply Permutation_Forall; [symmetry; apply sortBy_perm|].
    apply Forall_forall. intros e He. now apply filter_In in He.
Qed.

(** ** The OPML import *)

Lemma detectFeedType_range t :
  detectFeedType t = "rss" \/ detectFeedType t = "atom"
  \/ detectFeedType t = "jsonfeed".
Proof.
  unfold detectFeedType. destruct (truthy t); auto.
  destruct (includes "atom" _); auto.
  destruct (includes "json" _); auto.
Qed.

Lemma entryOf_usable o cat e :
  In e (entryOf o cat) -> usableEntry e /\ e_category e = cat.
Proof.
  unfold entryOf. destruct (truthy (attr o a_xmlUrl)) eqn:E; [|intros []].
  intros [<-|[]]. simpl. split; [|reflexivity]. split; [|split].
  - unfold truthy in E. destruct (attr o a_xmlUrl) as [s|]; [|discriminate].
    simpl. intros ->. discriminate.
  - apply orStr_nonempty. right. discriminate.
  - apply detectFeedType_range.
Qed.

(** X8.  Whatever document xml2js hands over, every entry that
    [parseOpml] returns has a non-empty feed URL, a non-empty title
    ("Unknown" when the outline has none) and one of the feed types
    "rss", "atom", "jsonfeed"; outlines without [xmlUrl] are skipped, and
    the store is not touched. *)
Theorem parseOpml_entries_are_usable env content db entries db' :
  parseOpml env content db = (Ok entries, db') ->
  db' = db /\ Forall usableEntry entries.
Proof.
  unfold parseOpml. destruct (xml2js env content) as [doc|e];
    [|discriminate].
  intros [= <- <-]. split; [reflexivity|].
  apply Forall_forall. intros e He.
  apply in_flat_map in He. destruct He as (o & _ & He).
  unfold entriesOfOutline in He. destruct (o_kids o) as [|k ks].
  - now apply entryOf_usable in He.
  - apply in_flat_map in He. destruct He as (child & _ & He).
    now apply entryOf_usable in He.
Qed.

Lemma parseOpml_entries_are_usable_witness :
  emptyDb = emptyDb
  /\ Forall usableEntry
       [ mkOpmlEntry "A blog" feedUrlA "https://a.example" "rss" "Friends";
         mkOpmlEntry "A blog" feedUrlA "https://a.example" "rss" "" ].
Proof.
  apply (parseOpml_entries_are_usable
           (setOpml sampleEnv "https://a.example/list.opml" folderDoc)
           "<opml/>" emptyDb _ emptyDb).
  reflexivity.
Defined.

(** ** The blog storage *)

(** X9.  A source sync never touches what belongs to the operator: after
    [upsertBlog], whatever it did and whatever the store answered, every
    stored blog is where it was with the same id, feed URL, description,
    tags, author, notes, pinned and hidden flags, item count, creation
    time and last error; at most one blog was appended. *)
Theorem upsertBlog_keeps_operator_fields env data db r db' :
  upsertBlog env data db = (r, db') ->
  exists extra,
    map operatorFields (blogs db') = map operatorFields (blogs db) ++ extra
    /\ List.length extra <= 1.
Proof.
  intros H.
  destruct (upsertBlog_cases _ _ _ _ _ H)
    as [->|[_ [(old & bs & Hupd & ->)|[_ ->]]]].
  - exists []. split; [now rewrite app_nil_r|simpl; lia].
  - exists []. rewrite app_nil_r. split; [|simpl; lia]. simpl.
    destruct (updateFirst_some _ _ _ _ _ Hupd) as (l1 & l2 & -> & -> & _).
    rewrite !map_app. reflexivity.
  - eexists [_]. split; [|simpl; lia]. simpl. rewrite map_app. reflexivity.
Qed.

Lemma upsertBlog_keeps_operator_fields_witness :
  exists extra,
    map operatorFields
        (blogs (snd (upsertBlog sampleEnv (sampleCandidate feedUrlA (Some 1))
                                listingDb)))
    = map operatorFields (blogs listingDb) ++ extra
    /\ List.length extra <= 1.
Proof.
  apply (upsertBlog_keeps_operator_fields sampleEnv
           (sampleCandidate feedUrlA (Some 1)) listingDb
           (fst (upsertBlog sampleEnv (sampleCandidate feedUrlA (Some 1))
                            listingDb))).
  apply surjective_pairing.
Defined.

(** X10.  When the store answers, the result of [upsertBlog] says what
    happened: [upserted] is true exactly when no stored blog matched the
    filter and no tombstone has the feed URL, and then exactly one blog
    was added; otherwise the number of blogs is unchanged;
    [skippedDeleted] is true exactly when a tombstone has the feed URL,
    and then nothing was written. *)
Theorem upsertBlog_reports_what_it_did env data db :
  noFaults env ->
  exists r db',
    upsertBlog env data db = (Ok r, db')
    /\ List.length (blogs db')
       = List.length (blogs db) + (if upserted r then 1 else 0)
    /\ (skippedDeleted r = true
        <-> exists d, In d (blogs db)
                      /\ isDeletedWithUrl (c_feedUrl data) d = true)
    /\ (skippedDeleted r = true -> db' = db /\ upserted r = false)
    /\ (upserted r = true
        <-> Forall (fun b => isDeletedWithUrl (c_feedUrl data) b = false
                             /\ upsertFilter data b = false) (blogs db)).
Proof.
  intros Hok. unfold upsertBlog, bind, findOne.
  rewrite call_ok by apply Hok. simpl.
  destruct (find (isDeletedWithUrl (c_feedUrl data)) (blogs db)) as [d|]
    eqn:Hfind.
  - exists skippedResult, db. simpl.
    apply find_some in Hfind. destruct Hfind as [Hin Hd].
    repeat split; auto; try lia; try discriminate; eauto.
    intros Hall. rewrite Forall_forall in Hall.
    destruct (Hall d Hin) as [Hno _]. congruence.
  - rewrite call_ok by apply Hok.
    assert (Hnone : forall b, In b (blogs db) ->
                              isDeletedWithUrl (c_feedUrl data) b = false).
    { intros b Hb. exact (find_none _ _ Hfind b Hb). }
    destruct (updateFirst (upsertFilter data) (applyUpsert env data)
                          (blogs db)) as [[old bs]|] eqn:Hupd; simpl;
      eexists _, _; (split; [reflexivity|]); simpl.
    + destruct (updateFirst_some _ _ _ _ _ Hupd)
        as (l1 & l2 & Hl & -> & Hold & _).
      repeat split; try discriminate.
      * rewrite Hl, !length_app. simpl. lia.
      * intros (d & Hin & Hd). rewrite Hnone in Hd; auto.
      * intros Hall. rewrite Forall_forall in Hall.
        assert (Hin : In old (blogs db)).
        { rewrite Hl. apply in_or_app. right. now left. }
        destruct (Hall old Hin). congruence.
    + repeat split; try discriminate; auto.
      * rewrite length_app. reflexivity.
      * intros (d & Hin & Hd). rewrite Hnone in Hd; auto.
      * intros _. apply updateFirst_none in Hupd.
        rewrite Forall_forall in *. intros b Hb. split; auto.
Qed.

Lemma upsertBlog_reports_what_it_did_witness :
  exists r db',
    upsertBlog sampleEnv (sampleCandidate feedUrlA (Some 7)) emptyDb
    = (Ok r, db')
    /\ List.length (blogs db')
       = List.length (blogs emptyDb) + (if upserted r then 1 else 0)
    /\ (skippedDeleted r = true
        <-> exists d, In d (blogs emptyDb)
                      /\ isDeletedWithUrl
                           (c_feedUrl (sampleCandidate feedUrlA (Some 7))) d
                         = true)
    /\ (skippedDeleted r = true -> db' = emptyDb /\ upserted r = false)
    /\ (upserted r = true
        <-> Forall (fun b =>
                      isDeletedWithUrl
                        (c_feedUrl (sampleCandidate feedUrlA (Some 7))) b
                      = false
                      /\ upsertFilter (sampleCandidate feedUrlA (Some 7)) b
                         = false)
                   (blogs emptyDb)).
Proof.
  apply (upsertBlog_reports_what_it_did sampleEnv
           (sampleCandidate feedUrlA (Some 7)) emptyDb).
  intros c m. reflexivity.
Defined.

Lemma updateFirst_at {D : Type} (p : D -> bool) f l1 x l2 :
  p x = true -> Forall (fun y => p y = false) l1 ->
  updateFirst p f (l1 ++ x :: l2) = Some (x, l1 ++ f x :: l2).
Proof.
  intros Hx Hl1. induction Hl1 as [|y l1 Hy _ IH]; simpl.
  - now rewrite Hx.
  - now rewrite Hy, IH.
Qed.

Lemma changed_true {D : Type} (dec : forall a b : D, {a = b} + {a <> b})
  old new :
  old <> new -> changed dec old new = true.
Proof. intros H. unfold changed. now destruct (dec old new). Qed.

(** X11.  When the store answers, [deleteBlog] removes every item of the
    blog and no other item, and the first stored blog with the id, if it
    is not deleted yet, becomes a tombstone (status deleted, hidden) in
    its place with the result [true]; without such a blog the blogs are
    unchanged and the result is [false]. *)
Theorem deleteBlog_cascades env id db :
  noFaults env ->
  exists r db',
    deleteBlog env id db = (Ok r, db')
    /\ items db' = filter (fun i => negb (i_blogId i =? id)%nat) (items db)
    /\ (forall l1 x l2,
           blogs db = l1 ++ x :: l2 ->
           b_id x = id -> b_status x <> Deleted ->
           Forall (fun y => b_id y <> id) l1 ->
           r = true /\ blogs db' = l1 ++ softDelete env x :: l2
           /\ b_status (softDelete env x) = Deleted
           /\ b_hidden (softDelete env x) = true)
    /\ (Forall (fun y => b_id y <> id) (blogs db) ->
        r = false /\ blogs db' = blogs db).
Proof.
  intros Hok. unfold deleteBlog, updateBlogById, bind.
  rewrite call_ok by apply Hok. simpl.
  rewrite call_ok by apply Hok. simpl.
  destruct (updateFirst (fun b => (b_id b =? id)%nat) (softDelete env)
                        (blogs db)) as [[old bs]|] eqn:Hupd; simpl;
    eexists _, _; (split; [reflexivity|]); simpl;
    (split; [reflexivity|]); split.
  - intros l1 x l2 Hl Hx Hst Hl1.
    rewrite Hl, (updateFirst_at _ _ l1 x l2) in Hupd.
    + injection Hupd as <- <-. repeat split; auto.
      apply changed_true. intros Heq.
      apply Hst. rewrite Heq. reflexivity.
    + now apply Nat.eqb_eq.
    + eapply Forall_impl; [|exact Hl1]. intros y Hy. now apply Nat.eqb_neq.
  - intros Hall. exfalso.
    destruct (updateFirst_some _ _ _ _ _ Hupd) as (l1 & l2 & Hl & _ & Hp & _).
    rewrite Forall_forall in Hall. apply (Hall old).
    + rewrite Hl. apply in_or_app. right. now left.
    + now apply Nat.eqb_eq.
  - intros l1 x l2 Hl Hx _ _. exfalso.
    apply updateFirst_none in Hupd. rewrite Forall_forall in Hupd.
    assert (Hin : In x (blogs db)).
    { rewrite Hl. apply in_or_app. right. now left. }
    specialize (Hupd x Hin). simpl in Hupd.
    apply Nat.eqb_neq in Hupd. contradiction.
  - auto.
Qed.

Lemma deleteBlog_cascades_witness :
  exists r db',
    deleteBlog sampleEnv 1 blogADb = (Ok r, db')
    /\ items db'
       = filter (fun i => negb (i_blogId i =? 1)%nat) (items blogADb)
    /\ (forall l1 x l2,
           blogs blogADb = l1 ++ x :: l2 ->
           b_id x = 1 -> b_status x <> Deleted ->
           Forall (fun y => b_id y <> 1) l1 ->
           r = true /\ blogs db' = l1 ++ softDelete sampleEnv x :: l2
           /\ b_status (softDelete sampleEnv x) = Deleted
           /\ b_hidden (softDelete sampleEnv x) = true)
    /\ (Forall (fun y => b_id y <> 1) (blogs blogADb) ->
        r = false /\ blogs db' = blogs blogADb).
Proof.
  apply (deleteBlog_cascades sampleEnv 1 blogADb).
  intros c m. reflexivity.
Defined.

Lemma deleteBlog_blogs env db l1 x l2 :
  noFaults env ->
  blogs db = l1 ++ x :: l2 ->
  Forall (fun y => b_id y <> b_id x) l1 ->
  blogs (snd (deleteBlog env (b_id x) db)) = l1 ++ softDelete env x :: l2.
Proof.
  intros Hok Hl Hl1. unfold deleteBlog, updateBlogById, bind.
  rewrite call_ok by apply Hok. cbn [fst snd].
  rewrite call_ok by apply Hok. cbn [fst snd blogs withItems].
  rewrite Hl, updateFirst_at.
  - reflexivity.
  - apply Nat.eqb_refl.
  - eapply Forall_impl; [|exact Hl1]. intros y Hy. now apply Nat.eqb_neq.
Qed.

Lemma upsertBlog_skips env data db d :
  storeFault env BlogsColl FindOne = None ->
  In d (blogs db) ->
  isDeletedWithUrl (c_feedUrl data) d = true ->
  upsertBlog env data db = (Ok skippedResult, db).
Proof.
  intros Hok Hin Hd. unfold upsertBlog, bind.
  rewrite call_ok by assumption. simpl.
  destruct (find_first _ (blogs db) d Hin Hd) as [x Hx].
  unfold findOne. now rewrite Hx.
Qed.

(** X12.  Soft delete and sync compose as the operator expects: once
    [deleteBlog] has marked a stored blog deleted, every later
    [upsertBlog] for its feed URL, from any source and at any time, is
    skipped and leaves the store as the delete left it. *)
Theorem deleted_blog_is_not_recreated env env' data db l1 x l2 :
  noFaults env ->
  storeFault env' BlogsColl FindOne = None ->
  blogs db = l1 ++ x :: l2 ->
  Forall (fun y => b_id y <> b_id x) l1 ->
  b_status x <> Deleted ->
  c_feedUrl data = b_feedUrl x ->
  upsertBlog env' data (snd (deleteBlog env (b_id x) db))
  = (Ok skippedResult, snd (deleteBlog env (b_id x) db)).
Proof.
  intros Hok Hok' Hl Hl1 Hst Hurl.
  apply upsertBlog_skips with (d := softDelete env x); auto.
  - rewrite (deleteBlog_blogs env db l1 x l2 Hok Hl Hl1).
    apply in_or_app. right. now left.
  - unfold isDeletedWithUrl. simpl. rewrite Hurl, String.eqb_refl.
    reflexivity.
Qed.

Lemma deleted_blog_is_not_recreated_witness :
  upsertBlog feedALaterEnv (sampleCandidate feedUrlA (Some 9))
             (snd (deleteBlog sampleEnv (b_id blogA) blogADb))
  = (Ok skippedResult, snd (deleteBlog sampleEnv (b_id blogA) blogADb)).
Proof.
  apply (deleted_blog_is_not_recreated sampleEnv feedALaterEnv
           (sampleCandidate feedUrlA (Some 9)) blogADb [] blogA []).
  - intros c m. reflexivity.
  - reflexivity.
  - reflexivity.
  - constructor.
  - discriminate.
  - reflexivity.
Defined.

Lemma In_firstn {D : Type} n (l : list D) x : In x (firstn n l) -> In x l.
Proof.
  intros H. rewrite <- (firstn_skipn n l). apply in_or_app. now left.
Qed.

Lemma In_skipn {D : Type} n (l : list D) x : In x (skipn n l) -> In x l.
Proof.
  intros H. rewrite <- (firstn_skipn n l). apply in_or_app. now right.
Qed.

Lemma getBlogs_cases env q db r db' :
  getBlogs env q db = (r, db') ->
  db' = db
  /\ ((exists e, r = Throw e)
      \/ (exists skipped bound,
             windowOf env q = Ok (skipped, bound)
             /\ r = Ok (takeUpTo bound
                          (skipn skipped
                             (sortBy blogOrder
                                (filter (blogQueryMatch q) (blogs db))))))).
Proof.
  unfold getBlogs. destruct (storeFault env BlogsColl Find) as [e|].
  - intros [= <- <-]. split; eauto.
  - destruct (windowOf env q) as [[skipped bound]|e].
    + intros [= <- <-]. split; eauto.
    + intros [= <- <-]. split; eauto.
Qed.

Lemma getBlogs_pure env q db : snd (getBlogs env q db) = db.
Proof.
  destruct (getBlogs env q db) as [r db'] eqn:E.
  now destruct (getBlogs_cases _ _ _ _ _ E).
Qed.

Lemma In_takeUpTo {D : Type} bound (l : list D) x :
  In x (takeUpTo bound l) -> In x l.
Proof. destruct bound as [n|]; simpl; [apply In_firstn|auto]. Qed.

Lemma windowOf_integers env q o l :
  q_offset q = JsInt o -> q_limit q = JsInt l ->
  (0 <= o)%Z -> (0 <= l)%Z ->
  windowOf env q
  = Ok (Z.to_nat o, if (l =? 0)%Z then None else Some (Z.to_nat l)).
Proof.
  intros Ho Hl Hpo Hpl. unfold windowOf. rewrite Ho, Hl.
  apply Z.leb_le in Hpo, Hpl. now rewrite Hpo, Hpl.
Qed.

(** X13.  [getBlogs] lists stored blogs only, never one that is marked
    deleted, a hidden one only when [includeHidden] is set, and it does
    not write.  With an offset and a limit that are integers and not
    negative, it lists at most [limit] blogs when [limit] is positive,
    and with limit 0 (no limit for the driver) and offset 0 it lists
    every blog that matches. *)
Theorem getBlogs_lists_live_visible_blogs env q db bs db' :
  getBlogs env q db = (Ok bs, db') ->
  db' = db
  /\ Forall (fun b => In b (blogs db)
                      /\ b_status b <> Deleted
                      /\ (q_includeHidden q = false -> b_hidden b = false))
            bs
  /\ (forall o l,
         q_offset q = JsInt o -> q_limit q = JsInt l ->
         (0 <= o)%Z -> (0 < l)%Z ->
         List.length bs <= Z.to_nat l)
  /\ (q_offset q = JsInt 0 -> q_limit q = JsInt 0 ->
      Permutation bs (filter (blogQueryMatch q) (blogs db))).
Proof.
  intros H. apply getBlogs_cases in H.
  destruct H as [-> [[e He]|(skipped & bound & Hw & Hr)]]; [discriminate|].
  injection Hr as ->. split; [reflexivity|]. split; [|split].
  - apply Forall_forall. intros b Hb.
    apply In_takeUpTo, In_skipn in Hb.
    apply (Permutation_in _ (sortBy_perm blogOrder _)) in Hb.
    apply filter_In in Hb. destruct Hb as [Hin Hq].
    unfold blogQueryMatch in Hq.
    apply andb_prop in Hq. destruct Hq as [Hq _].
    apply andb_prop in Hq. destruct Hq as [Hq _].
    apply andb_prop in Hq. destruct Hq as [Hlive Hhid].
    repeat split; auto.
    + now apply live_iff.
    + intros Hinc. rewrite Hinc in Hhid. simpl in Hhid.
      now apply negb_true_iff in Hhid.
  - intros o l Ho Hl Hpo Hpl.
    rewrite (windowOf_integers env q o l Ho Hl Hpo) in Hw by lia.
    assert (Hnz : (l =? 0)%Z = false) by (apply Z.eqb_neq; lia).
    rewrite Hnz in Hw. injection Hw as <- <-. simpl.
    apply firstn_le_length.
  - intros Ho Hl.
    rewrite (windowOf_integers env q 0 0 Ho Hl) in Hw by lia.
    injection Hw as <- <-. simpl. apply sortBy_perm.
Qed.

Lemma getBlogs_lists_live_visible_blogs_witness :
  listingDb = listingDb
  /\ Forall (fun b => In b (blogs listingDb)
                      /\ b_status b <> Deleted
                      /\ (false = false -> b_hidden b = false))
            [ pinnedBlog 3 "z" true false Active;
              pinnedBlog 2 "a" false false Active ]
  /\ (forall o l,
         JsInt 0 = JsInt o -> JsInt 2 = JsInt l ->
         (0 <= o)%Z -> (0 < l)%Z ->
         List.length [ pinnedBlog 3 "z" true false Active;
                       pinnedBlog 2 "a" false false Active ]
         <= Z.to_nat l)
  /\ (JsInt 0 = JsInt 0 -> JsInt 2 = JsInt 0 ->
      Permutation [ pinnedBlog 3 "z" true false Active;
                    pinnedBlog 2 "a" false false Active ]
                  (filter (blogQueryMatch
                             (mkBlogQuery None None false (JsInt 2)
                                          (JsInt 0)))
                          (blogs listingDb))).
Proof.
  apply (getBlogs_lists_live_visible_blogs sampleEnv
           (mkBlogQuery None None false (JsInt 2) (JsInt 0)) listingDb _
           listingDb).
  reflexivity.
Defined.

(** With limit 0 every visible blog is listed, the pinned one first. *)
Example getBlogs_without_limit :
  fst (getBlogs sampleEnv
         (mkBlogQuery None None false (JsInt 0) (JsInt 0)) listingDb)
  = Ok [ pinnedBlog 3 "z" true false Active;
         pinnedBlog 2 "a" false false Active;
         pinnedBlog 1 "b" false false Active ].
Proof. reflexivity. Qed.

Lemma pinnedBefore_trans x y z :
  pinnedBefore x y -> pinnedBefore y z -> pinnedBefore x z.
Proof. unfold pinnedBefore. auto. Qed.

Lemma blogOrder_true x y : blogOrder x y = true -> pinnedBefore x y.
Proof.
  unfold blogOrder, pinnedBefore.
  destruct (b_pinned x), (b_pinned y); simpl; auto.
Qed.

Lemma blogOrder_false x y : blogOrder x y = false -> pinnedBefore y x.
Proof.
  unfold blogOrder, pinnedBefore.
  destruct (b_pinned x), (b_pinned y); simpl; auto; discriminate.
Qed.

Lemma insertSorted_pinned x l :
  StronglySorted pinnedBefore l ->
  StronglySorted pinnedBefore (insertSorted blogOrder x l).
Proof.
  induction 1 as [|y l Hl IH Hy]; simpl.
  - constructor; constructor.
  - destruct (blogOrder x y) eqn:E.
    + constructor; [constructor; auto|].
      constructor; [now apply blogOrder_true|].
      eapply Forall_impl; [|exact Hy]. intros z Hz.
      eapply pinnedBefore_trans; [apply blogOrder_true, E|exact Hz].
    + constructor; auto.
      eapply Permutation_Forall;
        [symmetry; apply insertSorted_perm|].
      constructor; auto. now apply blogOrder_false.
Qed.

Lemma StronglySorted_firstn {D : Type} (R : D -> D -> Prop) n l :
  StronglySorted R l -> StronglySorted R (firstn n l).
Proof.
  intros H. revert n. induction H as [|x l Hl IH Hx]; intros [|n]; simpl;
    try constructor; auto.
  apply Forall_forall. intros y Hy. apply In_firstn in Hy.
  rewrite Forall_forall in Hx. auto.
Qed.

Lemma StronglySorted_skipn {D : Type} (R : D -> D -> Prop) n l :
  StronglySorted R l -> StronglySorted R (skipn n l).
Proof.
  intros H. revert n. induction H as [|x l Hl IH Hx]; intros [|n]; simpl;
    auto; constructor; auto.
Qed.

(** X14.  In the list [getBlogs] returns, with any filter and any
    offset and limit (limit 0, which lists every match, included), no
    blog that is not pinned comes before a pinned one. *)
Theorem getBlogs_lists_pinned_blogs_first env q db bs db' :
  getBlogs env q db = (Ok bs, db') ->
  StronglySorted pinnedBefore bs.
Proof.
  intros H. apply getBlogs_cases in H.
  destruct H as [_ [[e He]|(skipped & bound & _ & Hr)]]; [discriminate|].
  injection Hr as ->.
  assert (Hs : StronglySorted pinnedBefore
                 (skipn skipped
                    (sortBy blogOrder
                       (filter (blogQueryMatch q) (blogs db))))).
  { apply StronglySorted_skipn. unfold sortBy.
    induction (filter (blogQueryMatch q) (blogs db)); simpl.
    - constructor.
    - now apply insertSorted_pinned. }
  destruct bound as [n|]; simpl; [apply StronglySorted_firstn|]; exact Hs.
Qed.

Lemma getBlogs_lists_pinned_blogs_first_witness :
  StronglySorted pinnedBefore
    [ pinnedBlog 3 "z" true false Active;
      pinnedBlog 2 "a" false false Active;
      pinnedBlog 1 "b" false false Active ].
Proof.
  apply (getBlogs_lists_pinned_blogs_first sampleEnv
           (mkBlogQuery None None false (JsInt 0) (JsInt 0)) listingDb _
           listingDb).
  reflexivity.
Defined.

(** ** The loops of a run *)

Lemma bind_Ok_inv {A B : Type} (m : M A) (k : A -> M B) db b db' :
  bind m k db = (Ok b, db') ->
  exists a db1, m db = (Ok a, db1) /\ k a db1 = (Ok b, db').
Proof.
  unfold bind. destruct (m db) as [[a|e] db1]; [eauto|discriminate].
Qed.

Lemma length_filter_le {D : Type} (p : D -> bool) l :
  List.length (filter p l) <= List.length l.
Proof.
  induction l as [|x l IH]; simpl; [lia|]. destruct (p x); simpl; lia.
Qed.

Lemma length_filter_split {D : Type} (p : D -> bool) l :
  List.length (filter p l) + List.length (filter (fun x => negb (p x)) l)
  = List.length l.
Proof.
  induction l as [|x l IH]; simpl; [lia|]. destruct (p x); simpl; lia.
Qed.

(** The loop over the sources ends without a throw whatever a source
    sync does, and counts every source once. *)
Lemma syncSources_counts env srcs :
  forall success failed db,
  exists s f db',
    syncSources env srcs success failed db = (Ok (s, f), db')
    /\ s + f = success + failed + List.length srcs
    /\ success <= s /\ failed <= f.
Proof.
  induction srcs as [|source rest IH]; intros success failed db.
  - exists success, failed, db. simpl. unfold ret.
    repeat split; lia.
  - cbn [syncSources]. unfold bind at 1. unfold tryCatch, bind at 1.
    destruct (syncSource env source db) as [[r|e] db1]; unfold ret.
    + destruct (sourceSyncSuccess r).
      * destruct (IH (S success) failed db1)
          as (s & f & db' & H & Hs & H1 & H2).
        exists s, f, db'. rewrite H. simpl. repeat split; lia.
      * destruct (IH success (S failed) db1)
          as (s & f & db' & H & Hs & H1 & H2).
        exists s, f, db'. rewrite H. simpl. repeat split; lia.
    + destruct (IH success (S failed) db1)
        as (s & f & db' & H & Hs & H1 & H2).
      exists s, f, db'. rewrite H. simpl. repeat split; lia.
Qed.

(** The loop over the blogs: the same, with the skipped blogs counted
    apart. *)
Lemma syncBlogs_counts env opts bs :
  forall t db,
  exists t' db',
    syncBlogs env opts bs t db = (Ok t', db')
    /\ blogsSkipped t'
       = blogsSkipped t + List.length (filter skipsItemFetch bs)
    /\ blogsSuccess t' + blogsFailed t'
       = blogsSuccess t + blogsFailed t
         + List.length (filter (fun b => negb (skipsItemFetch b)) bs).
Proof.
  induction bs as [|blog rest IH]; intros t db.
  - exists t, db. simpl. unfold ret. repeat split; lia.
  - cbn [syncBlogs filter]. destruct (skipsItemFetch blog); cbn [negb].
    + destruct (IH (tallySkipped t) db) as (t' & db' & H & Hs & Hc).
      exists t', db'. rewrite H. simpl in *. repeat split; lia.
    + unfold bind at 1. unfold tryCatch, bind at 1.
      destruct (syncBlogItems env blog (maxItemsPerBlog opts) db)
        as [[r|e] db1]; unfold ret.
      * destruct (IH (tallyResult t r) db1) as (t' & db' & H & Hs & Hc).
        exists t', db'. rewrite H. destruct r; simpl in *;
          repeat split; lia.
      * destruct (IH (tallyFailed t) db1) as (t' & db' & H & Hs & Hc).
        exists t', db'. rewrite H. simpl in *. repeat split; lia.
Qed.

Lemma getBlogs_length env db bs db' :
  getBlogs env runQuery db = (Ok bs, db') -> List.length bs <= 1000.
Proof.
  intros H. apply getBlogs_cases in H.
  destruct H as [_ [[e He]|(skipped & bound & Hw & Hr)]]; [discriminate|].
  injection Hr as ->. injection Hw as <- <-. apply firstn_le_length.
Qed.

(** X15.  A source whose sync fails or throws does not stop the loop of
    the run over the sources: whatever the store and the network do,
    the loop ends without a throw and every source is counted exactly
    once, as a success or as a failure. *)
Theorem source_loop_counts_every_source env srcs db :
  exists s f db',
    syncSources env srcs 0 0 db = (Ok (s, f), db')
    /\ s + f = List.length srcs.
Proof.
  destruct (syncSources_counts env srcs 0 0 db)
    as (s & f & db' & H & Hs & _).
  exists s, f, db'. split; [exact H|lia].
Qed.

(** X16.  A blog whose item sync fails or throws does not stop the loop
    of the run over the blogs: the loop ends without a throw; the blogs
    with the Microsub provenance or the skip flag are counted as
    skipped and every other blog exactly once as a success or as a
    failure. *)
Theorem blog_loop_counts_every_blog env opts bs db :
  exists t db',
    syncBlogs env opts bs (mkBlogTally 0 0 0 0) db = (Ok t, db')
    /\ blogsSkipped t = List.length (filter skipsItemFetch bs)
    /\ blogsSuccess t + blogsFailed t + blogsSkipped t = List.length bs.
Proof.
  destruct (syncBlogs_counts env opts bs (mkBlogTally 0 0 0 0) db)
    as (t & db' & H & Hs & Hc).
  exists t, db'. split; [exact H|]. simpl in Hs, Hc.
  pose proof (length_filter_split skipsItemFetch bs). split; lia.
Qed.

(** X17.  When a run returns its counts, the flag was clear, the
    [syncStats] document of the store holds the same counts and
    duration, every enabled source is counted as a success or a
    failure, and the successes and failures of the blogs are at most
    the blogs listed (skipped blogs are in the total only), of which
    there are at most 1000. *)
Theorem runFullSync_report_is_the_stored_one env opts st d s b a x st' :
  runFullSync env opts st = (Ok (RunDone d s b a x), st') ->
  isRunning st = false
  /\ meta (store st') = Some (mkSyncStats (now env) d s b a x)
  /\ t_success s + t_failed s = t_total s
  /\ t_success b + t_failed b <= t_total b
  /\ t_total b <= 1000.
Proof.
  unfold runFullSync. destruct (isRunning st) eqn:Hrun; [discriminate|].
  unfold tryCatch. cbn [store].
  destruct (runBody env opts (store st)) as [[r|e] db'] eqn:E;
    [|discriminate].
  intros [= -> <-]. split; [reflexivity|]. cbn [store].
  unfold runBody in E.
  apply bind_Ok_inv in E. destruct E as (n & db1 & _ & E).
  apply bind_Ok_inv in E. destruct E as (all & db2 & _ & E).
  cbv zeta in E.
  apply bind_Ok_inv in E. destruct E as (counts & db3 & Hsrc & E).
  apply bind_Ok_inv in E. destruct E as (bs & db4 & Hget & E).
  apply bind_Ok_inv in E. destruct E as (t & db5 & Hblogs & E).
  apply bind_Ok_inv in E. destruct E as ([] & db6 & Hmeta & E).
  unfold ret in E. injection E as <- <- <- <- <- <-.
  apply call_cases in Hmeta.
  destruct Hmeta as [(e & He & _)|[_ ->]]; [discriminate|].
  split; [reflexivity|]. cbn [t_success t_failed t_total].
  destruct (syncSources_counts env (filter syncableSource all) 0 0 db2)
    as (s0 & f0 & db3' & Hsrc' & Hsum & _).
  rewrite Hsrc in Hsrc'. injection Hsrc' as -> _. cbn [fst snd].
  destruct (syncBlogs_counts env opts bs (mkBlogTally 0 0 0 0) db4)
    as (t0 & db5' & Hblogs' & _ & Hcount).
  rewrite Hblogs in Hblogs'. injection Hblogs' as -> _.
  simpl in Hcount.
  pose proof (length_filter_le (fun b => negb (skipsItemFetch b)) bs).
  split; [lia|]. split; [lia|].
  exact (getBlogs_length _ _ _ _ Hget).
Qed.

Lemma runFullSync_report_is_the_stored_one_witness :
  isRunning (mkSched false busyDb) = false
  /\ meta (store (snd (runFullSync feedAEnv defaultOptions
                                   (mkSched false busyDb))))
     = Some (mkSyncStats (now feedAEnv) 5 (mkTally 2 1 1) (mkTally 3 1 1)
                         1 0)
  /\ t_success (mkTally 2 1 1) + t_failed (mkTally 2 1 1)
     = t_total (mkTally 2 1 1)
  /\ t_success (mkTally 3 1 1) + t_failed (mkTally 3 1 1)
     <= t_total (mkTally 3 1 1)
  /\ t_total (mkTally 3 1 1) <= 1000.
Proof.
  apply (runFullSync_report_is_the_stored_one feedAEnv defaultOptions
           (mkSched false busyDb) 5 (mkTally 2 1 1) (mkTally 3 1 1) 1 0
           (snd (runFullSync feedAEnv defaultOptions
                             (mkSched false busyDb)))).
  vm_compute. reflexivity.
Defined.

(** The run of the witness: of the two enabled sources the OPML document
    succeeds and the JSON feed source fails; of the three blogs listed
    one is synced and gains an item, one fails, and the mirrored one is
    skipped. *)
Example run_over_a_busy_store :
  fst (runFullSync feedAEnv defaultOptions (mkSched false busyDb))
  = Ok (RunDone 5 (mkTally 2 1 1) (mkTally 3 1 1) 1 0)
  /\ map (fun b => (b_id b, b_status b, b_itemCount b))
         (blogs (store (snd (runFullSync feedAEnv defaultOptions
                                         (mkSched false busyDb)))))
     = [(1, Active, 1); (2, Error, 0); (3, Active, 0)]
  /\ map (fun s => (s_id s, s_lastSyncError s))
         (sources (store (snd (runFullSync feedAEnv defaultOptions
                                           (mkSched false busyDb)))))
     = [(7, None); (8, Some "Unsupported source type: json_feed");
        (9, None)].
Proof. repeat split; vm_compute; reflexivity. Qed.

(** ** The adapters and the item sync on a failure *)

Lemma updateSourceSyncStatus_at env id st db l1 s l2 :
  noFaults env ->
  sources db = l1 ++ s :: l2 ->
  Forall (fun y => s_id y <> id) l1 ->
  s_id s = id ->
  updateSourceSyncStatus env id st db
  = (Ok tt, withSources db (l1 ++ applySyncStatus env st s :: l2)).
Proof.
  intros Hok Hl Hl1 Hs. unfold updateSourceSyncStatus.
  rewrite call_ok by apply Hok. rewrite Hl, updateFirst_at.
  - reflexivity.
  - now apply Nat.eqb_eq.
  - eapply Forall_impl; [|exact Hl1]. intros y Hy. now apply Nat.eqb_neq.
Qed.

Lemma updateSourceSyncStatus_absent env id st db :
  noFaults env ->
  Forall (fun y => s_id y <> id) (sources db) ->
  updateSourceSyncStatus env id st db = (Ok tt, db).
Proof.
  intros Hok Hall. unfold updateSourceSyncStatus.
  rewrite call_ok by apply Hok.
  assert (Hn : updateFirst (fun s => (s_id s =? id)%nat)
                           (applySyncStatus env st) (sources db) = None).
  { apply updateFirst_none. eapply Forall_impl; [|exact Hall].
    intros y Hy. now apply Nat.eqb_neq. }
  now rewrite Hn.
Qed.

(** X18.  [syncOpmlSource] handles the two OPML types only.  For a
    source of any other type (the run sends "json_feed" sources here)
    it answers, when the store answers, with the failure "Unsupported
    source type: <type>" and writes no blog and no item.  The first
    stored source with the id gets this message as its last sync error,
    in its place, and keeps its last successful sync time, type and
    enabled flag; when no source with the id is stored, nothing is
    written. *)
Theorem syncOpmlSource_rejects_other_types env source db :
  noFaults env ->
  s_type source <> OpmlUrl ->
  s_type source <> OpmlFile ->
  exists db',
    syncOpmlSource env source db
    = (Ok (SourceFailed ("Unsupported source type: "
                         +++ sourceTypeName (s_type source))), db')
    /\ blogs db' = blogs db
    /\ items db' = items db
    /\ (forall l1 s l2,
           sources db = l1 ++ s :: l2 ->
           s_id s = s_id source ->
           Forall (fun y => s_id y <> s_id source) l1 ->
           exists s',
             sources db' = l1 ++ s' :: l2
             /\ s_lastSyncError s'
                = Some ("Unsupported source type: "
                        +++ sourceTypeName (s_type source))
             /\ s_lastSyncAt s' = s_lastSyncAt s
             /\ s_id s' = s_id s /\ s_type s' = s_type s
             /\ s_enabled s' = s_enabled s)
    /\ (Forall (fun y => s_id y <> s_id source) (sources db) ->
        db' = db).
Proof.
  intros Hok Hurl Hfile. unfold syncOpmlSource, tryCatch.
  set (msg := "Unsupported source type: "
              +++ sourceTypeName (s_type source)).
  assert (Hthrow :
    forall k : list OpmlEntry -> M SourceSync,
      bind (match s_type source with
            | OpmlUrl => fetchAndParseOpml env (interp (s_url source))
            | OpmlFile => parseOpml env (interp (s_opmlContent source))
            | t => throw ("Unsupported source type: " +++ sourceTypeName t)
            end) k db = (Throw msg, db)).
  { intros k. unfold msg. destruct (s_type source); try congruence;
      reflexivity. }
  rewrite Hthrow.
  destruct (updateSourceSyncStatus_ok env (s_id source) (SyncedErr msg) db
              Hok) as (db' & Hupd & Hblogs).
  exists db'. rewrite (bind_ok _ _ _ _ _ Hupd).
  split; [reflexivity|]. split; [exact Hblogs|].
  assert (Hitems : items db' = items db).
  { pose proof Hupd as H0. apply call_cases in H0.
    destruct H0 as [(e0 & He0 & _)|[_ ->]]; [discriminate|].
    destruct (updateFirst _ _ (sources db)) as [[o ss]|]; reflexivity. }
  split; [exact Hitems|]. split.
  - intros l1 s l2 Hl Hs Hl1.
    rewrite (updateSourceSyncStatus_at env _ (SyncedErr msg) db l1 s l2
               Hok Hl Hl1 Hs) in Hupd.
    injection Hupd as <-.
    exists (applySyncStatus env (SyncedErr msg) s).
    repeat split.
  - intros Hall.
    rewrite (updateSourceSyncStatus_absent env _ (SyncedErr msg) db
               Hok Hall) in Hupd.
    now injection Hupd.
Qed.

Lemma syncOpmlSource_rejects_other_types_witness :
  exists db',
    syncOpmlSource sampleEnv (sampleSource 8 JsonFeedSource) busyDb
    = (Ok (SourceFailed ("Unsupported source type: "
                         +++ sourceTypeName
                               (s_type (sampleSource 8 JsonFeedSource)))),
       db')
    /\ blogs db' = blogs busyDb
    /\ items db' = items busyDb
    /\ (forall l1 s l2,
           sources busyDb = l1 ++ s :: l2 ->
           s_id s = s_id (sampleSource 8 JsonFeedSource) ->
           Forall (fun y => s_id y <> s_id (sampleSource 8 JsonFeedSource))
                  l1 ->
           exists s',
             sources db' = l1 ++ s' :: l2
             /\ s_lastSyncError s'
                = Some ("Unsupported source type: "
                        +++ sourceTypeName
                              (s_type (sampleSource 8 JsonFeedSource)))
             /\ s_lastSyncAt s' = s_lastSyncAt s
             /\ s_id s' = s_id s /\ s_type s' = s_type s
             /\ s_enabled s' = s_enabled s)
    /\ (Forall (fun y => s_id y <> s_id (sampleSource 8 JsonFeedSource))
               (sources busyDb) ->
        db' = busyDb).
Proof.
  apply (syncOpmlSource_rejects_other_types sampleEnv
           (sampleSource 8 JsonFeedSource) busyDb).
  - intros c m. reflexivity.
  - discriminate.
  - discriminate.
Defined.

(** The source of the witness is stored, and the error is on it
    afterwards. *)
Example unsupported_type_is_recorded :
  map (fun s => (s_id s, s_lastSyncError s))
      (sources (snd (syncOpmlSource sampleEnv (sampleSource 8 JsonFeedSource)
                                    busyDb)))
  = [(7, None); (8, Some "Unsupported source type: json_feed"); (9, None)].
Proof. vm_compute. reflexivity. Qed.

Lemma fetchAndParseFeed_throw env url maxItems e db :
  fetchFeed env url = Throw e ->
  fetchAndParseFeed env url maxItems db = (Throw e, db).
Proof. intros H. unfold fetchAndParseFeed. now rewrite H. Qed.

Lemma updateBlogStatus_at env id st db l1 x l2 :
  noFaults env ->
  blogs db = l1 ++ x :: l2 ->
  Forall (fun y => b_id y <> id) l1 ->
  b_id x = id ->
  updateBlogStatus env id st db
  = (Ok tt, withBlogs db (l1 ++ applyFetchStatus env st x :: l2)).
Proof.
  intros Hok Hl Hl1 Hx. unfold updateBlogStatus, updateBlogById, bind.
  rewrite call_ok by apply Hok. rewrite Hl, updateFirst_at.
  - reflexivity.
  - now apply Nat.eqb_eq.
  - eapply Forall_impl; [|exact Hl1]. intros y Hy. now apply Nat.eqb_neq.
Qed.

Lemma updateBlogStatus_absent env id st db :
  noFaults env ->
  Forall (fun y => b_id y <> id) (blogs db) ->
  updateBlogStatus env id st db = (Ok tt, db).
Proof.
  intros Hok Hall. unfold updateBlogStatus, updateBlogById, bind.
  rewrite call_ok by apply Hok.
  assert (Hn : updateFirst (fun b => (b_id b =? id)%nat)
                           (applyFetchStatus env st) (blogs db) = None).
  { apply updateFirst_none. eapply Forall_impl; [|exact Hall].
    intros y Hy. now apply Nat.eqb_neq. }
  now rewrite Hn.
Qed.

(** X19.  When the feed of a blog cannot be fetched and the store
    answers, [syncBlogItems] does not throw: it answers with the failure
    and its message and writes no item and no source.  The first stored
    blog with the id gets, in its place, status "error" and the message
    as its last error, and keeps its item count, last fetch time, feed
    URL and id; every other blog is as it was, and when no blog with
    the id is stored nothing is written. *)
Theorem syncBlogItems_records_a_fetch_failure env blog maxItems e db :
  noFaults env ->
  fetchFeed env (b_feedUrl blog) = Throw e ->
  exists db',
    syncBlogItems env blog maxItems db = (Ok (ItemsFailed e), db')
    /\ items db' = items db
    /\ sources db' = sources db
    /\ (forall l1 x l2,
           blogs db = l1 ++ x :: l2 ->
           b_id x = b_id blog ->
           Forall (fun y => b_id y <> b_id blog) l1 ->
           exists y,
             blogs db' = l1 ++ y :: l2
             /\ b_status y = Error
             /\ b_lastError y = Some e
             /\ b_itemCount y = b_itemCount x
             /\ b_lastFetchAt y = b_lastFetchAt x
             /\ b_feedUrl y = b_feedUrl x
             /\ b_id y = b_id x)
    /\ (Forall (fun y => b_id y <> b_id blog) (blogs db) -> db' = db).
Proof.
  intros Hok Hfetch. unfold syncBlogItems, tryCatch.
  rewrite (bind_throw _ _ _ _ _
             (fetchAndParseFeed_throw env _ maxItems e db Hfetch)).
  destruct (updateBlogStatus env (b_id blog) (FetchedErr e) db)
    as [r db'] eqn:Hupd.
  assert (Hr : r = Ok tt /\ items db' = items db /\ sources db' = sources db).
  { revert Hupd. unfold updateBlogStatus, updateBlogById, bind.
    rewrite call_ok by apply Hok.
    destruct (updateFirst _ _ (blogs db)) as [[o bs]|];
      cbn [fst snd]; unfold ret; intros [= <- <-]; repeat split. }
  destruct Hr as (-> & Hitems & Hsources).
  exists db'. rewrite (bind_ok _ _ _ _ _ Hupd).
  split; [reflexivity|]. split; [exact Hitems|]. split; [exact Hsources|].
  split.
  - intros l1 x l2 Hl Hx Hl1.
    rewrite (updateBlogStatus_at env _ (FetchedErr e) db l1 x l2
               Hok Hl Hl1 Hx) in Hupd.
    injection Hupd as <-.
    exists (applyFetchStatus env (FetchedErr e) x). repeat split.
  - intros Hall.
    rewrite (updateBlogStatus_absent env _ (FetchedErr e) db Hok Hall)
      in Hupd.
    now injection Hupd.
Qed.

Lemma syncBlogItems_records_a_fetch_failure_witness :
  exists db',
    syncBlogItems sampleEnv blogA 50 blogADb
    = (Ok (ItemsFailed "HTTP 404"), db')
    /\ items db' = items blogADb
    /\ sources db' = sources blogADb
    /\ (forall l1 x l2,
           blogs blogADb = l1 ++ x :: l2 ->
           b_id x = b_id blogA ->
           Forall (fun y => b_id y <> b_id blogA) l1 ->
           exists y,
             blogs db' = l1 ++ y :: l2
             /\ b_status y = Error
             /\ b_lastError y = Some "HTTP 404"
             /\ b_itemCount y = b_itemCount x
             /\ b_lastFetchAt y = b_lastFetchAt x
             /\ b_feedUrl y = b_feedUrl x
             /\ b_id y = b_id x)
    /\ (Forall (fun y => b_id y <> b_id blogA) (blogs blogADb) ->
        db' = blogADb).
Proof.
  apply (syncBlogItems_records_a_fetch_failure sampleEnv blogA 50
           "HTTP 404" blogADb).
  - intros c m. reflexivity.
  - reflexivity.
Defined.

(** The blog of the witness is stored, and the error is on it
    afterwards. *)
Example fetch_failure_is_recorded :
  map (fun b => (b_id b, b_status b, b_lastError b))
      (blogs (snd (syncBlogItems sampleEnv blogA 50 blogADb)))
  = [(1, Error, Some "HTTP 404")].
Proof. vm_compute. reflexivity. Qed.

(** ** The webhook *)

Lemma find_at {D : Type} (p : D -> bool) l1 x l2 :
  Forall (fun y => p y = false) l1 -> p x = true ->
  find p (l1 ++ x :: l2) = Some x.
Proof.
  intros Hl1 Hx. induction Hl1 as [|y l1 Hy _ IH]; simpl.
  - now rewrite Hx.
  - now rewrite Hy.
Qed.

(** X20.  A "subscribe" webhook for a feed URL that the store only
    knows as deleted answers "added" although nothing is written: the
    look-up of an existing blog does not see deleted blogs, and the
    upsert that follows is skipped because of them. *)
Theorem webhook_subscribe_to_a_deleted_feed
  env url channelName title db d :
  noFaults env ->
  In d (blogs db) -> b_feedUrl d = url -> b_status d = Deleted ->
  (forall x, In x (blogs db) -> b_feedUrl x = url -> b_status x = Deleted) ->
  handleMicrosubWebhook env Subscribe url channelName title db
  = (Ok WebhookAdded, db).
Proof.
  intros Hok Hin Hurl Hst Hall. unfold handleMicrosubWebhook.
  assert (Hget : getBlogByFeedUrl env url db = (Ok None, db)).
  { unfold getBlogByFeedUrl. rewrite call_ok by apply Hok. cbn [fst snd].
    unfold findOne.
    destruct (find _ (blogs db)) as [x|] eqn:E; [|reflexivity].
    apply find_some in E. destruct E as [Hx Hp].
    apply andb_prop in Hp. destruct Hp as [Hu Hl].
    apply String.eqb_eq in Hu. apply negb_true_iff in Hl.
    assert (Hd : status_eqb (b_status x) Deleted = true)
      by (apply status_eqb_eq; auto).
    congruence. }
  rewrite (bind_ok _ _ _ _ _ Hget).
  assert (Hdel : isDeletedWithUrl
                   (c_feedUrl (webhookCandidate env url channelName title))
                   d = true).
  { unfold isDeletedWithUrl. cbn [c_feedUrl webhookCandidate].
    rewrite Hurl, String.eqb_refl. apply status_eqb_eq. exact Hst. }
  rewrite (bind_ok _ _ _ _ _
             (upsertBlog_skips env _ db d (Hok _ _) Hin Hdel)).
  reflexivity.
Qed.

Lemma webhook_subscribe_to_a_deleted_feed_witness :
  handleMicrosubWebhook sampleEnv Subscribe feedUrlA None None
    (mkDb [sampleBlog 1 feedUrlA None Deleted] [] [] None 2)
  = (Ok WebhookAdded,
     mkDb [sampleBlog 1 feedUrlA None Deleted] [] [] None 2).
Proof.
  apply (webhook_subscribe_to_a_deleted_feed sampleEnv feedUrlA None None
           (mkDb [sampleBlog 1 feedUrlA None Deleted] [] [] None 2)
           (sampleBlog 1 feedUrlA None Deleted)).
  - intros c m. reflexivity.
  - simpl. left. reflexivity.
  - reflexivity.
  - reflexivity.
  - intros x [<-|[]] _. reflexivity.
Defined.

(** X21.  An "unsubscribe" webhook for the URL of a blog with a
    Microsub provenance that is not deleted marks the first such blog
    inactive in its place and answers "deactivated".  The blog is not
    deleted by this: every listing that matched it before still
    does. *)
Theorem webhook_unsubscribe_deactivates
  env url channelName title db l1 x l2 s :
  noFaults env ->
  blogs db = l1 ++ x :: l2 ->
  Forall (fun y => b_id y <> b_id x) l1 ->
  Forall (fun y => b_feedUrl y <> url \/ b_status y = Deleted) l1 ->
  b_feedUrl x = url ->
  b_status x <> Deleted ->
  b_source x = Some s ->
  prefix "microsub" s = true ->
  handleMicrosubWebhook env Unsubscribe url channelName title db
  = (Ok WebhookDeactivated, withBlogs db (l1 ++ deactivate env x :: l2))
  /\ b_status (deactivate env x) = Inactive
  /\ forall q, blogQueryMatch q (deactivate env x) = blogQueryMatch q x.
Proof.
  intros Hok Hl Hids Hl1 Hurl Hst Hsrc Hpre.
  assert (Hlive : status_eqb (b_status x) Deleted = false).
  { destruct (status_eqb (b_status x) Deleted) eqn:E; auto.
    apply status_eqb_eq in E. contradiction. }
  split; [|split; [reflexivity|]].
  - unfold handleMicrosubWebhook.
    assert (Hget : getBlogByFeedUrl env url db = (Ok (Some x), db)).
    { unfold getBlogByFeedUrl. rewrite call_ok by apply Hok.
      cbn [fst snd]. unfold findOne. rewrite Hl, find_at; auto.
      - eapply Forall_impl; [|exact Hl1]. intros y [Hy|Hy]; simpl.
        + apply String.eqb_neq in Hy. now rewrite Hy.
        + apply status_eqb_eq in Hy. rewrite Hy. apply andb_false_r.
      - simpl. now rewrite Hurl, String.eqb_refl, Hlive. }
    rewrite (bind_ok _ _ _ _ _ Hget). rewrite Hsrc, Hpre.
    unfold updateBlogById, bind. rewrite call_ok by apply Hok.
    rewrite Hl, updateFirst_at.
    + reflexivity.
    + apply Nat.eqb_refl.
    + eapply Forall_impl; [|exact Hids]. intros y Hy.
      now apply Nat.eqb_neq.
  - intros q. unfold blogQueryMatch. cbn [deactivate b_status b_hidden
      b_category b_sourceId]. rewrite Hlive. reflexivity.
Qed.

Lemma webhook_unsubscribe_deactivates_witness :
  handleMicrosubWebhook sampleEnv Unsubscribe feedUrlA None None mirrorDb
  = (Ok WebhookDeactivated,
     withBlogs mirrorDb
       ([] ++ deactivate sampleEnv (mirrorBlog 1 feedUrlA 5 "f1") :: []))
  /\ b_status (deactivate sampleEnv (mirrorBlog 1 feedUrlA 5 "f1"))
     = Inactive
  /\ forall q,
       blogQueryMatch q (deactivate sampleEnv (mirrorBlog 1 feedUrlA 5 "f1"))
       = blogQueryMatch q (mirrorBlog 1 feedUrlA 5 "f1").
Proof.
  apply (webhook_unsubscribe_deactivates sampleEnv feedUrlA None None
           mirrorDb [] (mirrorBlog 1 feedUrlA 5 "f1") [] "microsub").
  - intros c m. reflexivity.
  - reflexivity.
  - constructor.
  - constructor.
  - reflexivity.
  - discriminate.
  - reflexivity.
  - reflexivity.
Defined.

(** ** Clearing and deleting *)

(** X22.  [clearAndResync] clears before it asks for a run.  Called
    while a run is in progress, and with the store answering, it
    answers [{ skipped: true }] and yet every item is gone and every
    blog that is not deleted has its status, counters and fetch time
    reset; deleted blogs, sources and sync stats are left as they
    were. *)
Theorem clearAndResync_clears_even_while_running env opts st :
  noFaults env ->
  isRunning st = true ->
  exists db',
    clearAndResync env opts st = (Ok RunSkipped, mkSched true db')
    /\ items db' = []
    /\ sources db' = sources (store st)
    /\ meta db' = meta (store st)
    /\ Forall2 (fun x y =>
                  (b_status x = Deleted -> y = x)
                  /\ (b_status x <> Deleted ->
                      b_status y = Active /\ b_itemCount y = 0
                      /\ b_lastFetchAt y = None /\ b_lastError y = None
                      /\ b_id y = b_id x /\ b_feedUrl y = b_feedUrl x
                      /\ b_hidden y = b_hidden x))
               (blogs (store st)) (blogs db').
Proof.
  intros Hok Hrun. unfold clearAndResync, clearItemsAndCounters, bind.
  rewrite call_ok by apply Hok. cbn [fst snd].
  rewrite call_ok by apply Hok. cbn [fst snd].
  unfold runFullSync. cbn [isRunning]. rewrite Hrun.
  eexists. split; [reflexivity|].
  cbn [items sources meta blogs withBlogs withItems].
  repeat split.
  unfold updateMany. induction (blogs (store st)) as [|x l IH]; simpl;
    constructor; auto.
  unfold notDeleted.
  destruct (status_eqb (b_status x) Deleted) eqn:E; simpl.
  - split; [reflexivity|]. apply status_eqb_eq in E. contradiction.
  - split; [|intros _; repeat split].
    intros Hd. apply status_eqb_eq in Hd. congruence.
Qed.

Lemma clearAndResync_clears_even_while_running_witness :
  exists db',
    clearAndResync sampleEnv defaultOptions (mkSched true listingDb)
    = (Ok RunSkipped, mkSched true db')
    /\ items db' = []
    /\ sources db' = sources (store (mkSched true listingDb))
    /\ meta db' = meta (store (mkSched true listingDb))
    /\ Forall2 (fun x y =>
                  (b_status x = Deleted -> y = x)
                  /\ (b_status x <> Deleted ->
                      b_status y = Active /\ b_itemCount y = 0
                      /\ b_lastFetchAt y = None /\ b_lastError y = None
                      /\ b_id y = b_id x /\ b_feedUrl y = b_feedUrl x
                      /\ b_hidden y = b_hidden x))
               (blogs (store (mkSched true listingDb))) (blogs db').
Proof.
  apply (clearAndResync_clears_even_while_running sampleEnv defaultOptions
           (mkSched true listingDb)).
  - intros c m. reflexivity.
  - reflexivity.
Defined.

Lemma deleteFirst_some {D : Type} (p : D -> bool) l l' :
  deleteFirst p l = Some l' ->
  exists l1 x l2,
    l = l1 ++ x :: l2 /\ l' = l1 ++ l2
    /\ p x = true /\ Forall (fun y => p y = false) l1.
Proof.
  revert l'. induction l as [|d rest IH]; intros l'; simpl; [discriminate|].
  destruct (p d) eqn:Hp.
  - intros [= <-]. exists [], d, rest. auto.
  - destruct (deleteFirst p rest) as [r'|]; [|discriminate].
    intros [= <-].
    destruct (IH _ eq_refl) as (l1 & x & l2 & -> & -> & Hx & Hall).
    exists (d :: l1), x, l2. auto.
Qed.

Lemma deleteFirst_none {D : Type} (p : D -> bool) l :
  deleteFirst p l = None -> Forall (fun y => p y = false) l.
Proof.
  induction l as [|d rest IH]; simpl; [constructor|].
  destruct (p d) eqn:Hp; [discriminate|].
  destruct (deleteFirst p rest); [discriminate|]. auto.
Qed.

Lemma ofSource_iff id b : ofSource id b = true <-> b_sourceId b = Some id.
Proof. apply optId_eqb_eq. Qed.

(** X23.  [deleteSource] is a hard delete.  When the store answers, the
    blogs left are the blogs of other sources (the deleted blogs of the
    source are removed with the others, so that nothing remembers them),
    the items left are those of no blog of the source, the first source
    with the id is removed, and the result says whether there was
    one. *)
Theorem deleteSource_removes_blogs_and_items env id db :
  noFaults env ->
  exists r db',
    deleteSource env id db = (Ok r, db')
    /\ (forall b, In b (blogs db')
                  <-> In b (blogs db) /\ b_sourceId b <> Some id)
    /\ (forall i, In i (items db')
                  <-> In i (items db)
                      /\ forall b, In b (blogs db) ->
                                   b_sourceId b = Some id ->
                                   b_id b <> i_blogId i)
    /\ (r = true <-> exists s, In s (sources db) /\ s_id s = id)
    /\ (r = false -> sources db' = sources db)
    /\ (r = true ->
        exists l1 s l2,
          sources db = l1 ++ s :: l2 /\ s_id s = id
          /\ Forall (fun y => s_id y <> id) l1
          /\ sources db' = l1 ++ l2).
Proof.
  intros Hok. unfold deleteSource, bind.
  rewrite call_ok by apply Hok. cbn [fst snd].
  remember (filter (ofSource id) (blogs db)) as owned eqn:Eo.
  assert (Hown : forall b, In b owned
                           <-> In b (blogs db) /\ b_sourceId b = Some id).
  { intros b. rewrite Eo, filter_In, ofSource_iff. tauto. }
  clear Eo.
  assert (Hitems :
    exists db1,
      (match owned with
       | [] => ret tt
       | _ =>
           call env ItemsColl DeleteMany (fun db0 =>
             (tt, withItems db0
                    (deleteMany
                       (fun i => existsb (fun b => (b_id b =? i_blogId i)%nat)
                                         owned)
                       (items db0))))
       end) db = (Ok tt, db1)
      /\ blogs db1 = blogs db /\ sources db1 = sources db
      /\ forall i, In i (items db1)
                   <-> In i (items db)
                       /\ forall b, In b (blogs db) ->
                                    b_sourceId b = Some id ->
                                    b_id b <> i_blogId i).
  { destruct owned as [|o rest].
    - exists db. unfold ret. split; [reflexivity|].
      split; [reflexivity|]. split; [reflexivity|].
      intros i. split.
      + intros Hi. split; [exact Hi|]. intros b Hb Hs _.
        exact (proj2 (Hown b) (conj Hb Hs)).
      + tauto.
    - rewrite call_ok by apply Hok. eexists. split; [reflexivity|].
      cbn [fst snd blogs sources items withItems].
      split; [reflexivity|]. split; [reflexivity|].
      intros i. unfold deleteMany. rewrite filter_In, negb_true_iff.
      split.
      + intros [Hin Hex]. split; [exact Hin|]. intros b Hb Hs Heq.
        assert (Hex' : existsb (fun b0 => (b_id b0 =? i_blogId i)%nat)
                               (o :: rest) = true).
        { apply existsb_exists. exists b. split.
          - apply Hown. auto.
          - now apply Nat.eqb_eq. }
        congruence.
      + intros [Hin Hno]. split; [exact Hin|].
        destruct (existsb _ (o :: rest)) eqn:Hex; [|reflexivity].
        apply existsb_exists in Hex. destruct Hex as (b & Hb & Heq).
        apply Hown in Hb. apply Nat.eqb_eq in Heq.
        exfalso. apply (Hno b); tauto. }
  destruct Hitems as (db1 & Hrun & Hb1 & Hs1 & Hi1).
  rewrite Hrun.
  rewrite call_ok by apply Hok. cbn [fst snd].
  rewrite call_ok by apply Hok.
  cbn [sources withBlogs]. rewrite Hs1.
  destruct (deleteFirst _ (sources db)) as [ss|] eqn:E; cbn [fst snd];
    eexists _, _; (split; [reflexivity|]);
    cbn [blogs items sources withBlogs withSources]; rewrite Hb1.
  - destruct (deleteFirst_some _ _ _ E)
      as (l1 & s & l2 & Hl & Hss & Hs & Hl1).
    apply Nat.eqb_eq in Hs.
    split; [|split; [exact Hi1|]].
    + intros b. unfold deleteMany. rewrite filter_In, negb_true_iff.
      rewrite <- ofSource_iff.
      destruct (ofSource id b); intuition congruence.
    + split; [|split; [discriminate|]].
      * split; auto. intros _. exists s. split; auto.
        rewrite Hl. apply in_or_app. right. now left.
      * intros _. exists l1, s, l2. repeat split; auto.
        eapply Forall_impl; [|exact Hl1]. intros y Hy.
        now apply Nat.eqb_neq.
  - apply deleteFirst_none in E. rewrite Forall_forall in E.
    split; [|split; [exact Hi1|]].
    + intros b. unfold deleteMany. rewrite filter_In, negb_true_iff.
      rewrite <- ofSource_iff.
      destruct (ofSource id b); intuition congruence.
    + split; [|split; [intros _; exact Hs1|discriminate]].
      split; [discriminate|]. intros (s & Hin & Hs).
      specialize (E s Hin). apply Nat.eqb_neq in E. contradiction.
Qed.

Lemma deleteSource_removes_blogs_and_items_witness :
  fst (deleteSource sampleEnv 5 mirrorDb) = Ok true
  /\ blogs (snd (deleteSource sampleEnv 5 mirrorDb)) = []
  /\ exists r db',
       deleteSource sampleEnv 5 mirrorDb = (Ok r, db')
       /\ (forall b, In b (blogs db')
                     <-> In b (blogs mirrorDb) /\ b_sourceId b <> Some 5)
       /\ (forall i, In i (items db')
                     <-> In i (items mirrorDb)
                         /\ forall b, In b (blogs mirrorDb) ->
                                      b_sourceId b = Some 5 ->
                                      b_id b <> i_blogId i)
       /\ (r = true <-> exists s, In s (sources mirrorDb) /\ s_id s = 5)
       /\ (r = false -> sources db' = sources mirrorDb)
       /\ (r = true ->
           exists l1 s l2,
             sources mirrorDb = l1 ++ s :: l2 /\ s_id s = 5
             /\ Forall (fun y => s_id y <> 5) l1
             /\ sources db' = l1 ++ l2).
Proof.
  split; [reflexivity|]. split; [reflexivity|].
  apply (deleteSource_removes_blogs_and_items sampleEnv 5 mirrorDb).
  intros c m. reflexivity.
Defined.

(** X24.  [deleteItemsForBlog] removes, when the store answers, exactly
    the items of the blog, returns how many they were and writes
    nothing else. *)
Theorem deleteItemsForBlog_counts_what_it_removes env blogId db :
  storeFault env ItemsColl DeleteMany = None ->
  exists n db',
    deleteItemsForBlog env blogId db = (Ok n, db')
    /\ n + List.length (items db') = List.length (items db)
    /\ (forall i, In i (items db')
                  <-> In i (items db) /\ i_blogId i <> blogId)
    /\ blogs db' = blogs db
    /\ sources db' = sources db.
Proof.
  intros Hok. unfold deleteItemsForBlog. rewrite call_ok by exact Hok.
  eexists _, _. split; [reflexivity|].
  cbn [fst snd items blogs sources withItems]. repeat split.
  - unfold countMatching, deleteMany. apply length_filter_split.
  - unfold deleteMany in H. apply filter_In in H. tauto.
  - unfold deleteMany in H. apply filter_In in H. destruct H as [_ H].
    apply negb_true_iff in H. now apply Nat.eqb_neq.
  - intros [Hin Hne]. unfold deleteMany. apply filter_In. split; auto.
    apply negb_true_iff. now apply Nat.eqb_neq.
Qed.

Lemma deleteItemsForBlog_counts_what_it_removes_witness :
  exists n db',
    deleteItemsForBlog sampleEnv 1 blogADb = (Ok n, db')
    /\ n + List.length (items db') = List.length (items blogADb)
    /\ (forall i, In i (items db')
                  <-> In i (items blogADb) /\ i_blogId i <> 1)
    /\ blogs db' = blogs blogADb
    /\ sources db' = sources blogADb.
Proof.
  apply (deleteItemsForBlog_counts_what_it_removes sampleEnv 1 blogADb).
  reflexivity.
Defined.

(** X25.  The create handler refuses a feed URL that a blog which is
    not deleted has already: it answers "A blog with this feed URL
    already exists" and writes nothing. *)
Theorem createBlogHandler_rejects_a_known_feed_url env data db x :
  storeFault env BlogsColl FindOne = None ->
  n_feedUrl data <> "" ->
  In x (blogs db) ->
  b_feedUrl x = n_feedUrl data ->
  b_status x <> Deleted ->
  createBlogHandler env data db
  = (CreateRejected "A blog with this feed URL already exists", db).
Proof.
  intros Hok Hne Hin Hurl Hst. unfold createBlogHandler.
  apply String.eqb_neq in Hne. rewrite Hne.
  unfold getBlogByFeedUrl. rewrite call_ok by exact Hok. cbn [fst snd].
  unfold findOne.
  destruct (find_first
              (fun b => (b_feedUrl b =? n_feedUrl data)
                        && negb (status_eqb (b_status b) Deleted))
              (blogs db) x Hin) as [y Hy].
  - rewrite Hurl, String.eqb_refl. simpl. apply negb_true_iff.
    destruct (status_eqb (b_status x) Deleted) eqn:E; auto.
    apply status_eqb_eq in E. contradiction.
  - now rewrite Hy.
Qed.

Lemma createBlogHandler_rejects_a_known_feed_url_witness :
  createBlogHandler sampleEnv
    (mkNewBlog None "Again" None feedUrlA None None None [] None None
               false false None)
    blogADb
  = (CreateRejected "A blog with this feed URL already exists", blogADb).
Proof.
  apply (createBlogHandler_rejects_a_known_feed_url sampleEnv
           (mkNewBlog None "Again" None feedUrlA None None None [] None None
                      false false None)
           blogADb blogA).
  - reflexivity.
  - discriminate.
  - simpl. left. reflexivity.
  - reflexivity.
  - discriminate.
Defined.

(** ** The items of a sync *)

Lemma parsedFeed_length env raw url maxItems :
  List.length (pf_items (parsedFeed env raw url maxItems)) <= maxItems.
Proof.
  destruct raw as [m its|m its]; simpl; rewrite length_map;
    apply firstn_le_length.
Qed.

(** The counter of the loop over the items counts the inserted items. *)
Lemma upsertItems_count env blogId its :
  storeFault env ItemsColl UpdateOne = None ->
  forall added db, exists added' db',
    upsertItems env blogId its added db = (Ok added', db')
    /\ added <= added' /\ added' <= added + List.length its
    /\ List.length (items db')
       = List.length (items db) + (added' - added).
Proof.
  intros Hok. induction its as [|it rest IH]; intros added db; simpl.
  - exists added, db. unfold ret. repeat split; lia.
  - destruct (upsertItem_identities env blogId it db Hok)
      as (r & db1 & Hrun & Hids & _).
    rewrite (bind_ok _ _ _ _ _ Hrun).
    apply (f_equal (@List.length _)) in Hids.
    rewrite length_app, !length_map in Hids.
    destruct (IH (if upserted r then S added else added) db1)
      as (added' & db' & Hrest & Hlo & Hhi & Hlen).
    exists added', db'. rewrite Hrest.
    destruct (upserted r); simpl in Hids; repeat split; lia.
Qed.

(** X26.  When the feed of a blog is fetched and the store answers,
    [syncBlogItems] reports as [total] the number of parsed items, at
    most [maxItems], and as [added] the number of items that the store
    has more than before, at most [total].  The first stored blog with
    the id gets, in its place, status "active", no error, the time of
    the fetch and [total] as its item count, and keeps its feed URL and
    id. *)
Theorem syncBlogItems_reports_the_inserted_items env blog maxItems raw db :
  noFaults env ->
  fetchFeed env (b_feedUrl blog) = Ok raw ->
  exists added total db',
    syncBlogItems env blog maxItems db
    = (Ok (ItemsSynced added total), db')
    /\ total = List.length
                 (pf_items (parsedFeed env raw (b_feedUrl blog) maxItems))
    /\ total <= maxItems
    /\ added <= total
    /\ List.length (items db') = List.length (items db) + added
    /\ (forall l1 x l2,
           blogs db = l1 ++ x :: l2 ->
           b_id x = b_id blog ->
           Forall (fun y => b_id y <> b_id blog) l1 ->
           exists y,
             blogs db' = l1 ++ y :: l2
             /\ b_status y = Active
             /\ b_itemCount y = total
             /\ b_lastError y = None
             /\ b_lastFetchAt y = Some (now env)
             /\ b_feedUrl y = b_feedUrl x
             /\ b_id y = b_id x).
Proof.
  intros Hok Hfetch.
  set (its := pf_items (parsedFeed env raw (b_feedUrl blog) maxItems)).
  destruct (upsertItems_count env (b_id blog) its (Hok _ _) 0 db)
    as (added & db1 & Hrun & _ & Hhi & Hlen).
  destruct (upsertItems_spec env (b_id blog) its (Hok _ _) 0 db)
    as (added' & db1' & Hrun' & Hb & _).
  rewrite Hrun in Hrun'. injection Hrun' as <- <-.
  destruct (syncBlogItems env blog maxItems db) as [r dbf] eqn:E.
  unfold syncBlogItems, tryCatch in E.
  rewrite (bind_ok _ _ _ _ _
             (fetchAndParseFeed_ok env _ maxItems raw db Hfetch)) in E.
  fold its in E. rewrite (bind_ok _ _ _ _ _ Hrun) in E.
  assert (Hmax : List.length its <= maxItems) by apply parsedFeed_length.
  match type of E with
  | context [updateBlogStatus env ?i ?st] =>
      destruct (updateBlogStatus env i st db1) as [u db'] eqn:Hupd;
      assert (Hu : u = Ok tt /\ items db' = items db1);
      [ revert Hupd; unfold updateBlogStatus, updateBlogById, bind;
        rewrite call_ok by apply Hok;
        destruct (updateFirst _ _ (blogs db1)) as [[o bs]|];
        cbn [fst snd]; unfold ret; intros [= <- <-]; split; reflexivity
      | destruct Hu as [-> Hitems];
        rewrite (bind_ok _ _ _ _ _ Hupd) in E; unfold ret in E;
        injection E as <- <-;
        exists added, (List.length its), db';
        split; [reflexivity|]; split; [reflexivity|];
        split; [exact Hmax|]; split; [lia|];
        split; [rewrite Hitems; lia|];
        intros l1 x l2 Hl Hx Hl1; rewrite <- Hb in Hl;
        rewrite (updateBlogStatus_at env i st db1 l1 x l2 Hok Hl Hl1 Hx)
          in Hupd;
        injection Hupd as <-;
        exists (applyFetchStatus env st x); repeat split ]
  end.
Qed.

Lemma syncBlogItems_reports_the_inserted_items_witness :
  exists added total db',
    syncBlogItems feedAEnv blogA 50 blogADb
    = (Ok (ItemsSynced added total), db')
    /\ total = List.length
                 (pf_items
                    (parsedFeed feedAEnv (XmlFeed noMeta [oldXmlItem])
                                (b_feedUrl blogA) 50))
    /\ total <= 50
    /\ added <= total
    /\ List.length (items db') = List.length (items blogADb) + added
    /\ (forall l1 x l2,
           blogs blogADb = l1 ++ x :: l2 ->
           b_id x = b_id blogA ->
           Forall (fun y => b_id y <> b_id blogA) l1 ->
           exists y,
             blogs db' = l1 ++ y :: l2
             /\ b_status y = Active
             /\ b_itemCount y = total
             /\ b_lastError y = None
             /\ b_lastFetchAt y = Some (now feedAEnv)
             /\ b_feedUrl y = b_feedUrl x
             /\ b_id y = b_id x).
Proof.
  apply (syncBlogItems_reports_the_inserted_items feedAEnv blogA 50
           (XmlFeed noMeta [oldXmlItem]) blogADb).
  - intros c m. reflexivity.
  - reflexivity.
Defined.

(** The sync of the witness: the one item of the feed is inserted and
    the stored blog is active with an item count of 1. *)
Example fetched_feed_is_recorded :
  fst (syncBlogItems feedAEnv blogA 50 blogADb) = Ok (ItemsSynced 1 1)
  /\ map (fun b => (b_id b, b_status b, b_itemCount b, b_lastError b))
         (blogs (snd (syncBlogItems feedAEnv blogA 50 blogADb)))
     = [(1, Active, 1, None)].
Proof. split; vm_compute; reflexivity. Qed.

(** *** The source syncs and the items *)

Lemma itemsKept_refl db : itemsKept db db.
Proof. reflexivity. Qed.

Lemma itemsKept_trans a b c : itemsKept a b -> itemsKept b c -> itemsKept a c.
Proof. unfold itemsKept. congruence. Qed.

Lemma upsertBlog_keeps_items env data : keeps itemsKept (upsertBlog env data).
Proof.
  intros db r db' H.
  destruct (upsertBlog_cases _ _ _ _ _ H)
    as [->|[_ [(old & bs & _ & ->)|[_ ->]]]]; reflexivity.
Qed.

Lemma upsertBlogs_keeps_items env cands :
  forall added updated, keeps itemsKept (upsertBlogs env cands added updated).
Proof.
  induction cands as [|data rest IH]; intros added updated; simpl.
  - apply keeps_ret, itemsKept_refl.
  - apply (keeps_bind _ itemsKept_trans).
    + apply upsertBlog_keeps_items.
    + intros r. destruct (upserted r); [|destruct (modified r)]; apply IH.
Qed.

Lemma updateSourceSyncStatus_keeps_items env id st :
  keeps itemsKept (updateSourceSyncStatus env id st).
Proof.
  apply keeps_call; [apply itemsKept_refl|].
  intros db. destruct (updateFirst _ _ (sources db)) as [[o ss]|];
    reflexivity.
Qed.

Lemma sweepOrphans_keeps_items env source current :
  keeps itemsKept (sweepOrphans env source current).
Proof.
  destruct current as [|id rest].
  - apply keeps_ret, itemsKept_refl.
  - apply keeps_call; [apply itemsKept_refl|]. intros db. reflexivity.
Qed.

Create HintDb itemsdb.

#[local] Hint Resolve upsertBlog_keeps_items upsertBlogs_keeps_items
  updateSourceSyncStatus_keeps_items sweepOrphans_keeps_items : itemsdb.

Ltac keeps_items :=
  repeat first
    [ solve [auto with itemsdb nocore]
    | simple apply (keeps_ret _ itemsKept_refl)
    | simple apply (keeps_throw _ itemsKept_refl)
    | simple apply (keeps_bind _ itemsKept_trans)
    | simple apply (keeps_tryCatch _ itemsKept_trans)
    | simple apply (keeps_pure _ itemsKept_refl); intro;
      first [ apply parseOpml_pure | apply fetchAndParseOpml_pure ]
    | simple apply (keeps_call _ itemsKept_refl); intro;
      apply itemsKept_refl
    | match goal with |- forall _, keeps _ _ => intro end ].

Lemma syncOpmlSource_keeps_items env source :
  keeps itemsKept (syncOpmlSource env source).
Proof.
  unfold syncOpmlSource. keeps_items.
  destruct (s_type source); keeps_items.
Qed.

Lemma syncFeedlandSource_keeps_items env source :
  keeps itemsKept (syncFeedlandSource env source).
Proof.
  unfold syncFeedlandSource. keeps_items.
  destruct (buildFeedlandOpmlUrl env source); keeps_items.
Qed.

Lemma syncMsFeeds_keeps_items env source channel feeds :
  forall acc, keeps itemsKept (syncMsFeeds env source channel feeds acc).
Proof.
  induction feeds as [|feed rest IH]; intros acc; simpl; keeps_items.
Qed.

Lemma syncMsChannels_keeps_items env source allFeeds channels :
  forall acc,
    keeps itemsKept (syncMsChannels env source allFeeds channels acc).
Proof.
  induction channels as [|channel rest IH]; intros acc; simpl;
    keeps_items.
  apply syncMsFeeds_keeps_items.
Qed.

Lemma syncMicrosubSource_keeps_items env source :
  keeps itemsKept (syncMicrosubSource env source).
Proof.
  unfold syncMicrosubSource. keeps_items.
  destruct (microsub env) as [[allChannels allFeeds]|]; keeps_items.
  destruct a; keeps_items.
  apply syncMsChannels_keeps_items.
Qed.

Lemma syncSource_keeps_items env source :
  keeps itemsKept (syncSource env source).
Proof.
  unfold syncSource.
  destruct (s_type source);
    auto using syncOpmlSource_keeps_items, syncFeedlandSource_keeps_items,
               syncMicrosubSource_keeps_items.
Qed.

Lemma syncSources_keeps_items env srcs :
  forall success failed,
    keeps itemsKept (syncSources env srcs success failed).
Proof.
  induction srcs as [|source rest IH]; intros success failed; simpl;
    keeps_items.
  - apply syncSource_keeps_items.
  - destruct a; apply IH.
Qed.

(** X27.  No source sync writes an item: after the loop of a run over
    any sources, of any type and with any outcome (failures and throws
    of the store or the network included), the item collection is what
    it was. *)
Theorem source_loop_writes_no_item env srcs success failed db r db' :
  syncSources env srcs success failed db = (r, db') ->
  items db' = items db.
Proof. intros H. exact (syncSources_keeps_items env srcs _ _ _ _ _ H). Qed.

Lemma source_loop_writes_no_item_witness :
  items (snd (syncSources feedlandEnv
                [feedlandUser; sampleSource 7 JsonFeedSource; mirrorSource]
                0 0 blogAWithItemDb))
  = items blogAWithItemDb.
Proof.
  apply (source_loop_writes_no_item feedlandEnv
           [feedlandUser; sampleSource 7 JsonFeedSource; mirrorSource]
           0 0 blogAWithItemDb
           (fst (syncSources feedlandEnv
                   [feedlandUser; sampleSource 7 JsonFeedSource;
                    mirrorSource] 0 0 blogAWithItemDb))).
  apply surjective_pairing.
Defined.

(** *** The identity of the items *)

Lemma keepsUnique_refl db : keepsUnique db db.
Proof. intros H. exact H. Qed.

Lemma keepsUnique_trans a b c :
  keepsUnique a b -> keepsUnique b c -> keepsUnique a c.
Proof. unfold keepsUnique. auto. Qed.

Lemma itemsKept_keepsUnique {A : Type} (m : M A) :
  keeps itemsKept m -> keeps keepsUnique m.
Proof.
  intros Hm db r db' H Hu. unfold identitiesUnique.
  now rewrite (Hm _ _ _ H).
Qed.

Lemma NoDup_map_filter {D K : Type} (f : D -> K) (p : D -> bool) l :
  NoDup (map f l) -> NoDup (map f (filter p l)).
Proof.
  induction l as [|x l IH]; simpl; auto.
  intros H. inversion H as [|? ? Hnot Hrest]; subst.
  destruct (p x); simpl; auto. constructor; auto.
  intros Hin. apply Hnot. apply in_map_iff in Hin.
  destruct Hin as (y & Hy & Hin). apply filter_In in Hin.
  apply in_map_iff. exists y. tauto.
Qed.

Lemma upsertItem_keepsUnique env blogId data :
  keeps keepsUnique (upsertItem env blogId data).
Proof.
  intros db r db' H.
  destruct (storeFault env ItemsColl UpdateOne) as [e|] eqn:F.
  - unfold upsertItem, call in H. rewrite F in H. injection H as _ <-.
    apply keepsUnique_refl.
  - destruct (upsertItem_identities env blogId data db F)
      as (r0 & db0 & Hrun & Hids & Hiff).
    rewrite Hrun in H. injection H as _ <-.
    intros Hu. unfold identitiesUnique. rewrite Hids.
    destruct (upserted r0) eqn:U.
    + apply (NoDup_Add (a := (blogId, fi_uid data))
                       (l := map itemIdentity (items db))).
      * rewrite <- (app_nil_r (map itemIdentity (items db))) at 1.
        apply Add_app.
      * split; [exact Hu|]. intros Hin. apply Hiff in Hin. congruence.
    + now rewrite app_nil_r.
Qed.

Lemma upsertItems_keepsUnique env blogId its :
  forall added, keeps keepsUnique (upsertItems env blogId its added).
Proof.
  induction its as [|it rest IH]; intros added; simpl.
  - apply keeps_ret, keepsUnique_refl.
  - apply (keeps_bind _ keepsUnique_trans).
    + apply upsertItem_keepsUnique.
    + intros r. apply IH.
Qed.

Lemma updateBlogStatus_keeps_items env id st :
  keeps itemsKept (updateBlogStatus env id st).
Proof.
  unfold updateBlogStatus, updateBlogById.
  apply (keeps_bind _ itemsKept_trans).
  - apply keeps_call; [apply itemsKept_refl|]. intros db.
    destruct (updateFirst _ _ (blogs db)) as [[o bs]|]; reflexivity.
  - intros _. apply keeps_ret, itemsKept_refl.
Qed.

Lemma syncBlogItems_keepsUnique env blog maxItems :
  keeps keepsUnique (syncBlogItems env blog maxItems).
Proof.
  unfold syncBlogItems.
  apply (keeps_tryCatch _ keepsUnique_trans).
  - apply (keeps_bind _ keepsUnique_trans).
    + apply (keeps_pure _ keepsUnique_refl).
      intros db. apply fetchAndParseFeed_pure.
    + intros feed. apply (keeps_bind _ keepsUnique_trans).
      * apply upsertItems_keepsUnique.
      * intros added. apply (keeps_bind _ keepsUnique_trans).
        -- apply itemsKept_keepsUnique, updateBlogStatus_keeps_items.
        -- intros _. apply keeps_ret, keepsUnique_refl.
  - intros error. apply (keeps_bind _ keepsUnique_trans).
    + apply itemsKept_keepsUnique, updateBlogStatus_keeps_items.
    + intros _. apply keeps_ret, keepsUnique_refl.
Qed.

Lemma syncBlogs_keepsUnique env opts bs :
  forall t, keeps keepsUnique (syncBlogs env opts bs t).
Proof.
  induction bs as [|blog rest IH]; intros t; simpl.
  - apply keeps_ret, keepsUnique_refl.
  - destruct (skipsItemFetch blog); [apply IH|].
    apply (keeps_bind _ keepsUnique_trans); [|intros t'; apply IH].
    apply (keeps_tryCatch _ keepsUnique_trans).
    + apply (keeps_bind _ keepsUnique_trans).
      * apply syncBlogItems_keepsUnique.
      * intros r. apply keeps_ret, keepsUnique_refl.
    + intros e. apply keeps_ret, keepsUnique_refl.
Qed.

Lemma runBody_keepsUnique env opts : keeps keepsUnique (runBody env opts).
Proof.
  unfold runBody.
  apply (keeps_bind _ keepsUnique_trans).
  { apply keeps_call; [apply keepsUnique_refl|]. intros db Hu.
    unfold identitiesUnique. simpl. unfold deleteMany.
    now apply NoDup_map_filter. }
  intros deleted. apply (keeps_bind _ keepsUnique_trans).
  { apply keeps_call; [apply keepsUnique_refl|]. intros db.
    apply keepsUnique_refl. }
  intros all. cbv zeta. apply (keeps_bind _ keepsUnique_trans).
  { apply itemsKept_keepsUnique, syncSources_keeps_items. }
  intros counts. apply (keeps_bind _ keepsUnique_trans).
  { apply (keeps_pure _ keepsUnique_refl). intros db.
    apply getBlogs_pure. }
  intros bs. apply (keeps_bind _ keepsUnique_trans).
  { apply syncBlogs_keepsUnique. }
  intros t. apply (keeps_bind _ keepsUnique_trans).
  { apply keeps_call; [apply keepsUnique_refl|]. intros db Hu. exact Hu. }
  intros _. apply keeps_ret, keepsUnique_refl.
Qed.

Lemma runFullSync_keepsUnique env opts st :
  identitiesUnique (store st) ->
  identitiesUnique (store (snd (runFullSync env opts st))).
Proof.
  intros Hu. unfold runFullSync. destruct (isRunning st); [exact Hu|].
  cbn [store].
  destruct (tryCatch (runBody env opts)
                     (fun error => ret (RunFailed error)) (store st))
    as [r db'] eqn:E.
  cbn [snd store]. revert Hu.
  refine (keeps_tryCatch _ keepsUnique_trans _ _ _ _ _ _ _ E).
  - apply runBody_keepsUnique.
  - intros e. apply keeps_ret, keepsUnique_refl.
Qed.

(** X28.  The pair (blogId, uid) stays a key of the items: if no two
    stored items share it, none do after a full run, and none do after
    [clearAndResync], whatever the feeds return and whichever calls of
    the store fail. *)
Theorem runs_keep_the_item_identities_unique env opts st :
  identitiesUnique (store st) ->
  identitiesUnique (store (snd (runFullSync env opts st)))
  /\ identitiesUnique (store (snd (clearAndResync env opts st))).
Proof.
  intros Hu. split; [now apply runFullSync_keepsUnique|].
  unfold clearAndResync.
  destruct (clearItemsAndCounters env (store st)) as [[[]|e] db'] eqn:E.
  - apply runFullSync_keepsUnique. cbn [store].
    revert Hu. change (keepsUnique (store st) db').
    revert E. generalize (store st) as db. intros db E.
    refine (keeps_bind _ keepsUnique_trans _ _ _ _ _ _ _ E).
    + apply keeps_call; [apply keepsUnique_refl|]. intros d _.
      unfold identitiesUnique. simpl. constructor.
    + intros _. apply keeps_call; [apply keepsUnique_refl|].
      intros d Hd. exact Hd.
  - cbn [snd store]. revert Hu. change (keepsUnique (store st) db').
    revert E. generalize (store st) as db. intros db E.
    refine (keeps_bind _ keepsUnique_trans _ _ _ _ _ _ _ E).
    + apply keeps_call; [apply keepsUnique_refl|]. intros d _.
      unfold identitiesUnique. simpl. constructor.
    + intros _. apply keeps_call; [apply keepsUnique_refl|].
      intros d Hd. exact Hd.
Qed.

Lemma runs_keep_the_item_identities_unique_witness :
  identitiesUnique
    (store (snd (runFullSync feedALaterEnv defaultOptions
                             (mkSched false blogAWithItemDb))))
  /\ identitiesUnique
       (store (snd (clearAndResync feedALaterEnv defaultOptions
                                   (mkSched false blogAWithItemDb)))).
Proof.
  apply (runs_keep_the_item_identities_unique feedALaterEnv defaultOptions
           (mkSched false blogAWithItemDb)).
  unfold identitiesUnique. simpl. constructor; [|constructor].
  intros [].
Defined.

(** ** The parsed items *)

(** X29.  Every item that [fetchAndParseFeed] hands on, from an XML or a
    JSON feed, has a title that is not empty ("Untitled" at least), a
    uid of at most 24 characters, a publication time written as an ISO
    string, and photos that are either absent or a list that is not
    empty. *)
Theorem parsed_items_are_well_formed env raw url maxItems :
  Forall (fun it =>
            fi_title it <> ""
            /\ String.length (fi_uid it) <= 24
            /\ (exists ms, fi_published it = IsoStr ms)
            /\ fi_photo it <> Some [])
         (pf_items (parsedFeed env raw url maxItems)).
Proof.
  assert (Htitle : forall t, titleOf env t <> "").
  { intros t. unfold titleOf. apply orStr_nonempty. right. discriminate. }
  assert (Huid : forall u i, String.length (generateUid env u i) <= 24).
  { intros u i. unfold generateUid. rewrite length_substring_0. lia. }
  assert (Hiso : forall d, exists ms, isoOrNow env d = IsoStr ms).
  { intros [ms|]; simpl; eauto. }
  apply Forall_forall. intros it Hin.
  destruct raw as [m its|m its]; simpl in Hin; apply in_map_iff in Hin;
    destruct Hin as (x & <- & _); cbn [normalizeItem normalizeJsonItem
      fi_title fi_uid fi_published fi_photo]; repeat split; auto.
  - unfold extractPhotos. cbv zeta.
    destruct (_ ++ _); discriminate.
  - destruct (truthy (j_image x)); discriminate.
Qed.

(** ** The status written by an item sync *)

(** X30.  [syncBlogItems] writes the status of the stored blog without
    looking at it: whether the fetch works or not, the first stored blog
    with the id has status "active" or "error" afterwards, in its place.
    A blog that was marked deleted (the refresh handler reads a blog by
    its id alone) is therefore not marked deleted afterwards, while its
    hidden flag, deletion time and feed URL are as before. *)
Theorem syncBlogItems_overwrites_the_status env blog maxItems db l1 x l2 :
  noFaults env ->
  blogs db = l1 ++ x :: l2 ->
  Forall (fun y => b_id y <> b_id blog) l1 ->
  b_id x = b_id blog ->
  exists r y db',
    syncBlogItems env blog maxItems db = (Ok r, db')
    /\ blogs db' = l1 ++ y :: l2
    /\ (b_status y = Active \/ b_status y = Error)
    /\ b_hidden y = b_hidden x
    /\ b_deletedAt y = b_deletedAt x
    /\ b_feedUrl y = b_feedUrl x.
Proof.
  intros Hok Hl Hl1 Hx. unfold syncBlogItems, tryCatch.
  destruct (fetchFeed env (b_feedUrl blog)) as [raw|e] eqn:Hfetch.
  - rewrite (bind_ok _ _ _ _ _
               (fetchAndParseFeed_ok env _ maxItems raw db Hfetch)).
    destruct (upsertItems_spec env (b_id blog)
                (pf_items (parsedFeed env raw (b_feedUrl blog) maxItems))
                (Hok _ _) 0 db)
      as (added & db1 & Hrun & Hb & _).
    rewrite (bind_ok _ _ _ _ _ Hrun).
    rewrite Hl in Hb.
    match goal with
    | |- context [updateBlogStatus env ?i ?st] =>
        rewrite (bind_ok _ _ _ _ _
                   (updateBlogStatus_at env i st db1 l1 x l2 Hok Hb Hl1 Hx));
        exists (ItemsSynced added
                  (List.length
                     (pf_items
                        (parsedFeed env raw (b_feedUrl blog) maxItems)))),
               (applyFetchStatus env st x)
    end.
    eexists. split; [reflexivity|]. simpl. repeat split. now left.
  - rewrite (bind_throw _ _ _ _ _
               (fetchAndParseFeed_throw env _ maxItems e db Hfetch)).
    rewrite (bind_ok _ _ _ _ _
               (updateBlogStatus_at env _ (FetchedErr e) db l1 x l2
                  Hok Hl Hl1 Hx)).
    exists (ItemsFailed e), (applyFetchStatus env (FetchedErr e) x).
    eexists. split; [reflexivity|]. simpl. repeat split. now right.
Qed.

Lemma syncBlogItems_overwrites_the_status_witness :
  exists r y db',
    syncBlogItems sampleEnv (sampleBlog 1 feedUrlA None Deleted) 50
      (mkDb [sampleBlog 1 feedUrlA None Deleted] [] [] None 2)
    = (Ok r, db')
    /\ blogs db' = [] ++ y :: []
    /\ (b_status y = Active \/ b_status y = Error)
    /\ b_hidden y = b_hidden (sampleBlog 1 feedUrlA None Deleted)
    /\ b_deletedAt y = b_deletedAt (sampleBlog 1 feedUrlA None Deleted)
    /\ b_feedUrl y = b_feedUrl (sampleBlog 1 feedUrlA None Deleted).
Proof.
  apply (syncBlogItems_overwrites_the_status sampleEnv
           (sampleBlog 1 feedUrlA None Deleted) 50
           (mkDb [sampleBlog 1 feedUrlA None Deleted] [] [] None 2)
           [] (sampleBlog 1 feedUrlA None Deleted) []).
  - intros c m. reflexivity.
  - reflexivity.
  - constructor.
  - reflexivity.
Defined.

(** ** One failing feed in the loop over the blogs *)

Lemma updateFirst_filter {D : Type} (p q : D -> bool) (f : D -> D) l :
  (forall x, p x = true -> q x = true) ->
  (forall x, q (f x) = q x) ->
  updateFirst p f (filter q l)
  = match updateFirst p f l with
    | Some (old, l') => Some (old, filter q l')
    | None => None
    end.
Proof.
  intros Hpq Hqf. induction l as [|x l IH]; simpl; [reflexivity|].
  destruct (q x) eqn:Hq; simpl.
  - destruct (p x) eqn:Hp.
    + simpl. now rewrite Hqf, Hq.
    + rewrite IH. destruct (updateFirst p f l) as [[o l']|]; simpl; auto.
      now rewrite Hq.
  - destruct (p x) eqn:Hp.
    + rewrite (Hpq x Hp) in Hq. discriminate.
    + rewrite IH. destruct (updateFirst p f l) as [[o l']|]; simpl; auto.
      now rewrite Hq.
Qed.

Lemma sameButBlog_refl k x : sameButBlog k x x.
Proof. split; auto. Qed.

Lemma agreeExcept_refl k db : agreeExcept k db db.
Proof.
  split; [|reflexivity]. apply Forall2_same. apply sameButBlog_refl.
Qed.

Lemma agreeExcept_sym k a b : agreeExcept k a b -> agreeExcept k b a.
Proof.
  intros [Hb Hi]. split; [|now symmetry].
  clear Hi. induction Hb as [|x y l l' [Hid Hxy] _ IH]; constructor; auto.
  split; [now symmetry|]. intros Hy. rewrite Hid in Hy.
  symmetry. now apply Hxy.
Qed.

Lemma agreeExcept_trans k a b c :
  agreeExcept k a b -> agreeExcept k b c -> agreeExcept k a c.
Proof.
  intros [Hb1 Hi1] [Hb2 Hi2]. split; [|congruence].
  eapply Forall2_compose; [| exact Hb1 | exact Hb2].
  intros x y z [Hid1 H1] [Hid2 H2]. split; [congruence|].
  intros Hx. rewrite H2, H1; auto. rewrite H1; auto.
Qed.

(** An upsert of an item of the blog [k] leaves the items of the other
    blogs, and all blogs, as they are. *)
Lemma upsertItem_own env k data :
  keeps (agreeExcept k) (upsertItem env k data).
Proof.
  apply keeps_call; [apply agreeExcept_refl|]. intros db.
  destruct (updateFirst _ _ (items db)) as [[old its]|] eqn:E; simpl.
  - split; [apply Forall2_same, sameButBlog_refl|]. simpl.
    destruct (updateFirst_some _ _ _ _ _ E)
      as (l1 & l2 & Hl & Hits & Hp & _).
    unfold itemKey in Hp. apply andb_prop in Hp. destruct Hp as [Hp _].
    assert (Hold : notOf k old = false).
    { unfold notOf. now rewrite Hp. }
    assert (Hnew : notOf k (applyItem env data old) = false) by exact Hold.
    rewrite Hits, Hl, !filter_app. simpl. now rewrite Hold, Hnew.
  - split; [apply Forall2_same, sameButBlog_refl|]. simpl.
    assert (Hnew : notOf k (itemDoc env k data) = false).
    { unfold notOf. simpl. now rewrite Nat.eqb_refl. }
    rewrite filter_app. simpl. rewrite Hnew. apply app_nil_r.
Qed.

Lemma upsertItems_own env k its :
  forall added, keeps (agreeExcept k) (upsertItems env k its added).
Proof.
  induction its as [|it rest IH]; intros added; simpl.
  - apply keeps_ret, agreeExcept_refl.
  - apply (keeps_bind _ (agreeExcept_trans k)).
    + apply upsertItem_own.
    + intros r. apply IH.
Qed.

Lemma updateBlogStatus_own env k st :
  keeps (agreeExcept k) (updateBlogStatus env k st).
Proof.
  unfold updateBlogStatus, updateBlogById.
  apply (keeps_bind _ (agreeExcept_trans k)).
  - apply keeps_call; [apply agreeExcept_refl|]. intros db.
    destruct (updateFirst _ _ (blogs db)) as [[o bs]|] eqn:E; simpl;
      [|apply agreeExcept_refl].
    split; [|reflexivity]. simpl.
    eapply updateFirst_Forall2; [| |exact E].
    + apply sameButBlog_refl.
    + intros x _ Hx. apply Nat.eqb_eq in Hx. split.
      * destruct st; reflexivity.
      * intros Hne. contradiction.
  - intros _. apply keeps_ret, agreeExcept_refl.
Qed.

(** The item sync of a blog writes the record and the items of this
    blog only, whatever the store and the network do. *)
Lemma syncBlogItems_own env blog maxItems :
  keeps (agreeExcept (b_id blog)) (syncBlogItems env blog maxItems).
Proof.
  unfold syncBlogItems.
  apply (keeps_tryCatch _ (agreeExcept_trans _)).
  - apply (keeps_bind _ (agreeExcept_trans _)).
    + apply (keeps_pure _ (agreeExcept_refl _)).
      intros db. apply fetchAndParseFeed_pure.
    + intros feed. apply (keeps_bind _ (agreeExcept_trans _)).
      * apply upsertItems_own.
      * intros added. apply (keeps_bind _ (agreeExcept_trans _)).
        -- apply updateBlogStatus_own.
        -- intros _. apply keeps_ret, agreeExcept_refl.
  - intros error. apply (keeps_bind _ (agreeExcept_trans _)).
    + apply updateBlogStatus_own.
    + intros _. apply keeps_ret, agreeExcept_refl.
Qed.

(** Two stores that agree but for the blog [k] stay so under the same
    upsert of an item of another blog, which has the same result in
    both. *)
Lemma upsertItem_agree env k blogId data a b :
  storeFault env ItemsColl UpdateOne = None ->
  blogId <> k ->
  agreeExcept k a b ->
  fst (upsertItem env blogId data b) = fst (upsertItem env blogId data a)
  /\ agreeExcept k (snd (upsertItem env blogId data a))
                   (snd (upsertItem env blogId data b)).
Proof.
  intros Hok Hne [Hblogs Hitems]. unfold upsertItem.
  rewrite !call_ok by assumption. cbn [fst snd].
  pose proof (updateFirst_filter (itemKey blogId (fi_uid data)) (notOf k)
                (applyItem env data)) as Hf.
  assert (Hpq : forall x, itemKey blogId (fi_uid data) x = true ->
                          notOf k x = true).
  { intros x Hx. unfold itemKey in Hx. apply andb_prop in Hx.
    destruct Hx as [Hx _]. apply Nat.eqb_eq in Hx. unfold notOf.
    apply negb_true_iff. apply Nat.eqb_neq. congruence. }
  assert (Hqf : forall x, notOf k (applyItem env data x) = notOf k x)
    by reflexivity.
  pose proof (Hf (items a) Hpq Hqf) as Ha.
  pose proof (Hf (items b) Hpq Hqf) as Hb.
  rewrite Hitems, Ha in Hb.
  destruct (updateFirst _ _ (items a)) as [[olda la]|];
    destruct (updateFirst _ _ (items b)) as [[oldb lb]|];
    try discriminate; cbn [fst snd].
  - injection Hb as <- Hl. split; [reflexivity|]. split; simpl; auto.
  - split; [reflexivity|]. split; simpl; auto.
    rewrite !filter_app. now rewrite Hitems.
Qed.

Lemma upsertItems_agree env k blogId its :
  storeFault env ItemsColl UpdateOne = None ->
  blogId <> k ->
  forall added a b,
    agreeExcept k a b ->
    fst (upsertItems env blogId its added b)
    = fst (upsertItems env blogId its added a)
    /\ agreeExcept k (snd (upsertItems env blogId its added a))
                     (snd (upsertItems env blogId its added b)).
Proof.
  intros Hok Hne. induction its as [|it rest IH]; intros added a b Hab.
  - simpl. auto.
  - cbn [upsertItems]. unfold bind.
    destruct (upsertItem_agree env k blogId it a b Hok Hne Hab)
      as [Hr Hdb].
    destruct (upsertItem env blogId it a) as [ra a1] eqn:Ea.
    destruct (upsertItem env blogId it b) as [rb b1] eqn:Eb.
    simpl in Hr, Hdb. subst rb.
    destruct ra as [r|e]; [|simpl; auto].
    apply IH. exact Hdb.
Qed.

Lemma updateFirst_lockstep {D : Type} (R : D -> D -> Prop) p f l l' :
  (forall x y, R x y -> p y = p x) ->
  (forall x y, R x y -> p x = true -> R (f x) (f y)) ->
  Forall2 R l l' ->
  match updateFirst p f l, updateFirst p f l' with
  | Some (_, m), Some (_, m') => Forall2 R m m'
  | None, None => True
  | _, _ => False
  end.
Proof.
  intros Hp Hf H. induction H as [|x y l l' Hxy Hl IH]; simpl; auto.
  rewrite (Hp x y Hxy). destruct (p x) eqn:E.
  - constructor; auto.
  - destruct (updateFirst p f l) as [[o m]|];
      destruct (updateFirst p f l') as [[o' m']|]; auto.
Qed.

Lemma updateBlogStatus_agree env k id st a b :
  storeFault env BlogsColl UpdateOne = None ->
  id <> k ->
  agreeExcept k a b ->
  fst (updateBlogStatus env id st b) = fst (updateBlogStatus env id st a)
  /\ agreeExcept k (snd (updateBlogStatus env id st a))
                   (snd (updateBlogStatus env id st b)).
Proof.
  intros Hok Hne [Hblogs Hitems].
  unfold updateBlogStatus, updateBlogById, bind.
  rewrite !call_ok by assumption. cbn [fst snd].
  pose proof (updateFirst_lockstep (sameButBlog k)
                (fun x => (b_id x =? id)%nat) (applyFetchStatus env st)
                (blogs a) (blogs b)) as H.
  assert (H1 : forall x y, sameButBlog k x y ->
                           (b_id y =? id)%nat = (b_id x =? id)%nat).
  { intros x y [Hid _]. now rewrite Hid. }
  assert (H2 : forall x y, sameButBlog k x y -> (b_id x =? id)%nat = true ->
                 sameButBlog k (applyFetchStatus env st x)
                               (applyFetchStatus env st y)).
  { intros x y [Hid Hxy] Hx. apply Nat.eqb_eq in Hx.
    rewrite Hxy by congruence. apply sameButBlog_refl. }
  specialize (H H1 H2 Hblogs).
  destruct (updateFirst _ _ (blogs a)) as [[oa ma]|];
    destruct (updateFirst _ _ (blogs b)) as [[ob mb]|];
    try contradiction; cbn [fst snd]; unfold ret; cbn [fst snd];
    (split; [reflexivity|]); split; simpl; auto.
Qed.

Lemma syncBlogItems_setFetch env u o blog maxItems db :
  fetchFeed (setFetch env u o) (b_feedUrl blog)
  = fetchFeed env (b_feedUrl blog) ->
  syncBlogItems (setFetch env u o) blog maxItems db
  = syncBlogItems env blog maxItems db.
Proof.
  intros H. unfold syncBlogItems, tryCatch, bind, fetchAndParseFeed.
  rewrite H. reflexivity.
Qed.

(** The item sync of another blog than [k] has the same result in two
    stores that agree but for the blog [k], and leaves them so. *)
Lemma syncBlogItems_agree env k blog maxItems a b :
  noFaults env ->
  b_id blog <> k ->
  agreeExcept k a b ->
  fst (syncBlogItems env blog maxItems b)
  = fst (syncBlogItems env blog maxItems a)
  /\ agreeExcept k (snd (syncBlogItems env blog maxItems a))
                   (snd (syncBlogItems env blog maxItems b)).
Proof.
  intros Hok Hne Hab. unfold syncBlogItems, tryCatch.
  destruct (fetchFeed env (b_feedUrl blog)) as [raw|e] eqn:Hfetch.
  - rewrite (bind_ok _ _ _ _ _
               (fetchAndParseFeed_ok env _ maxItems raw a Hfetch)).
    rewrite (bind_ok _ _ _ _ _
               (fetchAndParseFeed_ok env _ maxItems raw b Hfetch)).
    set (its := pf_items (parsedFeed env raw (b_feedUrl blog) maxItems)).
    destruct (upsertItems_agree env k (b_id blog) its (Hok _ _) Hne 0 a b Hab)
      as [Hr Hdb].
    destruct (upsertItems_spec env (b_id blog) its (Hok _ _) 0 a)
      as (added & a1 & Ha & _).
    destruct (upsertItems_spec env (b_id blog) its (Hok _ _) 0 b)
      as (added' & b1 & Hb & _).
    rewrite Ha, Hb in Hr, Hdb. simpl in Hr, Hdb. injection Hr as ->.
    rewrite (bind_ok _ _ _ _ _ Ha), (bind_ok _ _ _ _ _ Hb).
    match goal with
    | |- context [updateBlogStatus env ?i ?st] =>
        destruct (updateBlogStatus_agree env k i st a1 b1 (Hok _ _) Hne Hdb)
          as [Hr2 Hdb2];
        destruct (updateBlogStatus_ok env i st a1 Hok) as (a2 & Ha2 & _);
        destruct (updateBlogStatus_ok env i st b1 Hok) as (b2 & Hb2 & _);
        rewrite Ha2, Hb2 in Hdb2;
        rewrite (bind_ok _ _ _ _ _ Ha2), (bind_ok _ _ _ _ _ Hb2)
    end.
    simpl in Hdb2. unfold ret. simpl. split; [reflexivity|exact Hdb2].
  - rewrite (bind_throw _ _ _ _ _
               (fetchAndParseFeed_throw env _ maxItems e a Hfetch)).
    rewrite (bind_throw _ _ _ _ _
               (fetchAndParseFeed_throw env _ maxItems e b Hfetch)).
    destruct (updateBlogStatus_agree env k (b_id blog) (FetchedErr e) a b
                (Hok _ _) Hne Hab) as [_ Hdb].
    destruct (updateBlogStatus_ok env (b_id blog) (FetchedErr e) a Hok)
      as (a2 & Ha2 & _).
    destruct (updateBlogStatus_ok env (b_id blog) (FetchedErr e) b Hok)
      as (b2 & Hb2 & _).
    rewrite Ha2, Hb2 in Hdb.
    rewrite (bind_ok _ _ _ _ _ Ha2), (bind_ok _ _ _ _ _ Hb2).
    unfold ret. simpl. split; [reflexivity|exact Hdb].
Qed.

(** One turn of the loop: the blog is synced, its result is tallied, and
    the loop goes on from the store the sync left. *)
Lemma syncBlogs_cons env opts blog rest t db :
  skipsItemFetch blog = false ->
  syncBlogs env opts (blog :: rest) t db
  = syncBlogs env opts rest
      (match fst (syncBlogItems env blog (maxItemsPerBlog opts) db) with
       | Ok r => tallyResult t r
       | Throw _ => tallyFailed t
       end)
      (snd (syncBlogItems env blog (maxItemsPerBlog opts) db)).
Proof.
  intros Hskip. cbn [syncBlogs]. rewrite Hskip.
  unfold bind at 1. unfold tryCatch, bind at 1.
  destruct (syncBlogItems env blog (maxItemsPerBlog opts) db) as [[r|e] db1];
    reflexivity.
Qed.

Lemma syncBlogs_skip env opts blog rest t db :
  skipsItemFetch blog = true ->
  syncBlogs env opts (blog :: rest) t db
  = syncBlogs env opts rest (tallySkipped t) db.
Proof. intros Hskip. cbn [syncBlogs]. now rewrite Hskip. Qed.

(** The loop with and without the failure of the feed of the blog [k]:
    the two stores agree but for the blog [k], all along. *)
Lemma syncBlogs_agree env u o k opts bs :
  noFaults env ->
  (forall b, In b bs -> skipsItemFetch b = false -> b_id b <> k ->
             fetchFeed (setFetch env u o) (b_feedUrl b)
             = fetchFeed env (b_feedUrl b)) ->
  forall tA tB a b,
    agreeExcept k a b ->
    agreeExcept k (snd (syncBlogs env opts bs tA a))
                  (snd (syncBlogs (setFetch env u o) opts bs tB b)).
Proof.
  intros Hok. induction bs as [|blog rest IH]; intros Hfetch tA tB a b Hab.
  - exact Hab.
  - assert (Hrest : forall b0, In b0 rest -> skipsItemFetch b0 = false ->
                               b_id b0 <> k ->
                               fetchFeed (setFetch env u o) (b_feedUrl b0)
                               = fetchFeed env (b_feedUrl b0)).
    { intros b0 Hin. apply Hfetch. now right. }
    destruct (skipsItemFetch blog) eqn:Hskip.
    + rewrite !syncBlogs_skip by assumption. now apply IH.
    + rewrite !syncBlogs_cons by assumption. apply IH; [exact Hrest|].
      destruct (Nat.eq_dec (b_id blog) k) as [Hk|Hk].
      * subst k.
        apply agreeExcept_trans
          with (b := a);
          [apply agreeExcept_sym;
           eapply syncBlogItems_own; apply surjective_pairing|].
        apply agreeExcept_trans with (b := b); [exact Hab|].
        eapply syncBlogItems_own; apply surjective_pairing.
      * rewrite (syncBlogItems_setFetch env u o blog _ b)
          by (apply Hfetch; [now left|assumption|assumption]).
        now apply syncBlogItems_agree.
Qed.

Lemma syncBlogItems_failed env blog maxItems e db :
  noFaults env ->
  fetchFeed env (b_feedUrl blog) = Throw e ->
  fst (syncBlogItems env blog maxItems db) = Ok (ItemsFailed e).
Proof.
  intros Hok Hfetch. unfold syncBlogItems, tryCatch.
  rewrite (bind_throw _ _ _ _ _
             (fetchAndParseFeed_throw env _ maxItems e db Hfetch)).
  destruct (updateBlogStatus_ok env (b_id blog) (FetchedErr e) db Hok)
    as (db' & Hupd & _).
  now rewrite (bind_ok _ _ _ _ _ Hupd).
Qed.

(** When the store answers, the loop counts as failed exactly the blogs
    it does not skip whose feed cannot be fetched. *)
Lemma syncBlogs_tally env opts bs :
  noFaults env ->
  forall t db,
  exists t' db',
    syncBlogs env opts bs t db = (Ok t', db')
    /\ blogsFailed t'
       = blogsFailed t
         + List.length (filter (fun b => negb (skipsItemFetch b)
                                         && fetchFails env b) bs)
    /\ blogsSuccess t'
       = blogsSuccess t
         + List.length (filter (fun b => negb (skipsItemFetch b)
                                         && negb (fetchFails env b)) bs)
    /\ blogsSkipped t'
       = blogsSkipped t + List.length (filter skipsItemFetch bs).
Proof.
  intros Hok. induction bs as [|blog rest IH]; intros t db.
  - exists t, db. simpl. unfold ret. repeat split; lia.
  - destruct (skipsItemFetch blog) eqn:Hskip.
    + rewrite syncBlogs_skip by assumption.
      destruct (IH (tallySkipped t) db) as (t' & db' & H & Hf & Hs & Hk).
      exists t', db'. split; [exact H|]. simpl. rewrite Hskip. simpl.
      simpl in Hf, Hs, Hk. repeat split; lia.
    + rewrite syncBlogs_cons by assumption.
      destruct (fetchFeed env (b_feedUrl blog)) as [raw|e] eqn:Hfetch.
      * assert (Hff : fetchFails env blog = false)
          by (unfold fetchFails; now rewrite Hfetch).
        cbn [filter]. rewrite Hskip, Hff. cbn [negb andb].
        destruct (syncBlogItems_fetched env blog (maxItemsPerBlog opts) raw db
                    Hok Hfetch) as (added & db1 & Hrun & _).
        rewrite Hrun. cbn [fst snd].
        destruct (IH (tallyResult t (ItemsSynced added
                        (List.length
                           (pf_items (parsedFeed env raw (b_feedUrl blog)
                                        (maxItemsPerBlog opts)))))) db1)
          as (t' & db' & H & Hf & Hs & Hk).
        exists t', db'. split; [exact H|]. simpl in *. repeat split; lia.
      * assert (Hff : fetchFails env blog = true)
          by (unfold fetchFails; now rewrite Hfetch).
        cbn [filter]. rewrite Hskip, Hff. cbn [negb andb].
        rewrite (syncBlogItems_failed env blog _ e db Hok Hfetch).
        destruct (IH (tallyFailed t)
                     (snd (syncBlogItems env blog (maxItemsPerBlog opts) db)))
          as (t' & db' & H & Hf & Hs & Hk).
        exists t', db'. split; [exact H|]. simpl in *. repeat split; lia.
Qed.

Lemma filter_none {D : Type} (p : D -> bool) l :
  (forall b, In b l -> p b = false) -> filter p l = [].
Proof.
  induction l as [|x l IH]; intros H; simpl; [reflexivity|].
  rewrite (H x (or_introl eq_refl)). apply IH. intros b Hb. apply H.
  now right.
Qed.

(** In a list without two elements of the same id, a test that only
    elements with the id of [k] pass, and that [k] passes, selects [k]
    alone. *)
Lemma filter_one {D : Type} (f : D -> nat) (p : D -> bool) l k :
  NoDup (map f l) -> In k l -> p k = true ->
  (forall b, In b l -> p b = true -> f b = f k) ->
  filter p l = [k].
Proof.
  induction l as [|x l IH]; intros Hnd Hin Hk Hone; [contradiction|].
  simpl in Hnd. inversion Hnd as [|? ? Hnot Hrest]; subst.
  assert (Hin_f : forall b, In b l -> f b <> f x).
  { intros b Hb Heq. apply Hnot. rewrite <- Heq. now apply in_map. }
  simpl. destruct Hin as [->|Hin].
  - rewrite Hk. f_equal. apply filter_none. intros b Hb.
    destruct (p b) eqn:E; [|reflexivity].
    exfalso. apply (Hin_f b Hb). apply Hone; [now right|exact E].
  - destruct (p x) eqn:E.
    + exfalso. apply (Hin_f k Hin). symmetry.
      apply Hone; [now left|exact E].
    + apply IH; auto. intros b Hb. apply Hone. now right.
Qed.

Lemma agreeExcept_ids j a a' :
  agreeExcept j a a' -> map b_id (blogs a') = map b_id (blogs a).
Proof.
  intros [H _]. induction H as [|x y l l' [Hid _] _ IH]; simpl; congruence.
Qed.

Lemma syncBlogs_ids env opts bs :
  forall t a,
    map b_id (blogs (snd (syncBlogs env opts bs t a))) = map b_id (blogs a).
Proof.
  induction bs as [|blog rest IH]; intros t a; [reflexivity|].
  destruct (skipsItemFetch blog) eqn:Hskip.
  - rewrite syncBlogs_skip by assumption. apply IH.
  - rewrite syncBlogs_cons by assumption. rewrite IH.
    eapply agreeExcept_ids, syncBlogItems_own, surjective_pairing.
Qed.

Lemma failureRecorded_kept k e j a a' :
  j <> k ->
  agreeExcept j a a' ->
  Forall (failureRecorded k e) (blogs a) ->
  Forall (failureRecorded k e) (blogs a').
Proof.
  intros Hne [H _] Hall.
  induction H as [|x y l l' [Hid Hxy] _ IH]; [constructor|].
  inversion Hall as [|? ? Hx Hl]; subst. constructor; [|now apply IH].
  intros Hy. assert (Hxj : b_id x <> j) by congruence.
  rewrite (Hxy Hxj). apply Hx. congruence.
Qed.

Lemma syncBlogs_keeps_failure env opts k e post :
  (forall b, In b post -> b_id b <> k) ->
  forall t a,
    Forall (failureRecorded k e) (blogs a) ->
    Forall (failureRecorded k e) (blogs (snd (syncBlogs env opts post t a))).
Proof.
  induction post as [|blog rest IH]; intros Hpost t a Ha; [exact Ha|].
  assert (Hrest : forall b, In b rest -> b_id b <> k).
  { intros b Hb. apply Hpost. now right. }
  destruct (skipsItemFetch blog) eqn:Hskip.
  - rewrite syncBlogs_skip by assumption. now apply IH.
  - rewrite syncBlogs_cons by assumption. apply IH; [exact Hrest|].
    eapply (failureRecorded_kept k e (b_id blog)); [| |exact Ha].
    + apply Hpost. now left.
    + eapply syncBlogItems_own, surjective_pairing.
Qed.

(** After the sync of a blog whose feed cannot be fetched, in a store
    whose blogs have distinct ids, the record with its id says so. *)
Lemma syncBlogItems_records_failure env blog maxItems e a :
  noFaults env ->
  fetchFeed env (b_feedUrl blog) = Throw e ->
  NoDup (map b_id (blogs a)) ->
  Forall (failureRecorded (b_id blog) e)
         (blogs (snd (syncBlogItems env blog maxItems a))).
Proof.
  intros Hok Hfetch Hnd. unfold syncBlogItems, tryCatch.
  rewrite (bind_throw _ _ _ _ _
             (fetchAndParseFeed_throw env _ maxItems e a Hfetch)).
  unfold updateBlogStatus, updateBlogById, bind.
  rewrite call_ok by apply Hok.
  destruct (updateFirst _ _ (blogs a)) as [[o bs]|] eqn:E;
    cbn [fst snd]; unfold ret; cbn [fst snd blogs withBlogs].
  - destruct (updateFirst_some _ _ _ _ _ E)
      as (l1 & l2 & Hl & -> & Hp & Hl1).
    apply Nat.eqb_eq in Hp. rewrite Hl, map_app in Hnd. simpl in Hnd.
    apply NoDup_remove_2 in Hnd.
    apply Forall_app. split; [|constructor].
    + apply Forall_forall. intros y Hy Hid. exfalso. apply Hnd.
      apply in_or_app. left. rewrite Hp, <- Hid. now apply in_map.
    + intros _. split; reflexivity.
    + apply Forall_forall. intros y Hy Hid. exfalso. apply Hnd.
      apply in_or_app. right. rewrite Hp, <- Hid. now apply in_map.
  - apply updateFirst_none in E. eapply Forall_impl; [|exact E].
    intros y Hy Hid. simpl in Hy. apply Nat.eqb_neq in Hy. contradiction.
Qed.

Lemma syncBlogs_app env opts pre post :
  forall t db,
    syncBlogs env opts (pre ++ post) t db
    = match syncBlogs env opts pre t db with
      | (Ok t1, db1) => syncBlogs env opts post t1 db1
      | (Throw e, db1) => (Throw e, db1)
      end.
Proof.
  induction pre as [|blog rest IH]; intros t db; [reflexivity|].
  rewrite <- app_comm_cons.
  destruct (skipsItemFetch blog) eqn:Hskip.
  - rewrite !syncBlogs_skip by assumption. apply IH.
  - rewrite !syncBlogs_cons by assumption. apply IH.
Qed.

(** The body of a run is its first steps followed by the loop over the
    blogs they list and the write of the counts. *)
Lemma runBody_after_prefix env opts db deleted srcs counts bs db3 :
  runPrefix env opts db = (Ok (deleted, srcs, counts, bs), db3) ->
  runBody env opts db
  = (t <- syncBlogs env opts bs (mkBlogTally 0 0 0 0) ;;
     call env MetaColl UpdateOne (fun db =>
       (tt, withMeta db
              (Some (mkSyncStats (now env) (elapsed env)
                       (mkTally (List.length srcs) (fst counts) (snd counts))
                       (mkTally (List.length bs) (blogsSuccess t)
                                (blogsFailed t))
                       (newItems t) deleted)))) ;;;
     ret (RunDone (elapsed env)
            (mkTally (List.length srcs) (fst counts) (snd counts))
            (mkTally (List.length bs) (blogsSuccess t) (blogsFailed t))
            (newItems t) deleted)) db3.
Proof.
  unfold runPrefix, runBody. intros H.
  apply bind_Ok_inv in H. destruct H as (d & db1 & E1 & H).
  apply bind_Ok_inv in H. destruct H as (all & db2 & E2 & H).
  apply bind_Ok_inv in H. destruct H as (c & db2' & E3 & H).
  apply bind_Ok_inv in H. destruct H as (l & db3' & E4 & H).
  unfold ret in H. injection H as <- <- <- <- <-.
  rewrite (bind_ok _ _ _ _ _ E1), (bind_ok _ _ _ _ _ E2).
  cbv zeta. rewrite (bind_ok _ _ _ _ _ E3), (bind_ok _ _ _ _ _ E4).
  reflexivity.
Qed.

(** The first steps of a run do not fetch a feed. *)
Lemma runPrefix_setFetch env u o opts :
  runPrefix (setFetch env u o) opts = runPrefix env opts.
Proof. reflexivity. Qed.

Lemma runFullSync_after_loop env opts st deleted srcs counts bs db3 t dbA :
  isRunning st = false ->
  storeFault env MetaColl UpdateOne = None ->
  runPrefix env opts (store st) = (Ok (deleted, srcs, counts, bs), db3) ->
  syncBlogs env opts bs (mkBlogTally 0 0 0 0) db3 = (Ok t, dbA) ->
  runFullSync env opts st
  = (Ok (RunDone (elapsed env)
           (mkTally (List.length srcs) (fst counts) (snd counts))
           (mkTally (List.length bs) (blogsSuccess t) (blogsFailed t))
           (newItems t) deleted),
     mkSched false
       (withMeta dbA
          (Some (mkSyncStats (now env) (elapsed env)
                   (mkTally (List.length srcs) (fst counts) (snd counts))
                   (mkTally (List.length bs) (blogsSuccess t)
                            (blogsFailed t))
                   (newItems t) deleted)))).
Proof.
  intros Hrun Hok Hpre Hloop. unfold runFullSync. rewrite Hrun.
  cbn [store]. unfold tryCatch.
  rewrite (runBody_after_prefix _ _ _ _ _ _ _ _ Hpre).
  rewrite (bind_ok _ _ _ _ _ Hloop).
  unfold bind. rewrite call_ok by assumption. reflexivity.
Qed.

Lemma In_skipped {D : Type} n (l : list D) x : In x (skipn n l) -> In x l.
Proof.
  revert l. induction n as [|n IH]; intros [|y l]; simpl; auto.
Qed.

Lemma runPrefix_lists env opts db deleted srcs counts bs db3 :
  runPrefix env opts db = (Ok (deleted, srcs, counts, bs), db3) ->
  forall b, In b bs -> In b (blogs db3).
Proof.
  unfold runPrefix. intros H.
  apply bind_Ok_inv in H. destruct H as (d & db1 & _ & H).
  apply bind_Ok_inv in H. destruct H as (every & db2 & _ & H).
  apply bind_Ok_inv in H. destruct H as (c & db3' & _ & H).
  apply bind_Ok_inv in H. destruct H as (bs' & db4 & Hg & H).
  unfold ret in H. injection H as _ _ <- <-.
  apply getBlogs_cases in Hg.
  destruct Hg as [-> [[e He]|(sk & bd & _ & Hr)]]; [discriminate|].
  injection Hr as ->. intros b Hb.
  apply In_takeUpTo, In_skipped in Hb.
  apply (Permutation_in _ (sortBy_perm _ _)) in Hb.
  apply filter_In in Hb. subst db3'. apply Hb.
Qed.

(** C3.  A run whose first steps list the blogs [bs], of which the loop
    does not skip [k], whose feed cannot be fetched, while the feed of
    every other blog it does not skip can, and the store answers.  The
    run returns its counts ([success: true]) with [blogs.failed = 1].
    The sync of [k] answers with the failure and its message, and
    afterwards the record of [k] has the status error and that message.  Compared with the same run in
    which the feed of [k] answers: the first steps are the same, every
    other blog has the same individual result, one blog more succeeds,
    none fails, and the two final stores have the same blogs and items
    but for the record and the items of [k]. *)
Theorem one_failing_feed_is_isolated
  env opts st deleted srcs counts bs db3 k e raw :
  isRunning st = false ->
  noFaults env ->
  runPrefix env opts (store st) = (Ok (deleted, srcs, counts, bs), db3) ->
  NoDup (map b_id bs) ->
  NoDup (map b_id (blogs db3)) ->
  In k bs ->
  skipsItemFetch k = false ->
  fetchFeed env (b_feedUrl k) = Throw e ->
  (forall b, In b bs -> skipsItemFetch b = false -> b_id b <> b_id k ->
             fetchFails env b = false) ->
  exists t dbA t' dbB,
    runPrefix (setFetch env (b_feedUrl k) (Ok raw)) opts (store st)
    = (Ok (deleted, srcs, counts, bs), db3)
    /\ fst (runFullSync env opts st)
       = Ok (RunDone (elapsed env)
               (mkTally (List.length srcs) (fst counts) (snd counts))
               (mkTally (List.length bs) (blogsSuccess t) 1)
               (newItems t) deleted)
    /\ fst (runFullSync (setFetch env (b_feedUrl k) (Ok raw)) opts st)
       = Ok (RunDone (elapsed env)
               (mkTally (List.length srcs) (fst counts) (snd counts))
               (mkTally (List.length bs) (blogsSuccess t') 0)
               (newItems t') deleted)
    /\ blogsSuccess t' = blogsSuccess t + 1
    /\ blogsSuccess t'
       = List.length (filter (fun b => negb (skipsItemFetch b)) bs)
    /\ blogs (store (snd (runFullSync env opts st))) = blogs dbA
    /\ items (store (snd (runFullSync env opts st))) = items dbA
    /\ blogs (store (snd (runFullSync (setFetch env (b_feedUrl k) (Ok raw))
                                      opts st))) = blogs dbB
    /\ items (store (snd (runFullSync (setFetch env (b_feedUrl k) (Ok raw))
                                      opts st))) = items dbB
    /\ (forall pre post,
           bs = pre ++ k :: post ->
           fst (syncBlogItems env k (maxItemsPerBlog opts)
                  (snd (syncBlogs env opts pre (mkBlogTally 0 0 0 0) db3)))
           = Ok (ItemsFailed e))
    /\ (forall pre b post,
           bs = pre ++ b :: post ->
           skipsItemFetch b = false ->
           b_id b <> b_id k ->
           fst (syncBlogItems env b (maxItemsPerBlog opts)
                  (snd (syncBlogs env opts pre (mkBlogTally 0 0 0 0) db3)))
           = fst (syncBlogItems (setFetch env (b_feedUrl k) (Ok raw)) b
                    (maxItemsPerBlog opts)
                    (snd (syncBlogs (setFetch env (b_feedUrl k) (Ok raw))
                            opts pre (mkBlogTally 0 0 0 0) db3))))
    /\ ((exists y, In y (blogs dbA) /\ b_id y = b_id k
                    /\ b_status y = Error /\ b_lastError y = Some e)
        /\ Forall (failureRecorded (b_id k) e) (blogs dbA))
    /\ Forall2 (fun x y => b_id y = b_id x /\ (b_id x <> b_id k -> y = x))
               (blogs dbB) (blogs dbA)
    /\ filter (fun i => negb (i_blogId i =? b_id k)%nat) (items dbA)
       = filter (fun i => negb (i_blogId i =? b_id k)%nat) (items dbB).
Proof.
  intros Hrun Hok Hpre Hnd Hnd3 Hin Hskip Hfetch Hothers.
  set (env' := setFetch env (b_feedUrl k) (Ok raw)).
  set (t0 := mkBlogTally 0 0 0 0).
  assert (Hok' : noFaults env') by exact Hok.
  (* the feeds of the other blogs are the same in both runs *)
  assert (Hsame : forall b, In b bs -> skipsItemFetch b = false ->
                            b_id b <> b_id k ->
                            fetchFeed env' (b_feedUrl b)
                            = fetchFeed env (b_feedUrl b)).
  { intros b Hb Hs Hne. unfold env'. simpl.
    destruct (b_feedUrl b =? b_feedUrl k) eqn:E; [|reflexivity].
    apply String.eqb_eq in E. specialize (Hothers b Hb Hs Hne).
    unfold fetchFails in Hothers. rewrite E, Hfetch in Hothers.
    discriminate. }
  assert (Hk' : fetchFeed env' (b_feedUrl k) = Ok raw).
  { unfold env'. simpl. now rewrite String.eqb_refl. }
  (* the counts *)
  destruct (syncBlogs_tally env opts bs Hok t0 db3)
    as (t & dbA & HA & HfA & HsA & _).
  destruct (syncBlogs_tally env' opts bs Hok' t0 db3)
    as (t' & dbB & HB & HfB & HsB & _).
  simpl in HfA, HsA, HfB, HsB.
  assert (Hfail : filter (fun b => negb (skipsItemFetch b)
                                   && fetchFails env b) bs = [k]).
  { apply (filter_one b_id); auto.
    - rewrite Hskip. unfold fetchFails. now rewrite Hfetch.
    - intros b Hb Hp. apply andb_prop in Hp. destruct Hp as [Hs Hf].
      apply negb_true_iff in Hs.
      destruct (Nat.eq_dec (b_id b) (b_id k)) as [Heq|Hne]; [exact Heq|].
      rewrite (Hothers b Hb Hs Hne) in Hf. discriminate. }
  assert (Hfail' : filter (fun b => negb (skipsItemFetch b)
                                    && fetchFails env' b) bs = []).
  { apply filter_none. intros b Hb.
    destruct (skipsItemFetch b) eqn:Hs; [reflexivity|]. simpl.
    unfold fetchFails.
    destruct (Nat.eq_dec (b_id b) (b_id k)) as [Heq|Hne].
    - assert (Hbk : b = k).
      { clear - Hnd Hb Hin Heq. induction bs as [|x l IH]; [contradiction|].
        simpl in Hnd. inversion Hnd as [|? ? Hnot Hrest]; subst.
        destruct Hb as [->|Hb]; destruct Hin as [->|Hin]; auto.
        - exfalso. apply Hnot. rewrite Heq. now apply in_map.
        - exfalso. apply Hnot. rewrite <- Heq. now apply in_map. }
      subst b. now rewrite Hk'.
    - rewrite (Hsame b Hb Hs Hne).
      specialize (Hothers b Hb Hs Hne). unfold fetchFails in Hothers.
      destruct (fetchFeed env (b_feedUrl b)); [reflexivity|discriminate]. }
  rewrite Hfail in HfA. rewrite Hfail' in HfB. simpl in HfA, HfB.
  assert (Hsucc : List.length (filter (fun b => negb (skipsItemFetch b)
                                                && negb (fetchFails env' b))
                                      bs)
                  = List.length (filter (fun b => negb (skipsItemFetch b)) bs)).
  { pose proof (length_filter_split
                  (fun b => negb (skipsItemFetch b) && fetchFails env' b) bs)
      as H1.
    rewrite Hfail' in H1. simpl in H1.
    clear - Hfail'. induction bs as [|x l IH]; [reflexivity|].
    simpl in Hfail'. simpl.
    destruct (skipsItemFetch x); simpl in *.
    - apply IH. exact Hfail'.
    - destruct (fetchFails env' x); simpl in *; [discriminate|].
      f_equal. apply IH. exact Hfail'. }
  assert (HsuccA : List.length (filter (fun b => negb (skipsItemFetch b)
                                                 && negb (fetchFails env b))
                                       bs) + 1
                   = List.length (filter (fun b => negb (skipsItemFetch b))
                                         bs)).
  { pose proof (length_filter_split
                  (fun b => negb (skipsItemFetch b) && fetchFails env b) bs)
      as H1.
    assert (H2 : forall l,
               List.length (filter (fun b => negb (skipsItemFetch b)
                                             && fetchFails env b) l)
               + List.length (filter (fun b => negb (skipsItemFetch b)
                                               && negb (fetchFails env b)) l)
               = List.length (filter (fun b => negb (skipsItemFetch b)) l)).
    { induction l as [|x l IH]; [reflexivity|]. simpl.
      destruct (skipsItemFetch x); simpl; [exact IH|].
      destruct (fetchFails env x); simpl; lia. }
    specialize (H2 bs). rewrite Hfail in H2. simpl in H2. lia. }
  (* the runs *)
  pose proof (runFullSync_after_loop env opts st deleted srcs counts bs db3
                t dbA Hrun (Hok _ _) Hpre HA) as HrunA.
  assert (Hpre' : runPrefix env' opts (store st)
                  = (Ok (deleted, srcs, counts, bs), db3)).
  { unfold env'. rewrite runPrefix_setFetch. exact Hpre. }
  pose proof (runFullSync_after_loop env' opts st deleted srcs counts bs db3
                t' dbB Hrun (Hok' _ _) Hpre' HB) as HrunB.
  (* the stores *)
  pose proof (syncBlogs_agree env (b_feedUrl k) (Ok raw) (b_id k) opts bs Hok
                Hsame t0 t0 db3 db3 (agreeExcept_refl _ _)) as Hagree.
  fold env' in Hagree. rewrite HA, HB in Hagree. simpl in Hagree.
  exists t, dbA, t', dbB.
  split; [exact Hpre'|].
  split; [rewrite HrunA, HfA; reflexivity|].
  split; [rewrite HrunB, HfB; reflexivity|].
  split; [lia|]. split; [lia|].
  split; [rewrite HrunA; reflexivity|].
  split; [rewrite HrunA; reflexivity|].
  split; [rewrite HrunB; reflexivity|].
  split; [rewrite HrunB; reflexivity|].
  split.
  { intros pre post _. now apply syncBlogItems_failed. }
  split.
  { intros pre b post Hbs Hs Hne.
    assert (Hb : In b bs).
    { rewrite Hbs. apply in_or_app. right. now left. }
    rewrite (syncBlogItems_setFetch env (b_feedUrl k) (Ok raw) b)
      by (apply Hsame; assumption).
    symmetry. apply (syncBlogItems_agree env (b_id k)); auto.
    apply syncBlogs_agree; auto; [|apply agreeExcept_refl].
    intros b0 Hb0. apply Hsame. rewrite Hbs. apply in_or_app. now left. }
  assert (Hrec : Forall (failureRecorded (b_id k) e) (blogs dbA)).
  { destruct (in_split _ _ Hin) as (pre & post & Hbs).
    pose proof (syncBlogs_app env opts pre (k :: post) t0 db3) as Happ.
    rewrite <- Hbs, HA in Happ.
    destruct (syncBlogs_tally env opts pre Hok t0 db3)
      as (t1 & db1 & H1 & _).
    rewrite H1, syncBlogs_cons in Happ by assumption.
    assert (HdbA : dbA = snd (syncBlogs env opts post
                     match fst (syncBlogItems env k (maxItemsPerBlog opts) db1)
                     with
                     | Ok r => tallyResult t1 r
                     | Throw _ => tallyFailed t1
                     end
                     (snd (syncBlogItems env k (maxItemsPerBlog opts) db1))))
      by (now rewrite <- Happ).
    rewrite HdbA. apply syncBlogs_keeps_failure.
    - intros b Hb Heq. rewrite Hbs, map_app in Hnd. simpl in Hnd.
      apply NoDup_remove_2 in Hnd. apply Hnd. apply in_or_app. right.
      rewrite <- Heq. now apply in_map.
    - apply syncBlogItems_records_failure; auto.
      pose proof (syncBlogs_ids env opts pre t0 db3) as Hids.
      rewrite H1 in Hids. simpl in Hids. now rewrite Hids. }
  split; [split; [|exact Hrec]|exact (agreeExcept_sym _ _ _ Hagree)].
  assert (Hid : In (b_id k) (map b_id (blogs dbA))).
  { pose proof (syncBlogs_ids env opts bs t0 db3) as Hids.
    rewrite HA in Hids. simpl in Hids. rewrite Hids. apply in_map.
    exact (runPrefix_lists _ _ _ _ _ _ _ _ Hpre k Hin). }
  apply in_map_iff in Hid. destruct Hid as (y & Hy & Hiny).
  exists y. split; [exact Hiny|]. split; [exact Hy|].
  rewrite Forall_forall in Hrec. exact (Hrec y Hiny Hy).
Qed.

Lemma one_failing_feed_is_isolated_witness :
  exists t t',
    fst (runFullSync feedAEnv defaultOptions (mkSched false busyDb))
    = Ok (RunDone (elapsed feedAEnv) (mkTally 2 1 1)
            (mkTally 3 (blogsSuccess t) 1) (newItems t) 0)
    /\ fst (runFullSync (setFetch feedAEnv feedUrlB (Ok (XmlFeed noMeta [])))
                        defaultOptions (mkSched false busyDb))
       = Ok (RunDone (elapsed feedAEnv) (mkTally 2 1 1)
               (mkTally 3 (blogsSuccess t') 0) (newItems t') 0)
    /\ blogsSuccess t' = blogsSuccess t + 1
    /\ Forall (failureRecorded 2 "HTTP 404")
              (blogs (store (snd (runFullSync feedAEnv defaultOptions
                                              (mkSched false busyDb))))).
Proof.
  destruct (one_failing_feed_is_isolated feedAEnv defaultOptions
              (mkSched false busyDb) 0
              [sampleSource 7 OpmlFile; sampleSource 8 JsonFeedSource]
              (1, 1)
              [blogA; sampleBlog 2 feedUrlB None Active;
               mirrorBlog 3 "https://m.example/feed" 5 "f1"]
              (snd (runPrefix feedAEnv defaultOptions busyDb))
              (sampleBlog 2 feedUrlB None Active) "HTTP 404"
              (XmlFeed noMeta []))
    as (t & dbA & t' & dbB & _ & HA & HB & Hs & _ & Hblogs & _ & _ & _ & _
        & _ & (_ & Hrec) & _).
  - reflexivity.
  - intros c m. reflexivity.
  - vm_compute. reflexivity.
  - vm_compute. repeat constructor; simpl; intuition discriminate.
  - vm_compute. repeat constructor; simpl; intuition discriminate.
  - simpl. right. left. reflexivity.
  - reflexivity.
  - reflexivity.
  - intros b [<-|[<-|[<-|[]]]] Hskip Hne.
    + reflexivity.
    + now contradiction Hne.
    + discriminate Hskip.
  - exists t, t'. split; [exact HA|]. split; [exact HB|].
    split; [exact Hs|]. rewrite Hblogs. exact Hrec.
Defined.

(** ** The export and import round trip *)






















(** The groups come back in the order of [Object.entries]: the group
    "7" first, then "Friends" and "Tech" in the order of their first
    blogs. *)
Example export_then_import_of_mixed_blogs :
  exists text es,
    generateOpml (readerEnv mixedBlogs) mixedBlogs "Blogroll" = Ok text
    /\ parseOpml (readerEnv mixedBlogs) text emptyDb = (Ok es, emptyDb)
    /\ map tripleOfEntry es
       = [ ("Eve", "https://eve.example/feed", "7");
           ("Ann", "https://ann.example/feed", "Friends");
           ("Cy & Di", "https://cy.example/feed", "Friends");
           ("Bob", "https://bob.example/feed", "Tech") ].
Proof.
  eexists. eexists. split; [vm_compute; reflexivity|].
  split; vm_compute; reflexivity.
Qed.

